(** * LossAccPlotter: the analytics core of [laplotter.py]

    A shallow embedding of the value sanitizer [ignore_nan_and_inf], of the
    series store kept by [LossAccPlotter.add_values], of the two derived
    views [_calc_sma] and [_calc_regression], and of the rendering methods
    with the calls they make into matplotlib.

    Python lists are mutable objects: every list lives in a store and is
    referred to by a location, so that appending, popping and aliasing are
    visible.  Python floats are binary64 numbers: NaN, the two infinities,
    and the finite ones held by their rational value, with every operation
    rounded to nearest, ties to even; the two zeros, which compare equal,
    are one value.  [numpy.polyfit] and [numpy.poly1d] are parameters of the
    development.  The source is Python 2 (it names the builtin [long]);
    integers are unbounded. *)

From Stdlib Require Import QArith Qcanon Qpower Qround Lqa.
From stdpp Require Import gmap strings list pretty numbers.

Local Open Scope Z_scope.

(** ** Python numbers *)

Inductive pyfloat :=
| NaN
| Inf (negative : bool)
| Fin (q : Qc).

(** [math.isnan] and [math.isinf]. *)
Definition isnan (v : pyfloat) : bool :=
  match v with NaN => true | _ => false end.

Definition isinf (v : pyfloat) : bool :=
  match v with Inf _ => true | _ => false end.

Definition float_neg (a : pyfloat) : pyfloat :=
  match a with
  | NaN => NaN
  | Inf s => Inf (negb s)
  | Fin q => Fin (- q)%Qc
  end.

(** *** Rounding to binary64 *)

(** [floor (log2 x)] for a positive rational [x]. *)
Definition log2_floor (x : Q) : Z :=
  let e := Z.log2 (Qnum x) - Z.log2 (Zpos (Qden x)) in
  if Qle_bool (2 ^ e) x then e else e - 1.

(** The integer nearest to [x], the even one of two that are as near. *)
Definition round_half_even (x : Q) : Z :=
  let f := Qfloor x in
  match (x - inject_Z f ?= 1 # 2)%Q with
  | Lt => f
  | Gt => f + 1
  | Eq => if Z.even f then f else f + 1
  end.

(** The exponent of the last place of the binary64 numbers around [x]:
    53 bits of precision, and no exponent below that of the subnormals. *)
Definition ulp_exponent (x : Q) : Z := Z.max (log2_floor x - 52) (-1074).

(** A positive rational rounded to the nearest multiple of its last place. *)
Definition nearest (x : Q) : Q :=
  (inject_Z (round_half_even (x / 2 ^ ulp_exponent x)) * 2 ^ ulp_exponent x)%Q.

(** Rounding of a positive rational: what rounds to [2^1024] or beyond is
    infinite. *)
Definition round64_pos (x : Q) : pyfloat :=
  if Qle_bool (2 ^ 1024) (nearest x) then Inf false
  else Fin (Q2Qc (nearest x)).

(** The binary64 result of an operation whose exact result is [x]. *)
Definition round64 (x : Qc) : pyfloat :=
  match Qnum x with
  | Z0 => Fin 0%Qc
  | Zpos _ => round64_pos x
  | Zneg _ => float_neg (round64_pos (- x))
  end.

(** The value of a finite float. *)
Definition float_value (v : pyfloat) : Qc :=
  match v with
  | Fin q => q
  | _ => 0%Qc
  end.

(** The value of a float literal: the binary64 number nearest to the
    decimal written. *)
Definition float_literal (q : Q) : Qc := float_value (round64 (Q2Qc q)).

(** *** Arithmetic *)

Definition float_add (a b : pyfloat) : pyfloat :=
  match a, b with
  | NaN, _ | _, NaN => NaN
  | Inf s, Inf t => if Bool.eqb s t then Inf s else NaN
  | Inf s, Fin _ => Inf s
  | Fin _, Inf t => Inf t
  | Fin p, Fin q => round64 (p + q)%Qc
  end.

Definition float_sub (a b : pyfloat) : pyfloat := float_add a (float_neg b).

Definition Qc_negative (q : Qc) : bool := bool_decide (q < 0)%Qc.

Definition float_mul (a b : pyfloat) : pyfloat :=
  match a, b with
  | NaN, _ | _, NaN => NaN
  | Inf s, Inf t => Inf (xorb s t)
  | Inf s, Fin q | Fin q, Inf s =>
      if bool_decide (q = 0%Qc) then NaN else Inf (xorb s (Qc_negative q))
  | Fin p, Fin q => round64 (p * q)%Qc
  end.

(** [float(n)] for a length [n]. *)
Definition Qc_of_nat (n : nat) : Qc := Q2Qc (inject_Z (Z.of_nat n)).

Definition float_of_nat (n : nat) : pyfloat := round64 (Qc_of_nat n).

(** [a / b] on floats; [None] stands for [ZeroDivisionError]. *)
Definition float_truediv (a b : pyfloat) : option pyfloat :=
  match b with
  | NaN => Some NaN
  | Fin d =>
      if bool_decide (d = 0%Qc) then None
      else Some match a with
                | NaN => NaN
                | Inf s => Inf (xorb s (Qc_negative d))
                | Fin n => round64 (n / d)%Qc
                end
  | Inf _ =>
      Some match a with
           | Fin _ => Fin 0%Qc
           | _ => NaN
           end
  end.

(** The order of the floats that are not NaN. *)
Definition float_le (a b : pyfloat) : Prop :=
  match a, b with
  | NaN, _ | _, NaN => False
  | Inf true, _ | _, Inf false => True
  | Fin p, Fin q => (p ≤ q)%Qc
  | _, _ => False
  end.

(** [int(q)]: truncation toward zero. *)
Definition py_int (q : Qc) : Z := Z.quot (Qnum q) (Zpos (Qden q)).

(** [l[start:]] with Python's treatment of negative and oversized starts. *)
Definition slice_from {A} (start : Z) (l : list A) : list A :=
  let len := Z.of_nat (length l) in
  let s := if bool_decide (start < 0) then Z.max (start + len) 0
           else Z.min start len in
  drop (Z.to_nat s) l.

(** [range(start, stop)] as a list. *)
Definition py_range (start stop : Z) : list Z := seqZ start (stop - start).

(** ** The store of list objects *)

Abbreviation loc := positive.

Inductive exn :=
| ZeroDivisionError
| TypeError
| ValueError
| IndexError
| ReferenceError.

Record store := Store {
  int_lists : gmap loc (list Z);
  float_lists : gmap loc (list pyfloat);
  warnings : list string
}.

Definition set_int_lists (f : gmap loc (list Z) → gmap loc (list Z))
    (σ : store) : store :=
  Store (f (int_lists σ)) (float_lists σ) (warnings σ).

Definition set_float_lists
    (f : gmap loc (list pyfloat) → gmap loc (list pyfloat))
    (σ : store) : store :=
  Store (int_lists σ) (f (float_lists σ)) (warnings σ).

Definition empty_store : store := Store ∅ ∅ [].

Inductive outcome (A : Type) :=
| Return (a : A) (σ : store)
| Raise (e : exn) (σ : store).
Arguments Return {A} a σ.
Arguments Raise {A} e σ.

Definition final_store {A} (o : outcome A) : store :=
  match o with Return _ σ | Raise _ σ => σ end.

Definition M (A : Type) : Type := store → outcome A.

Definition run {A} (m : M A) (σ : store) : outcome A := m σ.

Global Instance M_ret : MRet M := λ A a σ, Return a σ.

Global Instance M_bind : MBind M := λ A B k m σ,
  match m σ with
  | Return a σ' => k a σ'
  | Raise e σ' => Raise e σ'
  end.

Definition raise {A} (e : exn) : M A := λ σ, Raise e σ.

(** [warnings.warn(msg)]: the message is reported, nothing is raised. *)
Definition warn (msg : string) : M unit := λ σ,
  Return () (Store (int_lists σ) (float_lists σ) (warnings σ ++ [msg])).

(** A list display [[...]] allocates a new object. *)
Definition new_int_list (xs : list Z) : M loc := λ σ,
  let l := fresh (dom (int_lists σ)) in
  Return l (set_int_lists (insert l xs) σ).

Definition new_float_list (ys : list pyfloat) : M loc := λ σ,
  let l := fresh (dom (float_lists σ)) in
  Return l (set_float_lists (insert l ys) σ).

Definition read_ints (l : loc) : M (list Z) := λ σ,
  match int_lists σ !! l with
  | Some xs => Return xs σ
  | None => Raise ReferenceError σ
  end.

Definition read_floats (l : loc) : M (list pyfloat) := λ σ,
  match float_lists σ !! l with
  | Some ys => Return ys σ
  | None => Raise ReferenceError σ
  end.

(** [l.append(x)] *)
Definition append_int (l : loc) (x : Z) : M unit := λ σ,
  match int_lists σ !! l with
  | Some xs => Return () (set_int_lists (insert l (xs ++ [x])) σ)
  | None => Raise ReferenceError σ
  end.

Definition append_float (l : loc) (y : pyfloat) : M unit := λ σ,
  match float_lists σ !! l with
  | Some ys => Return () (set_float_lists (insert l (ys ++ [y])) σ)
  | None => Raise ReferenceError σ
  end.

(** [l.pop(0)] *)
Definition pop0_float (l : loc) : M pyfloat := λ σ,
  match float_lists σ !! l with
  | Some (y :: ys) => Return y (set_float_lists (insert l ys) σ)
  | Some [] => Raise IndexError σ
  | None => Raise ReferenceError σ
  end.

(** [len(l)] *)
Definition len_ints (l : loc) : M nat := xs ← read_ints l; mret (length xs).

Definition len_floats (l : loc) : M nat := ys ← read_floats l; mret (length ys).

(** [l[-1]] *)
Definition last_int (l : loc) : M Z :=
  xs ← read_ints l;
  match list.last xs with
  | Some x => mret x
  | None => raise IndexError
  end.

(** [for y in ys: acc = body(acc, y)], with the local variables the body
    assigns threaded through as [acc]. *)
Fixpoint for_in {A S} (ys : list A) (acc : S) (body : S → A → M S) : M S :=
  match ys with
  | [] => mret acc
  | y :: ys' => acc' ← body acc y; for_in ys' acc' body
  end.

(** ** The sanitizer *)

Definition nan_message (label : string) (x_index : Z) : string :=
  "Got NaN for value '" +:+ label +:+ "' at x-index " +:+ pretty x_index.

Definition inf_message (label : string) (x_index : Z) : string :=
  "Got INF for value '" +:+ label +:+ "' at x-index " +:+ pretty x_index.

Definition ignore_nan_and_inf (value : option pyfloat) (label : string)
    (x_index : Z) : M (option pyfloat) :=
  match value with
  | None => mret None
  | Some v =>
      if isnan v then
        warn (nan_message label x_index) ;; mret None
      else if isinf v then
        warn (inf_message label x_index) ;; mret None
      else mret (Some v)
  end.

(** ** The plotter object *)

Record LossAccPlotter := {
  averages_period : Z;
  poly_forward_perc : Qc;
  poly_backward_perc : Qc;
  poly_n_forward_min : Z;
  poly_n_backward_min : Z;
  poly_n_forward_max : Z;
  poly_n_backward_max : Z;
  poly_degree : Z;
  values_loss_train_x : loc;
  values_loss_val_x : loc;
  values_acc_train_x : loc;
  values_acc_val_x : loc;
  values_loss_train_y : loc;
  values_loss_val_y : loc;
  values_acc_train_y : loc;
  values_acc_val_y : loc
}.

(** The constructor: the configuration constants and eight new empty lists. *)
Definition __init__ : M LossAccPlotter :=
  ltx ← new_int_list [];
  lvx ← new_int_list [];
  atx ← new_int_list [];
  avx ← new_int_list [];
  lty ← new_float_list [];
  lvy ← new_float_list [];
  aty ← new_float_list [];
  avy ← new_float_list [];
  mret {| averages_period := 20;
          poly_forward_perc := float_literal (1 # 10);
          poly_backward_perc := float_literal (2 # 10);
          poly_n_forward_min := 5;
          poly_n_backward_min := 10;
          poly_n_forward_max := 100;
          poly_n_backward_max := 100;
          poly_degree := 1;
          values_loss_train_x := ltx;
          values_loss_val_x := lvx;
          values_acc_train_x := atx;
          values_acc_val_x := avx;
          values_loss_train_y := lty;
          values_loss_val_y := lvy;
          values_acc_train_y := aty;
          values_acc_val_y := avy |}.

(** [if v is not None: xs.append(x_index); ys.append(v)] *)
Definition append_if_present (lx ly : loc) (x_index : Z)
    (v : option pyfloat) : M unit :=
  match v with
  | Some y => append_int lx x_index ;; append_float ly y
  | None => mret ()
  end.

(** [add_values] up to the stores.  The assertion on [x_index] holds by
    typing; the trailing [redraw] branch is in
    [LossAccPlotter_add_values]. *)
Definition add_values (self : LossAccPlotter) (x_index : Z)
    (loss_train loss_val acc_train acc_val : option pyfloat) : M unit :=
  loss_train ← ignore_nan_and_inf loss_train "loss train" x_index;
  loss_val ← ignore_nan_and_inf loss_val "loss val" x_index;
  acc_train ← ignore_nan_and_inf acc_train "acc train" x_index;
  acc_val ← ignore_nan_and_inf acc_val "acc val" x_index;
  append_if_present (values_loss_train_x self) (values_loss_train_y self)
    x_index loss_train ;;
  append_if_present (values_loss_val_x self) (values_loss_val_y self)
    x_index loss_val ;;
  append_if_present (values_acc_train_x self) (values_acc_train_y self)
    x_index acc_train ;;
  append_if_present (values_acc_val_x self) (values_acc_val_y self)
    x_index acc_val.

(** ** The smoother *)

Definition sma_body (period : Z) (last_ys result_y : loc)
    (running_sum : pyfloat) (y_val : pyfloat) : M pyfloat :=
  append_float last_ys y_val ;;
  let running_sum := float_add running_sum y_val in
  n ← len_floats last_ys;
  running_sum ←
    (if bool_decide (period < Z.of_nat n) then
       poped_y ← pop0_float last_ys;
       mret (float_sub running_sum poped_y)
     else mret running_sum);
  n ← len_floats last_ys;
  match float_truediv running_sum (float_of_nat n) with
  | Some avg => append_float result_y avg ;; mret running_sum
  | None => raise ZeroDivisionError
  end.

(** The loop runs over the elements [y_values] holds when it starts: the
    body writes to [last_ys] and [result_y] only, both new objects. *)
Definition _calc_sma (self : LossAccPlotter) (x_values y_values : loc)
    : M (loc * loc) :=
  result_x ← new_int_list [];
  result_y ← new_float_list [];
  last_ys ← new_float_list [];
  let period := averages_period self in
  ys ← read_floats y_values;
  for_in ys (Fin 0%Qc) (sma_body period last_ys result_y) ;;
  mret (x_values, result_y).

(** ** The extrapolator *)

(** [nb_values * perc]: the float product of [float(nb_values)] and the
    percentage.

    [n = int(nb_values * perc); n = max(n, n_min); n = min(n, n_max)]:
    [int] truncates the product.  The percentage is a finite float.  On a
    product that is not finite [int] raises; this happens for no length of
    a list in memory and no percentage below [2^960], and such a product
    counts here as lying beyond every bound. *)
Definition window_product (nb_values : nat) (perc : Qc) : pyfloat :=
  float_mul (float_of_nat nb_values) (Fin perc).

Definition window_size (nb_values : nat) (perc : Qc) (n_min n_max : Z) : Z :=
  match window_product nb_values perc with
  | Fin product =>
      let n := py_int product in
      let n := Z.max n n_min in
      Z.min n n_max
  | Inf true => Z.min n_min n_max
  | _ => n_max
  end.

Definition n_backward (self : LossAccPlotter) (nb_values : nat) : Z :=
  window_size nb_values (poly_backward_perc self)
    (poly_n_backward_min self) (poly_n_backward_max self).

Definition n_forward (self : LossAccPlotter) (nb_values : nat) : Z :=
  window_size nb_values (poly_forward_perc self)
    (poly_n_forward_min self) (poly_n_forward_max self).

(** [not l] *)
Definition is_empty_ints (l : loc) : M bool :=
  xs ← read_ints l; mret (bool_decide (xs = [])).

(** [l[start:]]: the slice is a new list handed to the callee. *)
Definition slice_ints (l : loc) (start : Z) : M (list Z) :=
  xs ← read_ints l; mret (slice_from start xs).

Definition slice_floats (l : loc) (start : Z) : M (list pyfloat) :=
  ys ← read_floats l; mret (slice_from start ys).

(** [return ([], [])] *)
Definition empty_pair : M (loc * loc) :=
  ex ← new_int_list [];
  ey ← new_float_list [];
  mret (ex, ey).

Section Numpy.

(** The least-squares solver behind [numpy.polyfit] and the evaluation of a
    [numpy.poly1d]. *)
Context {poly : Type}.
Variable lstsq : list Z → list pyfloat → Z → poly.
Variable poly_call : poly → Z → pyfloat.

(** [numpy.polyfit(x, y, deg)]: the argument checks, then the solver.  This
    is numpy on indices that fit a signed 64-bit integer; the warning it
    gives of a poorly conditioned fit is not recorded. *)
Definition np_polyfit (x : list Z) (y : list pyfloat) (deg : Z) : M poly :=
  if bool_decide (deg < 0) then raise ValueError
  else if bool_decide (length x = 0%nat) then raise TypeError
  else if bool_decide (length x ≠ length y) then raise TypeError
  else mret (lstsq x y deg).

Definition _calc_regression (self : LossAccPlotter) (x_values y_values : loc)
    : M (loc * loc) :=
  empty ← is_empty_ints x_values;
  short ← (if empty : bool then mret true
           else n ← len_ints x_values; mret (bool_decide (n < 2)%nat));
  if short : bool then empty_pair
  else
    last_x ← last_int x_values;
    nb_values ← len_ints x_values;
    let n_backward := n_backward self nb_values in
    let n_forward := n_forward self nb_values in
    if bool_decide (n_backward ≤ 0) && bool_decide (n_forward ≤ 0)
    then empty_pair
    else
      fit_x ← slice_ints x_values (- n_backward);
      fit_y ← slice_floats y_values (- n_backward);
      fit ← np_polyfit fit_x fit_y (poly_degree self);
      future_x ← new_int_list (py_range last_x (last_x + n_forward));
      xs ← read_ints future_x;
      future_y ← new_float_list (poly_call fit <$> xs);
      mret (future_x, future_y).

(** The two derived views of one channel, computed one after the other as
    [_redraw_averages] and [_redraw_regressions] do. *)
Definition query (self : LossAccPlotter) (x_values y_values : loc)
    : M ((loc * loc) * (loc * loc)) :=
  sma ← _calc_sma self x_values y_values;
  regression ← _calc_regression self x_values y_values;
  mret (sma, regression).

End Numpy.

(** ** Channels and ingestion sequences *)

Inductive channel := loss_train | loss_val | acc_train | acc_val.

Definition channel_x (self : LossAccPlotter) (c : channel) : loc :=
  match c with
  | loss_train => values_loss_train_x self
  | loss_val => values_loss_val_x self
  | acc_train => values_acc_train_x self
  | acc_val => values_acc_val_x self
  end.

Definition channel_y (self : LossAccPlotter) (c : channel) : loc :=
  match c with
  | loss_train => values_loss_train_y self
  | loss_val => values_loss_val_y self
  | acc_train => values_acc_train_y self
  | acc_val => values_acc_val_y self
  end.

(** The arguments of one call of [add_values]. *)
Record ingestion := Ingestion {
  x_index : Z;
  supplied : channel → option pyfloat
}.

Definition ingest (self : LossAccPlotter) (i : ingestion) : M unit :=
  add_values self (x_index i) (supplied i loss_train) (supplied i loss_val)
    (supplied i acc_train) (supplied i acc_val).

(** Construction followed by a sequence of calls of [add_values]. *)
Definition session (calls : list ingestion) : M LossAccPlotter :=
  self ← __init__;
  for_in calls () (λ _ i, ingest self i) ;;
  mret self.

(** The contents of a pair of lists returned by a view. *)
Definition contents (σ : store) (p : loc * loc)
    : option (list Z) * option (list pyfloat) :=
  (int_lists σ !! p.1, float_lists σ !! p.2).

(** ** Specifications *)

(** What a run leaves visible: the contents of the returned pair of lists,
    or the exception. *)
Definition view (o : outcome (loc * loc))
    : exn + (option (list Z) * option (list pyfloat)) :=
  match o with
  | Return p σ => inr (contents σ p)
  | Raise e _ => inl e
  end.

Definition query_view (o : outcome ((loc * loc) * (loc * loc))) :=
  match o with
  | Return (sma, regression) σ =>
      inr (contents σ sma, contents σ regression)
  | Raise e _ => inl e
  end.

(** [extends σ σ']: every list of [σ] is a list of [σ'] with the same
    contents, and no warning was emitted in between. *)
Definition extends (σ σ' : store) : Prop :=
  int_lists σ ⊆ int_lists σ' ∧
  float_lists σ ⊆ float_lists σ' ∧
  warnings σ' = warnings σ.

(** Weakest preconditions for the store monad, with a separate
    postcondition for raised exceptions. *)
Definition wp {A} (m : M A) (σ : store)
    (Q : A → store → Prop) (E : exn → store → Prop) : Prop :=
  match m σ with
  | Return a σ' => Q a σ'
  | Raise e σ' => E e σ'
  end.

(** *** The smoother on list contents *)

(** One iteration of the loop of [_calc_sma] on the contents of [last_ys]
    and [result_y]; [None] is the [ZeroDivisionError] of the division. *)
Definition sma_step (period : Z)
    (st : list pyfloat * pyfloat * list pyfloat) (y_val : pyfloat)
    : option (list pyfloat * pyfloat * list pyfloat) :=
  let '(last_ys, running_sum, result_y) := st in
  let last_ys := last_ys ++ [y_val] in
  let running_sum := float_add running_sum y_val in
  let '(last_ys, running_sum) :=
    match last_ys with
    | poped_y :: rest =>
        if bool_decide (period < Z.of_nat (length last_ys))
        then (rest, float_sub running_sum poped_y)
        else (last_ys, running_sum)
    | [] => (last_ys, running_sum)
    end in
  match float_truediv running_sum (float_of_nat (length last_ys)) with
  | Some avg => Some (last_ys, running_sum, result_y ++ [avg])
  | None => None
  end.

Fixpoint sma_loop (period : Z) (st : list pyfloat * pyfloat * list pyfloat)
    (ys : list pyfloat) : option (list pyfloat * pyfloat * list pyfloat) :=
  match ys with
  | [] => Some st
  | y :: ys' =>
      match sma_step period st y with
      | Some st' => sma_loop period st' ys'
      | None => None
      end
  end.

Definition sma_model (period : Z) (ys : list pyfloat)
    : option (list pyfloat) :=
  match sma_loop period ([], Fin 0%Qc, []) ys with
  | Some (_, _, result_y) => Some result_y
  | None => None
  end.

(** The smoothed view in the words of the specification: at position [i]
    the arithmetic mean of the last [min(window, i+1)] values ending there. *)
Definition sum_Qc (l : list Qc) : Qc := foldr Qcplus 0%Qc l.

Definition mean (l : list Qc) : Qc := (sum_Qc l / Qc_of_nat (length l))%Qc.

(** The last [k] elements of [l] (all of [l] when it is shorter). *)
Definition last_n {A} (k : nat) (l : list A) : list A :=
  drop (length l - k)%nat l.

Definition trailing (window : Z) (i : nat) (qs : list Qc) : list Qc :=
  last_n (Nat.min (Z.to_nat window) (S i)) (take (S i) qs).

(** The running sum after the value at position [i]: the sum before it,
    plus the value, less the value that leaves the window when the window
    is full. *)
Fixpoint running_sum (window : Z) (ys : list pyfloat) (i : nat) : pyfloat :=
  let entered :=
    float_add
      (match i with O => Fin 0%Qc | S j => running_sum window ys j end)
      (default NaN (ys !! i)) in
  if bool_decide (window < Z.of_nat (S i))
  then float_sub entered (default NaN (ys !! (i - Z.to_nat window)%nat))
  else entered.

Definition sum_before (window : Z) (ys : list pyfloat) (n : nat) : pyfloat :=
  match n with
  | O => Fin 0%Qc
  | S j => running_sum window ys j
  end.

(** The number of values in the window at position [i]. *)
Definition occupancy (window : Z) (i : nat) : nat :=
  Nat.min (Z.to_nat window) (S i).

(** [q] is a binary64 number: rounding leaves it as it is. *)
Definition representable (q : Qc) : Prop := round64 q = Fin q.

(** The mean of [l] as a float: the quotient of the sum by the length. *)
Definition float_mean (l : list Qc) : option pyfloat :=
  float_truediv (Fin (sum_Qc l)) (float_of_nat (length l)).

(** The running sum is exact on [qs]: at every position the sum of the
    window, and the sum of the window with the value about to leave it,
    are binary64 numbers. *)
Definition sums_exact (window : Z) (qs : list Qc) : Prop :=
  ∀ i, (i < length qs)%nat →
    representable (sum_Qc (trailing window i qs)) ∧
    representable (sum_Qc (trailing (window + 1) i qs)).

(** A check of [representable] by evaluation. *)
Definition representable_b (q : Qc) : bool :=
  match round64 q with
  | Fin r => Qeq_bool r q
  | _ => false
  end.

(** *** Window sizes *)

(** [t] is [q] truncated toward zero. *)
Definition truncates (q : Qc) (t : Z) : Prop :=
  ((0 ≤ q)%Qc → (Q2Qc (inject_Z t) ≤ q)%Qc ∧ (q < Q2Qc (inject_Z (t + 1)))%Qc) ∧
  ((q ≤ 0)%Qc → (Q2Qc (inject_Z (t - 1)) < q)%Qc ∧ (q ≤ Q2Qc (inject_Z t))%Qc).

(** [z] is an integer nearest to [q], whatever the rule for ties. *)
Definition rounds_to (q : Qc) (z : Z) : Prop :=
  (Q2Qc (inject_Z z) - Q2Qc (1 # 2) ≤ q)%Qc ∧
  (q ≤ Q2Qc (inject_Z z) + Q2Qc (1 # 2))%Qc.

(** [n = max(n, n_min); n = min(n, n_max)] *)
Definition clamp (n n_min n_max : Z) : Z := Z.min (Z.max n n_min) n_max.

(** *** Series *)

Global Instance channel_eq_dec : EqDecision channel.
Proof. solve_decision. Defined.

(** The contents of the lists of channel [c]. *)
Definition series (σ : store) (self : LossAccPlotter) (c : channel)
    : option (list Z) * option (list pyfloat) :=
  contents σ (channel_x self c, channel_y self c).

(** The index appended along with a surviving value. *)
Definition appended_index (x_index : Z) (v : option pyfloat) : list Z :=
  match v with
  | Some _ => [x_index]
  | None => []
  end.

Definition all_channels : list channel :=
  [loss_train; loss_val; acc_train; acc_val].

(** The eight lists of the plotter are distinct objects of the store. *)
Definition wf_plotter (self : LossAccPlotter) (σ : store) : Prop :=
  NoDup (channel_x self <$> all_channels) ∧
  NoDup (channel_y self <$> all_channels) ∧
  ∀ c, is_Some (int_lists σ !! channel_x self c) ∧
       is_Some (float_lists σ !! channel_y self c).

(** What survives the sanitizer. *)
Definition kept (v : option pyfloat) : option pyfloat :=
  match v with
  | Some (Fin q) => Some (Fin q)
  | _ => None
  end.

(** The observations of channel [c] in a sequence of calls, in call order. *)
Definition observations (c : channel) (calls : list ingestion)
    : list (Z * pyfloat) :=
  omap (λ i, v ← kept (supplied i c); Some (x_index i, v)) calls.

(** *** The extrapolator on list contents *)

Section NumpyModel.

Context {poly : Type}.
Variable lstsq : list Z → list pyfloat → Z → poly.
Variable poly_call : poly → Z → pyfloat.

(** [_calc_regression] on list contents, once the window sizes are known. *)
Definition regression_with (deg n_backward n_forward : Z)
    (xs : list Z) (ys : list pyfloat) : exn + (list Z * list pyfloat) :=
  match list.last xs with
  | None => inl IndexError
  | Some last_x =>
      if bool_decide (n_backward ≤ 0) && bool_decide (n_forward ≤ 0)
      then inr ([], [])
      else
        let fit_x := slice_from (- n_backward) xs in
        let fit_y := slice_from (- n_backward) ys in
        if bool_decide (deg < 0) then inl ValueError
        else if bool_decide (length fit_x = 0%nat) then inl TypeError
        else if bool_decide (length fit_x ≠ length fit_y) then inl TypeError
        else
          let future_x := seqZ last_x n_forward in
          inr (future_x, poly_call (lstsq fit_x fit_y deg) <$> future_x)
  end.

Definition regression_model (self : LossAccPlotter)
    (xs : list Z) (ys : list pyfloat) : exn + (list Z * list pyfloat) :=
  if bool_decide (length xs < 2)%nat then inr ([], [])
  else regression_with (poly_degree self)
         (n_backward self (length xs)) (n_forward self (length xs)) xs ys.

Definition lift_view (r : exn + (list Z * list pyfloat))
    : exn + (option (list Z) * option (list pyfloat)) :=
  match r with
  | inl e => inl e
  | inr (xs, ys) => inr (Some xs, Some ys)
  end.

(** [query] on list contents. *)
Definition query_model (self : LossAccPlotter)
    (xs : list Z) (ys : list pyfloat) :=
  match sma_model (averages_period self) ys with
  | None => inl ZeroDivisionError
  | Some smoothed =>
      match regression_model self xs ys with
      | inl e => inl e
      | inr (fx, fy) => inr ((Some xs, Some smoothed), (Some fx, Some fy))
      end
  end.

End NumpyModel.

(** *** Concrete objects *)

(** Attribute assignments on a plotter. *)
Definition set_averages_period (period : Z) (self : LossAccPlotter)
    : LossAccPlotter :=
  {| averages_period := period;
     poly_forward_perc := poly_forward_perc self;
     poly_backward_perc := poly_backward_perc self;
     poly_n_forward_min := poly_n_forward_min self;
     poly_n_backward_min := poly_n_backward_min self;
     poly_n_forward_max := poly_n_forward_max self;
     poly_n_backward_max := poly_n_backward_max self;
     poly_degree := poly_degree self;
     values_loss_train_x := values_loss_train_x self;
     values_loss_val_x := values_loss_val_x self;
     values_acc_train_x := values_acc_train_x self;
     values_acc_val_x := values_acc_val_x self;
     values_loss_train_y := values_loss_train_y self;
     values_loss_val_y := values_loss_val_y self;
     values_acc_train_y := values_acc_train_y self;
     values_acc_val_y := values_acc_val_y self |}.

Definition set_poly_n_backward_min (n : Z) (self : LossAccPlotter)
    : LossAccPlotter :=
  {| averages_period := averages_period self;
     poly_forward_perc := poly_forward_perc self;
     poly_backward_perc := poly_backward_perc self;
     poly_n_forward_min := poly_n_forward_min self;
     poly_n_backward_min := n;
     poly_n_forward_max := poly_n_forward_max self;
     poly_n_backward_max := poly_n_backward_max self;
     poly_degree := poly_degree self;
     values_loss_train_x := values_loss_train_x self;
     values_loss_val_x := values_loss_val_x self;
     values_acc_train_x := values_acc_train_x self;
     values_acc_val_x := values_acc_val_x self;
     values_loss_train_y := values_loss_train_y self;
     values_loss_val_y := values_loss_val_y self;
     values_acc_train_y := values_acc_train_y self;
     values_acc_val_y := values_acc_val_y self |}.

(** The plotter built by the constructor in the empty store, and the store
    it leaves. *)
Definition new_plotter : LossAccPlotter :=
  {| averages_period := 20;
     poly_forward_perc := float_literal (1 # 10);
     poly_backward_perc := float_literal (2 # 10);
     poly_n_forward_min := 5;
     poly_n_backward_min := 10;
     poly_n_forward_max := 100;
     poly_n_backward_max := 100;
     poly_degree := 1;
     values_loss_train_x := 1;
     values_loss_val_x := 2;
     values_acc_train_x := 3;
     values_acc_val_x := 4;
     values_loss_train_y := 1;
     values_loss_val_y := 2;
     values_acc_train_y := 3;
     values_acc_val_y := 4 |}.

Definition new_store : store := final_store (__init__ empty_store).

(** A float with an integer value. *)
Definition float_of_Z (z : Z) : pyfloat := Fin (Q2Qc (inject_Z z)).

(** The store after feeding the train-loss channel of the new plotter with
    the values [ys] at the indices [0, 1, 2, ...]. *)
Definition train_loss_only (v : pyfloat) (c : channel) : option pyfloat :=
  match c with
  | loss_train => Some v
  | _ => None
  end.

Definition fed_store (ys : list pyfloat) : store :=
  final_store
    (for_in (zip (seqZ 0 (Z.of_nat (length ys))) ys) ()
       (λ _ xy, ingest new_plotter (Ingestion xy.1 (train_loss_only xy.2)))
       new_store).

(** A stand-in for the solver: the fit records how many points it was
    given, and evaluates to that number everywhere. *)
Definition count_lstsq (x : list Z) (y : list pyfloat) (deg : Z) : nat :=
  length x.

Definition count_call (fit : nat) (x : Z) : pyfloat := float_of_nat fit.

(** One call with a NaN, a finite value, an absent value and an infinity. *)
Definition mixed_values (c : channel) : option pyfloat :=
  match c with
  | loss_train => Some NaN
  | loss_val => Some (Fin (Q2Qc (7 # 2)))
  | acc_train => None
  | acc_val => Some (Inf false)
  end.

(** Closed goals on concrete objects, by evaluation. *)
Ltac evaluate := vm_compute; first [reflexivity | done | lia].

(** ** Further specifications *)

(** The warnings the sanitizer emits for one value. *)
Definition complaint (label : string) (x_index : Z) (v : option pyfloat)
    : list string :=
  match v with
  | Some NaN => [nan_message label x_index]
  | Some (Inf _) => [inf_message label x_index]
  | _ => []
  end.

(** The configuration the constructor sets. *)
Definition default_config (self : LossAccPlotter) : Prop :=
  averages_period self = 20 ∧
  poly_forward_perc self = float_literal (1 # 10) ∧
  poly_backward_perc self = float_literal (2 # 10) ∧
  poly_n_forward_min self = 5 ∧
  poly_n_backward_min self = 10 ∧
  poly_n_forward_max self = 100 ∧
  poly_n_backward_max self = 100 ∧
  poly_degree self = 1.

(** ** Rendering: the plotter object and its calls into matplotlib

    matplotlib is outside the source: every call the plotter makes into it
    is recorded, in order and with its arguments, and answers with new
    figure, axes and line identifiers.  [ax.plot] copies the data it is
    given and rejects index and value lists of different lengths. *)

Inductive pyexn :=
| ListError (e : exn)
| AssertionError
| AttributeError
| KeyError.

(** The box returned by [ax.get_position()]. *)
Record bbox := Bbox {
  box_x0 : Qc;
  box_y0 : Qc;
  box_width : Qc;
  box_height : Qc
}.

Inductive mpl_call :=
| Subplots (ncols : nat) (figsize : Z * Z)
| SetPosition (ax : nat) (position : list pyfloat)
| Show (block : option bool)
| SelectFigure (number : nat)
| Suptitle (figure : nat) (text : string) (fontsize : Z)
| Clear (ax : nat)
| SetTitle (ax : nat) (label : string)
| SetYLabel (ax : nat) (label : string)
| SetXLabel (ax : nat) (label : string)
| Grid (ax : nat) (visible : bool)
| Plot (ax : nat) (xs : list Z) (ys : list pyfloat) (fmt label : string)
    (alpha : Qc)
| Legend (ax : nat) (labels : list string) (location : string)
    (bbox_to_anchor : Qc * Qc) (ncol : Z)
| Savefig (figure : nat) (filepath : string).

(** The lists, the three attributes of the plotter that its methods assign
    ([fig], [ax_loss], [ax_acc]), and the state of matplotlib. *)
Record world := World {
  lists : store;
  fig : option nat;
  ax_loss : option nat;
  ax_acc : option nat;
  mpl_figures : nat;
  mpl_axes : nat;
  mpl_calls : list mpl_call
}.

Definition set_lists (σ : store) (w : world) : world :=
  World σ (fig w) (ax_loss w) (ax_acc w)
    (mpl_figures w) (mpl_axes w) (mpl_calls w).

Inductive routcome (A : Type) :=
| RReturn (a : A) (w : world)
| RRaise (e : pyexn) (w : world).
Arguments RReturn {A} a w.
Arguments RRaise {A} e w.

Definition final_world {A} (o : routcome A) : world :=
  match o with RReturn _ w | RRaise _ w => w end.

Definition R (A : Type) : Type := world → routcome A.

Definition rrun {A} (m : R A) (w : world) : routcome A := m w.

Global Instance R_ret : MRet R := λ A a w, RReturn a w.

Global Instance R_bind : MBind R := λ A B k m w,
  match m w with
  | RReturn a w' => k a w'
  | RRaise e w' => RRaise e w'
  end.

Definition rraise {A} (e : pyexn) : R A := λ w, RRaise e w.

(** A computation on the lists, run in the world. *)
Definition lift {A} (m : M A) : R A := λ w,
  match m (lists w) with
  | Return a σ => RReturn a (set_lists σ w)
  | Raise e σ => RRaise (ListError e) (set_lists σ w)
  end.

(** A call into matplotlib that returns nothing of interest. *)
Definition mpl (c : mpl_call) : R unit := λ w,
  RReturn () (World (lists w) (fig w) (ax_loss w) (ax_acc w)
                (mpl_figures w) (mpl_axes w) (mpl_calls w ++ [c])).

(** [plt.subplots(ncols=..., figsize=...)]: a new figure and its axes. *)
Definition subplots (ncols : nat) (figsize : Z * Z) : R (nat * list nat) :=
  λ w,
  RReturn (S (mpl_figures w), seq (mpl_axes w) ncols)
    (World (lists w) (fig w) (ax_loss w) (ax_acc w)
       (S (mpl_figures w)) (mpl_axes w + ncols)
       (mpl_calls w ++ [Subplots ncols figsize])).

(** [h, = ax.plot(x, y, fmt, label=..., alpha=...)]: the line drawn is the
    call's position in the record. *)
Definition plot (ax : nat) (x y : loc) (fmt label : string) (alpha : Qc)
    : R nat :=
  xs ← lift (read_ints x);
  ys ← lift (read_floats y);
  if bool_decide (length xs ≠ length ys) then rraise (ListError ValueError)
  else
    λ w, RReturn (length (mpl_calls w))
           (World (lists w) (fig w) (ax_loss w) (ax_acc w)
              (mpl_figures w) (mpl_axes w)
              (mpl_calls w ++ [Plot ax xs ys fmt label alpha])).

Definition get_fig : R (option nat) := λ w, RReturn (fig w) w.
Definition get_ax_loss : R (option nat) := λ w, RReturn (ax_loss w) w.
Definition get_ax_acc : R (option nat) := λ w, RReturn (ax_acc w) w.

Definition set_fig (f : option nat) : R unit := λ w,
  RReturn () (World (lists w) f (ax_loss w) (ax_acc w)
                (mpl_figures w) (mpl_axes w) (mpl_calls w)).
Definition set_ax_loss (a : option nat) : R unit := λ w,
  RReturn () (World (lists w) (fig w) a (ax_acc w)
                (mpl_figures w) (mpl_axes w) (mpl_calls w)).
Definition set_ax_acc (a : option nat) : R unit := λ w,
  RReturn () (World (lists w) (fig w) (ax_loss w) a
                (mpl_figures w) (mpl_axes w) (mpl_calls w)).

(** [d[key]] *)
Definition getitem (d : gmap string string) (key : string) : R string :=
  match d !! key with
  | Some v => mret v
  | None => rraise KeyError
  end.

(** [self.fig.number], [self.fig.savefig]: attribute access on [None]
    raises. *)
Definition fig_number : R nat :=
  f ← get_fig;
  match f with
  | Some n => mret n
  | None => rraise AttributeError
  end.

(** [s.replace(old, new)] *)
Fixpoint str_replace_go (old new : string) (skip : nat) (s : string)
    : string :=
  match s with
  | EmptyString => if bool_decide (old = EmptyString) then new else EmptyString
  | String c s' =>
      match skip with
      | S k => str_replace_go old new k s'
      | O =>
          if bool_decide (old = EmptyString)
          then new +:+ String c (str_replace_go old new 0 s')
          else if String.prefix old s
          then new +:+ str_replace_go old new (String.length old - 1) s'
          else String c (str_replace_go old new 0 s')
      end
  end.

Definition str_replace (old new s : string) : string :=
  str_replace_go old new 0 s.

(** The attributes the constructor sets from its arguments and constants,
    beside the configuration and the lists kept in [LossAccPlotter]. *)
Record Plotter := {
  data : LossAccPlotter;
  title : option string;
  title_fontsize : Z;
  show_regressions : bool;
  show_averages : bool;
  show_loss_plot : bool;
  show_acc_plot : bool;
  show_plot_window : bool;
  save_to_filepath : option string;
  x_label : string;
  grid : bool;
  linestyles : gmap string string;
  linestyles_one_value : gmap string string
}.

Definition default_linestyles : gmap string string :=
  list_to_map
    [("loss_train", "r-"); ("loss_train_sma", "r-");
     ("loss_train_regression", "r:");
     ("loss_val", "b-"); ("loss_val_sma", "b-");
     ("loss_val_regression", "b:");
     ("acc_train", "r-"); ("acc_train_sma", "r-");
     ("acc_train_regression", "r:");
     ("acc_val", "b-"); ("acc_val_sma", "b-");
     ("acc_val_regression", "b:")].

Definition default_linestyles_one_value : gmap string string :=
  list_to_map
    [("loss_train", "rs-"); ("loss_val", "b^-");
     ("acc_train", "rs-"); ("acc_val", "b^-")].

(** [assert cond] *)
Definition assert (cond : bool) : R unit :=
  if cond then mret () else rraise AssertionError.

(** The constructor with its arguments. *)
Definition LossAccPlotter_init (title : option string)
    (save_to_filepath : option string)
    (show_regressions show_averages show_loss_plot show_acc_plot
       show_plot_window : bool) (x_label : string) : R Plotter :=
  assert (show_loss_plot || show_acc_plot) ;;
  assert (bool_decide (save_to_filepath ≠ None) || show_plot_window) ;;
  set_fig None ;;
  set_ax_loss None ;;
  set_ax_acc None ;;
  core ← lift __init__;
  mret {| data := core;
          title := title;
          title_fontsize := 14;
          show_regressions := show_regressions;
          show_averages := show_averages;
          show_loss_plot := show_loss_plot;
          show_acc_plot := show_acc_plot;
          show_plot_window := show_plot_window;
          save_to_filepath := save_to_filepath;
          x_label := x_label;
          grid := true;
          linestyles := default_linestyles;
          linestyles_one_value := default_linestyles_one_value |}.

(** [if ax: body(ax)] for an axes attribute. *)
Definition when_axes (ax : option nat) (body : nat → R unit) : R unit :=
  match ax with
  | Some a => body a
  | None => mret ()
  end.

Definition block (self : Plotter) : R unit :=
  if show_plot_window self then
    n ← fig_number;
    mpl (SelectFigure n) ;;
    mpl (Show None)
  else mret ().

Definition _save_plot (self : Plotter) (filepath : string) : R unit :=
  n ← fig_number;
  mpl (Savefig n filepath).

(** The locals assigned under [if ax1:] are used under the next [if ax1:]
    only; both tests read the same local, so they agree. *)
Definition _redraw_main_lines (self : Plotter) : R (list nat) :=
  let handles := [] in
  ax1 ← get_ax_loss;
  ax2 ← get_ax_acc;
  ls_loss_train ← getitem (linestyles self) "loss_train";
  ls_loss_val ← getitem (linestyles self) "loss_val";
  ls_acc_train ← getitem (linestyles self) "acc_train";
  ls_acc_val ← getitem (linestyles self) "acc_val";
  n ← lift (len_ints (values_loss_train_x (data self)));
  ls_loss_train ← (if bool_decide (n = 1%nat)
                   then getitem (linestyles_one_value self) "loss_train"
                   else mret ls_loss_train);
  n ← lift (len_ints (values_loss_val_x (data self)));
  ls_loss_val ← (if bool_decide (n = 1%nat)
                 then getitem (linestyles_one_value self) "loss_val"
                 else mret ls_loss_val);
  n ← lift (len_ints (values_acc_train_x (data self)));
  ls_acc_train ← (if bool_decide (n = 1%nat)
                  then getitem (linestyles_one_value self) "acc_train"
                  else mret ls_acc_train);
  n ← lift (len_ints (values_acc_val_x (data self)));
  ls_acc_val ← (if bool_decide (n = 1%nat)
                then getitem (linestyles_one_value self) "acc_val"
                else mret ls_acc_val);
  let alpha_main := if show_averages self then float_literal (5 # 10)
                    else float_literal (8 # 10) in
  handles ←
    match ax1 with
    | Some ax1 =>
        h_lt ← plot ax1 (values_loss_train_x (data self))
                 (values_loss_train_y (data self))
                 ls_loss_train "loss train" alpha_main;
        h_lv ← plot ax1 (values_loss_val_x (data self))
                 (values_loss_val_y (data self))
                 ls_loss_val "loss val." alpha_main;
        mret (handles ++ [h_lt; h_lv])
    | None => mret handles
    end;
  handles ←
    match ax2 with
    | Some ax2 =>
        h_at ← plot ax2 (values_acc_train_x (data self))
                 (values_acc_train_y (data self))
                 ls_acc_train "acc. train" alpha_main;
        h_av ← plot ax2 (values_acc_val_x (data self))
                 (values_acc_val_y (data self))
                 ls_acc_val "acc. val." alpha_main;
        mret (handles ++ [h_at; h_av])
    | None => mret handles
    end;
  mret handles.

(** ["... (SMA %d)" % (self.averages_period,)] *)
Definition sma_label (prefix : string) (self : Plotter) : string :=
  prefix +:+ " (SMA " +:+ pretty (averages_period (data self)) +:+ ")".

Definition _redraw_averages (self : Plotter) : R (list nat) :=
  if negb (show_averages self) then mret []
  else
    let handles := [] in
    ax1 ← get_ax_loss;
    ax2 ← get_ax_acc;
    loss_sma ←
      match ax1 with
      | Some _ =>
          lt ← lift (_calc_sma (data self) (values_loss_train_x (data self))
                       (values_loss_train_y (data self)));
          lv ← lift (_calc_sma (data self) (values_loss_val_x (data self))
                       (values_loss_val_y (data self)));
          mret (Some (lt, lv))
      | None => mret None
      end;
    acc_sma ←
      match ax2 with
      | Some _ =>
          at_ ← lift (_calc_sma (data self) (values_acc_train_x (data self))
                        (values_acc_train_y (data self)));
          av ← lift (_calc_sma (data self) (values_acc_val_x (data self))
                       (values_acc_val_y (data self)));
          mret (Some (at_, av))
      | None => mret None
      end;
    let alpha_sma := float_literal (9 # 10) in
    handles ←
      match ax1, loss_sma with
      | Some ax1, Some (lt, lv) =>
          ls ← getitem (linestyles self) "loss_train_sma";
          h_lt ← plot ax1 lt.1 lt.2 ls (sma_label "train loss" self) alpha_sma;
          ls ← getitem (linestyles self) "loss_val_sma";
          h_lv ← plot ax1 lv.1 lv.2 ls (sma_label "val loss" self) alpha_sma;
          mret (handles ++ [h_lt; h_lv])
      | _, _ => mret handles
      end;
    handles ←
      match ax2, acc_sma with
      | Some ax2, Some (at_, av) =>
          ls ← getitem (linestyles self) "acc_train_sma";
          h_at ← plot ax2 at_.1 at_.2 ls (sma_label "train acc" self)
                   alpha_sma;
          ls ← getitem (linestyles self) "acc_val_sma";
          h_av ← plot ax2 av.1 av.2 ls (sma_label "acc. val." self)
                   alpha_sma;
          mret (handles ++ [h_at; h_av])
      | _, _ => mret handles
      end;
    mret handles.

(** ["$CHART train", ...]: the legend texts before the chart name is
    filled in. *)
Definition legend_labels (self : Plotter) : list string * Z :=
  let ncol := 1 in
  let labels := ["$CHART train"; "$CHART val."] in
  let '(labels, ncol) :=
    if show_averages self then
      (labels ++ ["$CHART train (avg " +:+ pretty (averages_period (data self))
                    +:+ ")";
                  "$CHART val. (avg " +:+ pretty (averages_period (data self))
                    +:+ ")"],
       ncol + 1)
    else (labels, ncol) in
  let '(labels, ncol) :=
    if show_regressions self then
      (labels ++ ["$CHART train (regression)"; "$CHART val. (regression)"],
       ncol + 1)
    else (labels, ncol) in
  (labels, ncol).

Section Rendering.

Context {poly : Type}.
Variable lstsq : list Z → list pyfloat → Z → poly.
Variable poly_call : poly → Z → pyfloat.
Variable get_position : nat → bbox.

Definition shrink_for_legend (ax : option nat) : R unit :=
  when_axes ax (λ a,
    let box := get_position a in
    mpl (SetPosition a
           [Fin (box_x0 box);
            float_add (Fin (box_y0 box))
              (float_mul (Fin (box_height box))
                 (Fin (float_literal (1 # 10))));
            Fin (box_width box);
            float_mul (Fin (box_height box))
              (Fin (float_literal (9 # 10)))])).

Definition _initialize_plot (self : Plotter) : R unit :=
  (if show_loss_plot self && show_acc_plot self then
     '(f, axs) ← subplots 2 (24, 8);
     match axs with
     | [ax1; ax2] =>
         set_fig (Some f) ;;
         set_ax_loss (Some ax1) ;;
         set_ax_acc (Some ax2)
     | _ => rraise (ListError ValueError)
     end
   else
     '(f, axs) ← subplots 1 (12, 8);
     match axs with
     | [ax] =>
         set_fig (Some f) ;;
         set_ax_loss (if show_loss_plot self then Some ax else None) ;;
         set_ax_acc (if show_acc_plot self then Some ax else None)
     | _ => rraise (ListError ValueError)
     end) ;;
  a ← get_ax_loss; shrink_for_legend a ;;
  a ← get_ax_acc; shrink_for_legend a ;;
  if show_plot_window self then mpl (Show (Some false)) else mret ().

Definition _redraw_regressions (self : Plotter) : R (list nat) :=
  if negb (show_regressions self) then mret []
  else
    let handles := [] in
    ax1 ← get_ax_loss;
    ax2 ← get_ax_acc;
    loss_regression ←
      match ax1 with
      | Some _ =>
          lt ← lift (_calc_regression lstsq poly_call (data self)
                       (values_loss_train_x (data self))
                       (values_loss_train_y (data self)));
          lv ← lift (_calc_regression lstsq poly_call (data self)
                       (values_loss_val_x (data self))
                       (values_loss_val_y (data self)));
          mret (Some (lt, lv))
      | None => mret None
      end;
    acc_regression ←
      match ax2 with
      | Some _ =>
          at_ ← lift (_calc_regression lstsq poly_call (data self)
                        (values_acc_train_x (data self))
                        (values_acc_train_y (data self)));
          av ← lift (_calc_regression lstsq poly_call (data self)
                       (values_acc_val_x (data self))
                       (values_acc_val_y (data self)));
          mret (Some (at_, av))
      | None => mret None
      end;
    let alpha_regression := float_literal (9 # 10) in
    match ax1, loss_regression with
    | Some ax1, Some (lt, lv) =>
        ls ← getitem (linestyles self) "loss_train_regression";
        h_lt ← plot ax1 lt.1 lt.2 ls "loss train regression"
                 alpha_regression;
        ls ← getitem (linestyles self) "loss_val_regression";
        h_lv ← plot ax1 lv.1 lv.2 ls "loss val. regression"
                 alpha_regression;
        mret ()
    | _, _ => mret ()
    end ;;
    handles ←
      match ax2, acc_regression with
      | Some ax2, Some (at_, av) =>
          ls ← getitem (linestyles self) "acc_train_regression";
          h_at ← plot ax2 at_.1 at_.2 ls "acc train regression"
                   alpha_regression;
          ls ← getitem (linestyles self) "acc_val_regression";
          h_av ← plot ax2 av.1 av.2 ls "acc val. regression"
                   alpha_regression;
          mret (handles ++ [h_at; h_av])
      | _, _ => mret handles
      end;
    mret handles.

(** [ax.clear(); ax.set_title(label); ...] of the loop over the two axes. *)
Definition reset_axes (self : Plotter) (ax : option nat) (label : string)
    : R unit :=
  when_axes ax (λ a,
    mpl (Clear a) ;;
    mpl (SetTitle a label) ;;
    mpl (SetYLabel a label) ;;
    mpl (SetXLabel a (x_label self)) ;;
    mpl (Grid a (grid self))).

Definition redraw (self : Plotter) : R unit :=
  f ← get_fig;
  (if bool_decide (f = None) then _initialize_plot self else mret ()) ;;
  n ← fig_number;
  mpl (SelectFigure n) ;;
  match title self with
  | Some t => n ← fig_number; mpl (Suptitle n t (title_fontsize self))
  | None => mret ()
  end ;;
  ax1 ← get_ax_loss;
  ax2 ← get_ax_acc;
  reset_axes self ax1 "Loss" ;;
  reset_axes self ax2 "Accuracy" ;;
  _redraw_main_lines self ;;
  _redraw_averages self ;;
  _redraw_regressions self ;;
  let '(labels, ncol) := legend_labels self in
  when_axes ax1 (λ a,
    mpl (Legend a (str_replace "$CHART" "loss" <$> labels)
           "upper center" (float_literal (1 # 2), float_literal (-8 # 100)) ncol)) ;;
  when_axes ax2 (λ a,
    mpl (Legend a (str_replace "$CHART" "acc." <$> labels)
           "upper center" (float_literal (1 # 2), float_literal (-8 # 100)) ncol)).

(** [add_values] with its [redraw] branch: [if self.save_to_filepath]
    holds for a string that is not empty. *)
Definition LossAccPlotter_add_values (self : Plotter) (x_index : Z)
    (loss_train loss_val acc_train acc_val : option pyfloat)
    (redraw_flag : bool) : R unit :=
  lift (add_values (data self) x_index loss_train loss_val acc_train
          acc_val) ;;
  if redraw_flag then
    redraw self ;;
    match save_to_filepath self with
    | Some filepath =>
        if bool_decide (filepath ≠ EmptyString) then _save_plot self filepath
        else mret ()
    | None => mret ()
    end
  else mret ().

End Rendering.

(** [for a in l: body(a)] *)
Fixpoint rfor_each {A} (l : list A) (body : A → R unit) : R unit :=
  match l with
  | [] => mret ()
  | a :: l' => body a ;; rfor_each l' body
  end.

(** One call of [add_values] with its [redraw] argument. *)
Record call_args := CallArgs {
  call_values : ingestion;
  call_redraw : bool
}.

(** The arguments of the constructor. *)
Record init_args := InitArgs {
  arg_title : option string;
  arg_save_to_filepath : option string;
  arg_show_regressions : bool;
  arg_show_averages : bool;
  arg_show_loss_plot : bool;
  arg_show_acc_plot : bool;
  arg_show_plot_window : bool;
  arg_x_label : string
}.

Definition construct (args : init_args) : R Plotter :=
  LossAccPlotter_init (arg_title args) (arg_save_to_filepath args)
    (arg_show_regressions args) (arg_show_averages args)
    (arg_show_loss_plot args) (arg_show_acc_plot args)
    (arg_show_plot_window args) (arg_x_label args).

(** The two assertions of the constructor. *)
Definition accepted (args : init_args) : bool :=
  (arg_show_loss_plot args || arg_show_acc_plot args) &&
  (bool_decide (arg_save_to_filepath args ≠ None) ||
   arg_show_plot_window args).

Section Program.

Context {poly : Type}.
Variable lstsq : list Z → list pyfloat → Z → poly.
Variable poly_call : poly → Z → pyfloat.
Variable get_position : nat → bbox.

Definition call_add_values (self : Plotter) (c : call_args) : R unit :=
  LossAccPlotter_add_values lstsq poly_call get_position self
    (x_index (call_values c))
    (supplied (call_values c) loss_train) (supplied (call_values c) loss_val)
    (supplied (call_values c) acc_train) (supplied (call_values c) acc_val)
    (call_redraw c).

(** The constructor followed by a sequence of calls of [add_values]. *)
Definition program (args : init_args) (calls : list call_args) : R Plotter :=
  self ← construct args;
  rfor_each calls (call_add_values self) ;;
  mret self.

End Program.

(** *** Reading the record of calls *)

(** The lines drawn on the axes [a]. *)
Fixpoint plots_on (a : nat) (evs : list mpl_call) : nat :=
  match evs with
  | [] => 0
  | Plot b _ _ _ _ _ :: evs' =>
      ((if bool_decide (a = b) then 1 else 0) + plots_on a evs')%nat
  | _ :: evs' => plots_on a evs'
  end.

(** The legends put on the axes [a]: their texts and column counts. *)
Fixpoint legends_on (a : nat) (evs : list mpl_call)
    : list (list string * Z) :=
  match evs with
  | [] => []
  | Legend b labels _ _ ncol :: evs' =>
      (if bool_decide (a = b) then [(labels, ncol)] else [])
        ++ legends_on a evs'
  | _ :: evs' => legends_on a evs'
  end.

(** The figures created. *)
Fixpoint subplots_in (evs : list mpl_call) : nat :=
  match evs with
  | [] => 0
  | Subplots _ _ :: evs' => S (subplots_in evs')
  | _ :: evs' => subplots_in evs'
  end.

(** The files written. *)
Fixpoint saved_in (evs : list mpl_call) : list string :=
  match evs with
  | [] => []
  | Savefig _ path :: evs' => path :: saved_in evs'
  | _ :: evs' => saved_in evs'
  end.

(** *** Relations between worlds *)

Definition same_figure (w w' : world) : Prop :=
  fig w' = fig w ∧ ax_loss w' = ax_loss w ∧ ax_acc w' = ax_acc w ∧
  mpl_figures w' = mpl_figures w ∧ mpl_axes w' = mpl_axes w.

(** From [w] to [w'] the calls [evs] were made, the lists of [w] kept their
    contents, and the attributes of the plotter were not assigned. *)
Definition draws (w w' : world) (evs : list mpl_call) : Prop :=
  extends (lists w) (lists w') ∧ same_figure w w' ∧
  mpl_calls w' = mpl_calls w ++ evs.

(** As [draws], with no word on the warnings: [numpy.polyfit] warns of a
    fit that is poorly conditioned, as one over repeated indices is. *)
Definition renders (w w' : world) (evs : list mpl_call) : Prop :=
  int_lists (lists w) ⊆ int_lists (lists w') ∧
  float_lists (lists w) ⊆ float_lists (lists w') ∧
  same_figure w w' ∧
  mpl_calls w' = mpl_calls w ++ evs.

(** The lists of channel [c] hold the indices and values [s c], as many of
    the ones as of the others. *)
Definition stores (self : LossAccPlotter) (σ : store)
    (s : channel → list Z * list pyfloat) : Prop :=
  ∀ c, int_lists σ !! channel_x self c = Some (s c).1 ∧
       float_lists σ !! channel_y self c = Some (s c).2 ∧
       length (s c).1 = length (s c).2.

Definition linestyle_keys : list string :=
  ["loss_train"; "loss_train_sma"; "loss_train_regression";
   "loss_val"; "loss_val_sma"; "loss_val_regression";
   "acc_train"; "acc_train_sma"; "acc_train_regression";
   "acc_val"; "acc_val_sma"; "acc_val_regression"].

Definition one_value_keys : list string :=
  ["loss_train"; "loss_val"; "acc_train"; "acc_val"].

Definition styles_complete (self : Plotter) : Prop :=
  (∀ k, k ∈ linestyle_keys → is_Some (linestyles self !! k)) ∧
  (∀ k, k ∈ one_value_keys → is_Some (linestyles_one_value self !! k)).

(** The configuration domain: a positive smoothing window, bounds of the
    backward window and a degree that are not negative. *)
Definition good_config (self : LossAccPlotter) : Prop :=
  0 < averages_period self ∧
  0 ≤ poly_n_backward_min self ∧
  0 ≤ poly_n_backward_max self ∧
  0 ≤ poly_degree self.

(** *** What is handed to numpy

    [numpy.polyfit] holds the indices it is given as signed 64-bit integers
    and raises on an index that does not fit.  [np_polyfit] stands for it on
    the indices that do: an index is [projectable] when it fits together
    with the indices projected from it, a hundred at most with the
    constructor's configuration. *)
Definition int64 (x : Z) : Prop := - 2 ^ 63 ≤ x < 2 ^ 63.

Definition projectable (x : Z) : Prop := int64 x ∧ int64 (x + 100).

Definition is_finite (v : pyfloat) : Prop :=
  isnan v = false ∧ isinf v = false.

(** Series as calls of [add_values] leave them: finite values at
    projectable indices. *)
Definition numeric (s : channel → list Z * list pyfloat) : Prop :=
  ∀ c, Forall projectable (s c).1 ∧ Forall is_finite (s c).2.

(** What the rendering methods rely on. *)
Definition ready (self : Plotter) (w : world)
    (s : channel → list Z * list pyfloat) : Prop :=
  stores (data self) (lists w) s ∧ styles_complete self ∧
  good_config (data self).

Definition wpR {A} (m : R A) (w : world)
    (Q : A → world → Prop) (E : pyexn → world → Prop) : Prop :=
  match m w with
  | RReturn a w' => Q a w'
  | RRaise e w' => E e w'
  end.

(** A world in which nothing has been built or drawn. *)
Definition empty_world : world := World empty_store None None None 0 0 [].

(** A stand-in for [get_position]: every axes fills the unit square. *)
Definition unit_box (ax : nat) : bbox := Bbox 0%Qc 0%Qc 1%Qc 1%Qc.

(** How many of the two axes attributes are set. *)
Definition axes_set (w : world) : nat :=
  ((if ax_loss w is Some _ then 1 else 0) +
   (if ax_acc w is Some _ then 1 else 0))%nat.

(** *** What is drawn

    The calls a redraw makes, as a function of the contents [s] of the
    series, of the figure and of the two axes. *)

Definition style (d : gmap string string) (key : string) : string :=
  default EmptyString (d !! key).

(** A line: its indices, its values, its format and its label. *)
Definition line : Type := list Z * list pyfloat * string * string.

Definition lines_on (ax : option nat) (alpha : Qc) (l : list line)
    : list mpl_call :=
  match ax with
  | Some a => (λ '(xs, ys, fmt, label), Plot a xs ys fmt label alpha) <$> l
  | None => []
  end.

(** A series as it is: a lone point is drawn with a marker. *)
Definition main_line (self : Plotter) (s : channel → list Z * list pyfloat)
    (c : channel) (key label : string) : line :=
  ((s c).1, (s c).2,
   (if bool_decide (length (s c).1 = 1%nat)
    then style (linestyles_one_value self) key
    else style (linestyles self) key),
   label).

Definition main_lines (self : Plotter) (ax1 ax2 : option nat)
    (s : channel → list Z * list pyfloat) : list mpl_call :=
  let alpha :=
    if show_averages self then float_literal (5 # 10)
    else float_literal (8 # 10) in
  lines_on ax1 alpha
    [main_line self s loss_train "loss_train" "loss train";
     main_line self s loss_val "loss_val" "loss val."] ++
  lines_on ax2 alpha
    [main_line self s acc_train "acc_train" "acc. train";
     main_line self s acc_val "acc_val" "acc. val."].

(** A smoothed series: the trailing means over the indices of the series. *)
Definition average_line (self : Plotter) (s : channel → list Z * list pyfloat)
    (c : channel) (key label : string) : line :=
  ((s c).1,
   default [] (sma_model (averages_period (data self)) (s c).2),
   style (linestyles self) key,
   sma_label label self).

Definition average_lines (self : Plotter) (ax1 ax2 : option nat)
    (s : channel → list Z * list pyfloat) : list mpl_call :=
  if show_averages self then
    lines_on ax1 (float_literal (9 # 10))
      [average_line self s loss_train "loss_train_sma" "train loss";
       average_line self s loss_val "loss_val_sma" "val loss"] ++
    lines_on ax2 (float_literal (9 # 10))
      [average_line self s acc_train "acc_train_sma" "train acc";
       average_line self s acc_val "acc_val_sma" "acc. val."]
  else [].

Definition reset_calls (self : Plotter) (ax : option nat) (label : string)
    : list mpl_call :=
  match ax with
  | Some a =>
      [Clear a; SetTitle a label; SetYLabel a label;
       SetXLabel a (x_label self); Grid a (grid self)]
  | None => []
  end.

Definition legend_calls (self : Plotter) (ax : option nat) (chart : string)
    : list mpl_call :=
  match ax with
  | Some a =>
      [Legend a (str_replace "$CHART" chart <$> (legend_labels self).1)
         "upper center" (float_literal (1 # 2), float_literal (-8 # 100))
         (legend_labels self).2]
  | None => []
  end.

Definition title_calls (self : Plotter) (f : nat) : list mpl_call :=
  match title self with
  | Some t => [Suptitle f t (title_fontsize self)]
  | None => []
  end.

Section Drawn.

Context {poly : Type}.
Variable lstsq : list Z → list pyfloat → Z → poly.
Variable poly_call : poly → Z → pyfloat.
Variable get_position : nat → bbox.

(** An extrapolated series: the fitted polynomial at the future indices. *)
Definition regression_line (self : Plotter)
    (s : channel → list Z * list pyfloat) (c : channel) (key label : string)
    : line :=
  let future :=
    match regression_model lstsq poly_call (data self) (s c).1 (s c).2 with
    | inr future => future
    | inl _ => ([], [])
    end in
  (future.1, future.2, style (linestyles self) key, label).

Definition regression_lines (self : Plotter) (ax1 ax2 : option nat)
    (s : channel → list Z * list pyfloat) : list mpl_call :=
  if show_regressions self then
    lines_on ax1 (float_literal (9 # 10))
      [regression_line self s loss_train "loss_train_regression"
         "loss train regression";
       regression_line self s loss_val "loss_val_regression"
         "loss val. regression"] ++
    lines_on ax2 (float_literal (9 # 10))
      [regression_line self s acc_train "acc_train_regression"
         "acc train regression";
       regression_line self s acc_val "acc_val_regression"
         "acc val. regression"]
  else [].

(** The calls of [redraw] on a figure that exists. *)
Definition redraw_calls (self : Plotter) (f : nat) (ax1 ax2 : option nat)
    (s : channel → list Z * list pyfloat) : list mpl_call :=
  [SelectFigure f] ++ title_calls self f ++
  reset_calls self ax1 "Loss" ++ reset_calls self ax2 "Accuracy" ++
  main_lines self ax1 ax2 s ++
  average_lines self ax1 ax2 s ++
  regression_lines self ax1 ax2 s ++
  legend_calls self ax1 "loss" ++ legend_calls self ax2 "acc.".

(** The position given to an axes to make room for the legend. *)
Definition shrunk (a : nat) : mpl_call :=
  let box := get_position a in
  SetPosition a
    [Fin (box_x0 box);
     float_add (Fin (box_y0 box))
       (float_mul (Fin (box_height box)) (Fin (float_literal (1 # 10))));
     Fin (box_width box);
     float_mul (Fin (box_height box)) (Fin (float_literal (9 # 10)))].

(** The calls of [_initialize_plot] when the next axes is [a]. *)
Definition initialize_calls (self : Plotter) (a : nat) : list mpl_call :=
  (if show_loss_plot self && show_acc_plot self
   then [Subplots 2 (24, 8)] else [Subplots 1 (12, 8)]) ++
  (if show_loss_plot self then [shrunk a] else []) ++
  (if show_acc_plot self
   then [shrunk (if show_loss_plot self then S a else a)] else []) ++
  (if show_plot_window self then [Show (Some false)] else []).

(** [w1] is [w] with its figure: [w] itself when it has one, and [w] after
    [_initialize_plot] when it has none. *)
Definition prepared (self : Plotter) (w w1 : world) : Prop :=
  match fig w with
  | Some _ => w1 = w
  | None =>
      lists w1 = lists w ∧
      fig w1 = Some (S (mpl_figures w)) ∧
      ax_loss w1 =
        (if show_loss_plot self then Some (mpl_axes w) else None) ∧
      ax_acc w1 =
        (if show_acc_plot self
         then Some (if show_loss_plot self then S (mpl_axes w)
                    else mpl_axes w)
         else None) ∧
      mpl_figures w1 = S (mpl_figures w) ∧
      mpl_axes w1 =
        (mpl_axes w +
         if show_loss_plot self && show_acc_plot self then 2 else 1)%nat ∧
      mpl_calls w1 = mpl_calls w ++ initialize_calls self (mpl_axes w)
  end.

End Drawn.

(** The call of [_save_plot] that follows a redraw. *)
Definition save_calls (self : Plotter) (f : nat) : list mpl_call :=
  match save_to_filepath self with
  | Some filepath =>
      if bool_decide (filepath ≠ EmptyString) then [Savefig f filepath]
      else []
  | None => []
  end.

(** How many of the two axes attributes are the axes [a]. *)
Definition axes_uses (ax1 ax2 : option nat) (a : nat) : nat :=
  ((if bool_decide (ax1 = Some a) then 1 else 0) +
   (if bool_decide (ax2 = Some a) then 1 else 0))%nat.

(** The number of texts of the legends of a record of calls. *)
Definition legend_texts (legends : list (list string * Z)) : nat :=
  sum_list (length ∘ fst <$> legends).

(** The series after one more call of [add_values]. *)
Definition with_call (s : channel → list Z * list pyfloat) (i : ingestion)
    (c : channel) : list Z * list pyfloat :=
  ((s c).1 ++ appended_index (x_index i) (kept (supplied i c)),
   (s c).2 ++ option_list (kept (supplied i c))).

(** The series of a sequence of calls. *)
Definition observed (calls : list ingestion) (c : channel)
    : list Z * list pyfloat :=
  ((observations c calls).*1, (observations c calls).*2).

(** The files written by the calls [calls] of a plotter that saves to
    [path]: one per call that redraws, when the path is a string that is
    not empty. *)
Definition saves (path : option string) (calls : list call_args)
    : list string :=
  c ← calls;
  if call_redraw c then
    match path with
    | Some filepath =>
        if bool_decide (filepath ≠ EmptyString) then [filepath] else []
    | None => []
    end
  else [].

(** The world [w] of the plotter [self], built in [w0], after the calls
    [calls] of [add_values]. *)
Definition after (self : Plotter) (w0 : world) (calls : list call_args)
    (w : world) : Prop :=
  wf_plotter (data self) (lists w) ∧
  ready self w (observed (call_values <$> calls)) ∧
  fig w = (if existsb call_redraw calls then Some (S (mpl_figures w0))
           else None) ∧
  mpl_figures w = (if existsb call_redraw calls then S (mpl_figures w0)
                   else mpl_figures w0) ∧
  ∃ evs,
    mpl_calls w = mpl_calls w0 ++ evs ∧
    subplots_in evs = (if existsb call_redraw calls then 1 else 0)%nat ∧
    saved_in evs = saves (save_to_filepath self) calls.

(** Membership in a list display. *)
Ltac in_list :=
  repeat first [apply list_elem_of_here | apply list_elem_of_further].

(** *** Concrete objects *)

(** A plotter over the lists of [new_plotter] that shows both charts in a
    window, with averages and regressions. *)
Definition window_plotter : Plotter :=
  {| data := new_plotter;
     title := Some "training";
     title_fontsize := 14;
     show_regressions := true;
     show_averages := true;
     show_loss_plot := true;
     show_acc_plot := true;
     show_plot_window := true;
     save_to_filepath := None;
     x_label := "Epoch";
     grid := true;
     linestyles := default_linestyles;
     linestyles_one_value := default_linestyles_one_value |}.

Definition two_values : list pyfloat := [float_of_Z 7; float_of_Z 8].

(** The world of [window_plotter] after two values of the training loss,
    before any figure exists. *)
Definition fed_world : world :=
  World (fed_store two_values) None None None 0 0 [].

(** The same with a figure and two axes. *)
Definition drawn_world : world :=
  World (fed_store two_values) (Some 1%nat) (Some 0%nat) (Some 1%nat) 1 2 [].

Definition fed_series (c : channel) : list Z * list pyfloat :=
  match c with
  | loss_train => ([0; 1], two_values)
  | _ => ([], [])
  end.

(** Arguments of the constructor: both charts, a window and a file. *)
Definition both_charts : init_args :=
  {| arg_title := Some "training";
     arg_save_to_filepath := Some "plot.png";
     arg_show_regressions := true;
     arg_show_averages := true;
     arg_show_loss_plot := true;
     arg_show_acc_plot := true;
     arg_show_plot_window := true;
     arg_x_label := "Epoch" |}.

(** Three calls of [add_values]; the second one does not redraw. *)
Definition three_calls : list call_args :=
  [CallArgs (Ingestion 0 (train_loss_only (float_of_Z 7))) true;
   CallArgs (Ingestion 1 mixed_values) false;
   CallArgs (Ingestion 2 (train_loss_only (float_of_Z 8))) true].

(** * Proofs *)

(** ** Rounding *)

Lemma pow2_pos (e : Z) : (0 < 2 ^ e)%Q.
Proof. by apply Qpower_0_lt. Qed.

Lemma pow2_le (a b : Z) : a ≤ b → (2 ^ a <= 2 ^ b)%Q.
Proof. intros H. by apply Qpower_le_compat_l. Qed.

Lemma pow2_lt (a b : Z) : a < b → (2 ^ a < 2 ^ b)%Q.
Proof. intros H. by apply Qpower_lt_compat_l. Qed.

Lemma pow2_succ (e : Z) : (2 ^ (e + 1) == 2 * 2 ^ e)%Q.
Proof. rewrite Qpower_plus by done. simpl. ring. Qed.

Lemma pow2_Z (a : Z) : 0 ≤ a → (inject_Z (2 ^ a) == 2 ^ a)%Q.
Proof. intros H. by rewrite Zpower_Qpower. Qed.

Lemma log2_floor_spec (x : Q) :
  (0 < x)%Q →
  (2 ^ log2_floor x <= x)%Q ∧ (x < 2 ^ (log2_floor x + 1))%Q.
Proof.
  intros Hx. unfold log2_floor.
  destruct x as [n d]. simpl Qnum. simpl Qden.
  assert (0 < n) as Hn. { unfold Qlt in Hx. simpl in Hx. lia. }
  set (a := Z.log2 n). set (b := Z.log2 (Z.pos d)).
  destruct (Z.log2_spec n Hn) as [Ha1 Ha2]. fold a in Ha1, Ha2.
  destruct (Z.log2_spec (Z.pos d) ltac:(done)) as [Hb1 Hb2].
  fold b in Hb1, Hb2.
  assert (0 ≤ a) as Ha0 by apply Z.log2_nonneg.
  assert (0 ≤ b) as Hb0 by apply Z.log2_nonneg.
  assert (2 ^ (a - b) == 2 ^ a / 2 ^ b)%Q as He by (by apply Qpower_minus).
  pose proof (pow2_pos a) as HA. pose proof (pow2_pos b) as HB.
  assert (inject_Z (2 ^ a) <= inject_Z n)%Q as Ha1'
    by (by rewrite <- Zle_Qle).
  assert (inject_Z n < inject_Z (2 ^ Z.succ a))%Q as Ha2'
    by (by rewrite <- Zlt_Qlt).
  assert (inject_Z (2 ^ b) <= inject_Z (Z.pos d))%Q as Hb1'
    by (by rewrite <- Zle_Qle).
  assert (inject_Z (Z.pos d) < inject_Z (2 ^ Z.succ b))%Q as Hb2'
    by (by rewrite <- Zlt_Qlt).
  rewrite !pow2_Z in * by lia. unfold Z.succ in *.
  rewrite pow2_succ in Ha2', Hb2'.
  assert (n # d == inject_Z n / inject_Z (Z.pos d))%Q as Hq
    by apply Qmake_Qdiv.
  set (N := inject_Z n) in *. set (D := inject_Z (Z.pos d)) in *.
  set (A := (2 ^ a)%Q) in *. set (B := (2 ^ b)%Q) in *.
  assert (0 < D)%Q as HD by lra.
  assert (N / D < 2 * (A / B))%Q as Hupper.
  { apply Qlt_shift_div_r; [done |].
    assert (2 * (A / B) * D == 2 * A * (D / B))%Q as ->
      by (field; lra).
    assert (1 <= D / B)%Q by (apply Qle_shift_div_l; lra).
    nra. }
  assert (A / B < 2 * (N / D))%Q as Hlower.
  { apply Qlt_shift_div_r; [done |].
    assert (2 * (N / D) * B == N * (2 * B / D))%Q as ->
      by (field; lra).
    assert (1 < 2 * B / D)%Q by (apply Qlt_shift_div_l; lra).
    nra. }
  destruct (Qle_bool (2 ^ (a - b)) (n # d)) eqn:Htest.
  - apply Qle_bool_iff in Htest. split; [done |].
    rewrite pow2_succ, He, Hq. done.
  - assert (¬ (2 ^ (a - b) <= n # d)%Q) as Hnot.
    { intros H. apply Qle_bool_iff in H. congruence. }
    apply Qnot_le_lt in Hnot.
    replace (a - b - 1 + 1) with (a - b) by lia. split; [| done].
    assert (2 ^ (a - b) == 2 * 2 ^ (a - b - 1))%Q as Hhalf.
    { rewrite <- pow2_succ. by replace (a - b - 1 + 1) with (a - b) by lia. }
    rewrite He in Hhalf. rewrite Hq. lra.
Qed.

Lemma log2_floor_mono (x y : Q) :
  (0 < x)%Q → (x <= y)%Q → log2_floor x ≤ log2_floor y.
Proof.
  intros Hx Hxy. assert (0 < y)%Q as Hy by lra.
  destruct (log2_floor_spec x Hx) as [Hx1 _].
  destruct (log2_floor_spec y Hy) as [_ Hy2].
  destruct (Z.le_gt_cases (log2_floor x) (log2_floor y)) as [|Hgt]; [done |].
  pose proof (pow2_le (log2_floor y + 1) (log2_floor x) ltac:(lia)).
  lra.
Qed.

Lemma round_half_even_spec (x : Q) :
  (inject_Z (round_half_even x) - (1 # 2) <= x)%Q ∧
  (x <= inject_Z (round_half_even x) + (1 # 2))%Q.
Proof.
  unfold round_half_even.
  pose proof (Qfloor_le x) as Hf1. pose proof (Qlt_floor x) as Hf2.
  rewrite inject_Z_plus in Hf2. change (inject_Z 1) with 1%Q in Hf2.
  destruct (Qcompare_spec (x - inject_Z (Qfloor x)) (1 # 2)) as [He|Hl|Hg];
    [destruct (Z.even (Qfloor x)) | |];
    rewrite ?inject_Z_plus; change (inject_Z 1) with 1%Q; split; lra.
Qed.

Lemma round_half_even_mono (x y : Q) :
  (x <= y)%Q → round_half_even x ≤ round_half_even y.
Proof.
  intros Hxy.
  destruct (Z.le_gt_cases (round_half_even x) (round_half_even y))
    as [|Hgt]; [done | exfalso].
  destruct (round_half_even_spec x) as [Hx1 Hx2].
  destruct (round_half_even_spec y) as [Hy1 Hy2].
  assert (inject_Z (round_half_even y) + 1 <= inject_Z (round_half_even x))%Q
    as Hstep.
  { rewrite <- (inject_Z_plus _ 1), <- Zle_Qle. lia. }
  assert (x == y)%Q as Heq by lra.
  assert (x == inject_Z (round_half_even x) - (1 # 2))%Q as Hxt by lra.
  assert (y == inject_Z (round_half_even y) + (1 # 2))%Q as Hyt by lra.
  assert (round_half_even x = round_half_even y + 1) as Hone.
  { apply Z.le_antisymm; [| lia]. rewrite Zle_Qle, inject_Z_plus.
    change (inject_Z 1) with 1%Q. lra. }
  assert (Qfloor x = Qfloor y) as Hfl by (by apply Qfloor_comp).
  clear Hxt Hyt Hx1 Hx2 Hy1 Hy2 Hstep Hgt.
  unfold round_half_even in Hone. rewrite <- Hfl in Hone.
  set (f := Qfloor x) in *.
  assert ((x - inject_Z f ?= 1 # 2) = (y - inject_Z f ?= 1 # 2))%Q as Hcmp
    by (by rewrite Heq).
  rewrite <- Hcmp in Hone.
  destruct (x - inject_Z f ?= 1 # 2)%Q; destruct (Z.even f); lia.
Qed.

Lemma round_half_even_comp (x y : Q) :
  (x == y)%Q → round_half_even x = round_half_even y.
Proof.
  intros Heq. apply Z.le_antisymm; apply round_half_even_mono; lra.
Qed.

Lemma round_half_even_Z (k : Z) : round_half_even (inject_Z k) = k.
Proof.
  unfold round_half_even. rewrite Qfloor_Z.
  destruct (Qcompare_spec (inject_Z k - inject_Z k) (1 # 2)); [lra | done | lra].
Qed.

Lemma round_half_even_ge (x : Q) (k : Z) :
  (inject_Z k <= x)%Q → k ≤ round_half_even x.
Proof.
  intros H. rewrite <- (round_half_even_Z k). by apply round_half_even_mono.
Qed.

Lemma round_half_even_le (x : Q) (k : Z) :
  (x <= inject_Z k)%Q → round_half_even x ≤ k.
Proof.
  intros H. rewrite <- (round_half_even_Z k). by apply round_half_even_mono.
Qed.

Lemma ulp_exponent_mono (x y : Q) :
  (0 < x)%Q → (x <= y)%Q → ulp_exponent x ≤ ulp_exponent y.
Proof.
  intros Hx Hxy. unfold ulp_exponent.
  pose proof (log2_floor_mono x y Hx Hxy). lia.
Qed.

(** The scaled value lies below [2^53], and at or above [2^52] unless the
    last place is that of the subnormals. *)
Lemma scaled_upper (x : Q) :
  (0 < x)%Q → (x / 2 ^ ulp_exponent x <= inject_Z (2 ^ 53))%Q.
Proof.
  intros Hx. destruct (log2_floor_spec x Hx) as [_ Hup].
  pose proof (pow2_pos (ulp_exponent x)) as HE.
  apply Qle_shift_div_r; [done |].
  rewrite pow2_Z by done. rewrite <- Qpower_plus by done.
  pose proof (pow2_le (log2_floor x + 1) (53 + ulp_exponent x)
                ltac:(unfold ulp_exponent; lia)).
  lra.
Qed.

Lemma scaled_lower (x : Q) :
  (0 < x)%Q → -1074 < ulp_exponent x →
  (inject_Z (2 ^ 52) <= x / 2 ^ ulp_exponent x)%Q.
Proof.
  intros Hx HE. destruct (log2_floor_spec x Hx) as [Hlow _].
  pose proof (pow2_pos (ulp_exponent x)) as HP.
  apply Qle_shift_div_l; [done |].
  rewrite pow2_Z by done. rewrite <- Qpower_plus by done.
  replace (52 + ulp_exponent x) with (log2_floor x)
    by (unfold ulp_exponent in *; lia).
  done.
Qed.

Lemma nearest_upper (x : Q) :
  (0 < x)%Q → (nearest x <= 2 ^ (ulp_exponent x + 53))%Q.
Proof.
  intros Hx. unfold nearest.
  pose proof (round_half_even_le _ _ (scaled_upper x Hx)) as Hm.
  pose proof (pow2_pos (ulp_exponent x)) as HP.
  rewrite Qpower_plus by done. rewrite <- (pow2_Z 53) by done.
  rewrite (Qmult_comm (2 ^ ulp_exponent x)).
  apply Qmult_le_compat_r; [| lra]. by rewrite <- Zle_Qle.
Qed.

Lemma nearest_lower (x : Q) :
  (0 < x)%Q → -1074 < ulp_exponent x →
  (2 ^ (ulp_exponent x + 52) <= nearest x)%Q.
Proof.
  intros Hx HE. unfold nearest.
  pose proof (round_half_even_ge _ _ (scaled_lower x Hx HE)) as Hm.
  pose proof (pow2_pos (ulp_exponent x)) as HP.
  rewrite Qpower_plus by done. rewrite <- (pow2_Z 52) by done.
  rewrite (Qmult_comm (2 ^ ulp_exponent x)).
  apply Qmult_le_compat_r; [| lra]. by rewrite <- Zle_Qle.
Qed.

Lemma nearest_nonneg (x : Q) : (0 < x)%Q → (0 <= nearest x)%Q.
Proof.
  intros Hx. unfold nearest.
  pose proof (pow2_pos (ulp_exponent x)) as HP.
  assert (0 ≤ round_half_even (x / 2 ^ ulp_exponent x)) as Hm.
  { apply round_half_even_ge. apply Qle_shift_div_l; [done |].
    change (inject_Z 0) with 0%Q. lra. }
  apply Qmult_le_0_compat; [| lra]. by rewrite <- (Zle_Qle 0).
Qed.

Lemma nearest_mono (x y : Q) :
  (0 < x)%Q → (x <= y)%Q → (nearest x <= nearest y)%Q.
Proof.
  intros Hx Hxy. assert (0 < y)%Q as Hy by lra.
  pose proof (ulp_exponent_mono x y Hx Hxy) as HE.
  destruct (Z.eq_dec (ulp_exponent x) (ulp_exponent y)) as [Heq|Hne].
  - unfold nearest. rewrite Heq.
    pose proof (pow2_pos (ulp_exponent y)) as HP.
    apply Qmult_le_compat_r; [| lra]. rewrite <- Zle_Qle.
    apply round_half_even_mono. apply Qmult_le_compat_r; [done |].
    apply Qlt_le_weak, Qinv_lt_0_compat. done.
  - pose proof (nearest_upper x Hx).
    pose proof (nearest_lower y Hy ltac:(unfold ulp_exponent in *; lia)).
    pose proof (pow2_le (ulp_exponent x + 53) (ulp_exponent y + 52)
                  ltac:(lia)).
    lra.
Qed.

Lemma nearest_comp (x y : Q) :
  (0 < x)%Q → (x == y)%Q → (nearest x == nearest y)%Q.
Proof.
  intros Hx Heq. apply Qle_antisym; apply nearest_mono; lra.
Qed.

Lemma float_le_refl (a : pyfloat) : a ≠ NaN → float_le a a.
Proof. destruct a as [|[]|q]; simpl; try done; intros _; apply Qcle_refl. Qed.

Lemma float_le_trans (a b c : pyfloat) :
  float_le a b → float_le b c → float_le a c.
Proof.
  destruct a as [|[]|p], b as [|[]|q], c as [|[]|r]; simpl; try done.
  apply Qcle_trans.
Qed.

Lemma Q2Qc_le (a b : Q) : (a <= b)%Q → (Q2Qc a ≤ Q2Qc b)%Qc.
Proof. intros H. unfold Qcle. simpl. by rewrite !Qred_correct. Qed.

Lemma round64_pos_mono (x y : Q) :
  (0 < x)%Q → (x <= y)%Q → float_le (round64_pos x) (round64_pos y).
Proof.
  intros Hx Hxy. pose proof (nearest_mono x y Hx Hxy) as Hn.
  unfold round64_pos.
  destruct (Qle_bool (2 ^ 1024) (nearest x)) eqn:Hox.
  - apply Qle_bool_iff in Hox.
    rewrite (proj2 (Qle_bool_iff _ _)) by lra. done.
  - destruct (Qle_bool (2 ^ 1024) (nearest y)); [done |]. by apply Q2Qc_le.
Qed.

Lemma round64_pos_nonneg (x : Q) :
  (0 < x)%Q → float_le (Fin 0%Qc) (round64_pos x).
Proof.
  intros Hx. unfold round64_pos.
  destruct (Qle_bool (2 ^ 1024) (nearest x)); [done |].
  apply (Q2Qc_le 0). by apply nearest_nonneg.
Qed.

Lemma float_le_neg (a b : pyfloat) :
  float_le a b → float_le (float_neg b) (float_neg a).
Proof.
  destruct a as [|[]|p], b as [|[]|q]; simpl; try done.
  intros H. by apply Qcopp_le_compat.
Qed.

Lemma round64_sign (x : Qc) :
  match Qnum x with
  | Z0 => x = 0%Qc
  | Zpos _ => (0 < x)%Q
  | Zneg _ => (0 < - x)%Q
  end.
Proof.
  destruct x as [[n d] Hc]. simpl. destruct n as [|n|n].
  - apply Qc_is_canon. simpl. unfold Qeq. simpl. done.
  - unfold Qlt. simpl. lia.
  - unfold Qlt. simpl. lia.
Qed.

Lemma round64_mono (x y : Qc) :
  (x ≤ y)%Qc → float_le (round64 x) (round64 y).
Proof.
  intros Hxy. unfold Qcle in Hxy. unfold round64.
  pose proof (round64_sign x) as Hsx. pose proof (round64_sign y) as Hsy.
  destruct (Qnum x) as [|nx|nx], (Qnum y) as [|ny|ny]; subst;
    try change (this (Q2Qc 0)) with 0%Q in Hxy.
  - done.
  - by apply round64_pos_nonneg.
  - exfalso. lra.
  - exfalso. lra.
  - by apply round64_pos_mono.
  - exfalso. lra.
  - by apply (float_le_neg (Fin 0%Qc)), round64_pos_nonneg.
  - eapply float_le_trans.
    + by apply (float_le_neg (Fin 0%Qc)), round64_pos_nonneg.
    + by apply round64_pos_nonneg.
  - apply float_le_neg, round64_pos_mono; lra.
Qed.

Lemma round64_pos_not_NaN (x : Q) : round64_pos x ≠ NaN.
Proof. unfold round64_pos. by destruct (Qle_bool _ _). Qed.

Lemma round64_not_NaN (x : Qc) : round64 x ≠ NaN.
Proof.
  unfold round64. destruct (Qnum x); [done | apply round64_pos_not_NaN |].
  pose proof (round64_pos_not_NaN (- x)%Q).
  destruct (round64_pos (- x)%Q) as [|[]|]; simpl; congruence.
Qed.


(** ** The program logic *)

Lemma wp_ret {A} (a : A) σ Q E : Q a σ → wp (mret a) σ Q E.
Proof. done. Qed.

Lemma wp_raise {A} e σ (Q : A → store → Prop) E : E e σ → wp (raise e) σ Q E.
Proof. done. Qed.

Lemma wp_bind {A B} (m : M A) (k : A → M B) σ Q E :
  wp m σ (λ a σ', wp (k a) σ' Q E) E → wp (m ≫= k) σ Q E.
Proof.
  unfold wp, mbind, M_bind. by destruct (m σ).
Qed.

Lemma wp_mono {A} (m : M A) σ (Q Q' : A → store → Prop)
    (E E' : exn → store → Prop) :
  wp m σ Q E →
  (∀ a σ', Q a σ' → Q' a σ') →
  (∀ e σ', E e σ' → E' e σ') →
  wp m σ Q' E'.
Proof.
  unfold wp. destruct (m σ); eauto.
Qed.

Lemma wp_run {A} (m : M A) σ Q E :
  wp m σ Q E →
  match run m σ with
  | Return a σ' => Q a σ'
  | Raise e σ' => E e σ'
  end.
Proof. done. Qed.

Lemma wp_returns {A} (m : M A) σ Q :
  wp m σ Q (λ _ _, False) → ∃ a σ', run m σ = Return a σ' ∧ Q a σ'.
Proof.
  unfold wp, run. destruct (m σ); [eauto | done].
Qed.

Lemma wp_new_int_list xs σ (Q : loc → store → Prop) E :
  (∀ l, int_lists σ !! l = None → Q l (set_int_lists (insert l xs) σ)) →
  wp (new_int_list xs) σ Q E.
Proof.
  intros HQ. apply HQ, not_elem_of_dom, is_fresh.
Qed.

Lemma wp_new_float_list ys σ (Q : loc → store → Prop) E :
  (∀ l, float_lists σ !! l = None → Q l (set_float_lists (insert l ys) σ)) →
  wp (new_float_list ys) σ Q E.
Proof.
  intros HQ. apply HQ, not_elem_of_dom, is_fresh.
Qed.

Lemma wp_read_ints l xs σ (Q : list Z → store → Prop) E :
  int_lists σ !! l = Some xs → Q xs σ → wp (read_ints l) σ Q E.
Proof.
  intros Hl HQ. unfold wp, read_ints. by rewrite Hl.
Qed.

Lemma wp_read_floats l ys σ (Q : list pyfloat → store → Prop) E :
  float_lists σ !! l = Some ys → Q ys σ → wp (read_floats l) σ Q E.
Proof.
  intros Hl HQ. unfold wp, read_floats. by rewrite Hl.
Qed.

Lemma wp_len_ints l xs σ (Q : nat → store → Prop) E :
  int_lists σ !! l = Some xs → Q (length xs) σ → wp (len_ints l) σ Q E.
Proof.
  intros Hl HQ. apply wp_bind, (wp_read_ints l xs); [done |]. by apply wp_ret.
Qed.

Lemma wp_len_floats l ys σ (Q : nat → store → Prop) E :
  float_lists σ !! l = Some ys → Q (length ys) σ → wp (len_floats l) σ Q E.
Proof.
  intros Hl HQ. apply wp_bind, (wp_read_floats l ys); [done |]. by apply wp_ret.
Qed.

Lemma wp_append_int l x xs σ (Q : unit → store → Prop) E :
  int_lists σ !! l = Some xs →
  Q () (set_int_lists (insert l (xs ++ [x])) σ) →
  wp (append_int l x) σ Q E.
Proof.
  intros Hl HQ. unfold wp, append_int. by rewrite Hl.
Qed.

Lemma wp_append_float l y ys σ (Q : unit → store → Prop) E :
  float_lists σ !! l = Some ys →
  Q () (set_float_lists (insert l (ys ++ [y])) σ) →
  wp (append_float l y) σ Q E.
Proof.
  intros Hl HQ. unfold wp, append_float. by rewrite Hl.
Qed.

Lemma wp_pop0_float l y ys σ (Q : pyfloat → store → Prop) E :
  float_lists σ !! l = Some (y :: ys) →
  Q y (set_float_lists (insert l ys) σ) →
  wp (pop0_float l) σ Q E.
Proof.
  intros Hl HQ. unfold wp, pop0_float. by rewrite Hl.
Qed.

Lemma init_empty_store :
  run __init__ empty_store = Return new_plotter new_store.
Proof. by vm_compute. Qed.

(** ** Store extension *)

Global Instance extends_preorder : PreOrder extends.
Proof.
  split.
  - by intros σ.
  - intros σ1 σ2 σ3 (Hi & Hf & Hw) (Hi' & Hf' & Hw').
    split_and!; [by etrans | by etrans | congruence].
Qed.

Lemma extends_lookup_int σ σ' l xs :
  extends σ σ' → int_lists σ !! l = Some xs → int_lists σ' !! l = Some xs.
Proof. intros (Hi & _) Hl. by eapply lookup_weaken. Qed.

Lemma extends_lookup_float σ σ' l ys :
  extends σ σ' → float_lists σ !! l = Some ys → float_lists σ' !! l = Some ys.
Proof. intros (_ & Hf & _) Hl. by eapply lookup_weaken. Qed.

Lemma extends_insert_int σ0 σ l xs :
  int_lists σ0 !! l = None → extends σ0 σ →
  extends σ0 (set_int_lists (insert l xs) σ).
Proof.
  intros Hl (Hi & Hf & Hw). split_and!; [| done..].
  by apply insert_subseteq_r.
Qed.

Lemma extends_insert_float σ0 σ l ys :
  float_lists σ0 !! l = None → extends σ0 σ →
  extends σ0 (set_float_lists (insert l ys) σ).
Proof.
  intros Hl (Hi & Hf & Hw). split_and!; [done | | done].
  by apply insert_subseteq_r.
Qed.

Lemma extends_fresh_int σ0 σ l :
  extends σ0 σ → int_lists σ !! l = None → int_lists σ0 !! l = None.
Proof.
  intros (Hi & _) Hl. destruct (int_lists σ0 !! l) as [xs|] eqn:Hl0; [| done].
  eapply lookup_weaken in Hl0; [| done]. congruence.
Qed.

Lemma extends_fresh_float σ0 σ l :
  extends σ0 σ → float_lists σ !! l = None → float_lists σ0 !! l = None.
Proof.
  intros (_ & Hf & _) Hl.
  destruct (float_lists σ0 !! l) as [ys|] eqn:Hl0; [| done].
  eapply lookup_weaken in Hl0; [| done]. congruence.
Qed.

Lemma sma_finish_wp llast lres σ0 last rs res σ :
  float_lists σ0 !! llast = None → float_lists σ0 !! lres = None →
  llast ≠ lres → extends σ0 σ →
  float_lists σ !! llast = Some last → float_lists σ !! lres = Some res →
  wp (n ← len_floats llast;
      match float_truediv rs (float_of_nat n) with
      | Some avg => append_float lres avg ;; mret rs
      | None => raise ZeroDivisionError
      end) σ
    (λ rs' σ', ∃ avg,
       float_truediv rs (float_of_nat (length last)) = Some avg ∧ rs' = rs ∧
       extends σ0 σ' ∧
       float_lists σ' !! llast = Some last ∧
       float_lists σ' !! lres = Some (res ++ [avg]))
    (λ e σ', e = ZeroDivisionError ∧
       float_truediv rs (float_of_nat (length last)) = None ∧ extends σ0 σ').
Proof.
  intros Hl0 Hr0 Hne Hext Hl Hr.
  apply wp_bind. eapply wp_len_floats; [done |].
  destruct (float_truediv rs (float_of_nat (length last))) as [avg|].
  - apply wp_bind. eapply wp_append_float; [done |]. apply wp_ret.
    exists avg. split_and!; [done | done | | |].
    + by apply extends_insert_float.
    + simpl. by rewrite lookup_insert_ne.
    + simpl. by rewrite lookup_insert_eq.
  - by apply wp_raise.
Qed.

Lemma sma_body_wp period llast lres σ0 last rs res y σ :
  float_lists σ0 !! llast = None → float_lists σ0 !! lres = None →
  llast ≠ lres → extends σ0 σ →
  float_lists σ !! llast = Some last → float_lists σ !! lres = Some res →
  wp (sma_body period llast lres rs y) σ
    (λ rs' σ', ∃ last' res',
       sma_step period (last, rs, res) y = Some (last', rs', res') ∧
       extends σ0 σ' ∧
       float_lists σ' !! llast = Some last' ∧
       float_lists σ' !! lres = Some res')
    (λ e σ', e = ZeroDivisionError ∧
       sma_step period (last, rs, res) y = None ∧ extends σ0 σ').
Proof.
  intros Hl0 Hr0 Hne Hext Hl Hr. unfold sma_body, sma_step.
  apply wp_bind. eapply wp_append_float; [done |].
  apply wp_bind. eapply wp_len_floats; [apply lookup_insert_eq |].
  destruct (last ++ [y]) as [|poped_y rest] eqn:Happ.
  { by destruct last. }
  apply wp_bind. case_bool_decide.
  - apply wp_bind. eapply wp_pop0_float; [apply lookup_insert_eq |].
    apply wp_ret.
    eapply wp_mono.
    + eapply (sma_finish_wp llast lres σ0 rest); [done.. | | |].
      * apply extends_insert_float; [done |]. by apply extends_insert_float.
      * apply lookup_insert_eq.
      * simpl. by rewrite !lookup_insert_ne.
    + intros rs' σ' (avg & -> & -> & ? & ? & ?). eauto 10.
    + intros e σ' (-> & -> & ?). done.
  - apply wp_ret.
    eapply wp_mono.
    + eapply (sma_finish_wp llast lres σ0 (poped_y :: rest)); [done.. | | |].
      * by apply extends_insert_float.
      * apply lookup_insert_eq.
      * simpl. by rewrite !lookup_insert_ne.
    + intros rs' σ' (avg & -> & -> & ? & ? & ?). eauto 10.
    + intros e σ' (-> & -> & ?). done.
Qed.

Lemma sma_loop_wp period llast lres σ0 ys :
  float_lists σ0 !! llast = None → float_lists σ0 !! lres = None →
  llast ≠ lres →
  ∀ last rs res σ,
  extends σ0 σ →
  float_lists σ !! llast = Some last → float_lists σ !! lres = Some res →
  wp (for_in ys rs (sma_body period llast lres)) σ
    (λ rs' σ', ∃ last' res',
       sma_loop period (last, rs, res) ys = Some (last', rs', res') ∧
       extends σ0 σ' ∧
       float_lists σ' !! llast = Some last' ∧
       float_lists σ' !! lres = Some res')
    (λ e σ', e = ZeroDivisionError ∧
       sma_loop period (last, rs, res) ys = None ∧ extends σ0 σ').
Proof.
  intros Hl0 Hr0 Hne. induction ys as [|y ys IH]; intros last rs res σ Hext Hl Hr.
  - apply wp_ret. eauto 10.
  - cbn [for_in sma_loop]. apply wp_bind.
    eapply wp_mono; [by eapply sma_body_wp | |].
    + intros rs' σ' (last' & res' & -> & ? & ? & ?). by apply IH.
    + intros e σ' (-> & -> & ?). done.
Qed.

Lemma calc_sma_wp self lx ly ys σ :
  float_lists σ !! ly = Some ys →
  wp (_calc_sma self lx ly) σ
    (λ r σ', ∃ out,
       sma_model (averages_period self) ys = Some out ∧
       r.1 = lx ∧ extends σ σ' ∧ float_lists σ' !! r.2 = Some out)
    (λ e σ', e = ZeroDivisionError ∧
       sma_model (averages_period self) ys = None ∧ extends σ σ').
Proof.
  intros Hy. unfold _calc_sma, sma_model.
  apply wp_bind, wp_new_int_list. intros lrx Hlrx.
  apply wp_bind, wp_new_float_list. intros lres Hlres.
  apply wp_bind, wp_new_float_list. intros llast Hllast.
  simpl in Hlres, Hllast.
  assert (llast ≠ lres) as Hne.
  { intros ->. by rewrite lookup_insert_eq in Hllast. }
  rewrite lookup_insert_ne in Hllast by done.
  apply wp_bind. eapply wp_read_floats.
  { simpl. rewrite !lookup_insert_ne; [done | congruence..]. }
  apply wp_bind.
  eapply wp_mono.
  - eapply (sma_loop_wp _ llast lres σ); [done.. | | |].
    + apply extends_insert_float; [done |]. apply extends_insert_float; [done |].
      by apply extends_insert_int.
    + apply lookup_insert_eq.
    + simpl. rewrite lookup_insert_ne by done. apply lookup_insert_eq.
  - intros rs' σ' (last' & res' & -> & ? & ? & ?). apply wp_ret. eauto 10.
  - intros e σ' (-> & -> & ?). done.
Qed.

Lemma calc_sma_returns self lx ly ys σ out :
  float_lists σ !! ly = Some ys →
  sma_model (averages_period self) ys = Some out →
  ∃ lr σ',
    run (_calc_sma self lx ly) σ = Return (lx, lr) σ' ∧
    float_lists σ' !! lr = Some out.
Proof.
  intros Hy Hmodel.
  pose proof (wp_run _ _ _ _ (calc_sma_wp self lx ly ys σ Hy)) as Hwp.
  destruct (run _ σ) as [[rx lr] σ'|e σ'].
  - destruct Hwp as (out' & Hm & Hrx & _ & Hlr). simpl in Hrx, Hlr.
    subst rx. exists lr, σ'. split; [done |]. congruence.
  - destruct Hwp as (_ & Hnone & _). congruence.
Qed.

(** ** The smoother computes trailing means *)

Lemma sum_Qc_app l1 l2 : sum_Qc (l1 ++ l2) = (sum_Qc l1 + sum_Qc l2)%Qc.
Proof.
  induction l1 as [|q l1 IH]; simpl.
  - by rewrite Qcplus_0_l.
  - rewrite IH. ring.
Qed.

Lemma Qc_of_nat_nonzero n : (0 < n)%nat → Qc_of_nat n ≠ 0%Qc.
Proof.
  intros Hn Heq. unfold Qc_of_nat in Heq.
  apply Q2Qc_eq_iff in Heq. unfold Qeq in Heq. simpl in Heq. lia.
Qed.

Lemma last_n_length {A} k (l : list A) :
  length (last_n k l) = Nat.min k (length l).
Proof. unfold last_n. rewrite length_drop. lia. Qed.

Lemma last_n_snoc {A} k (l : list A) x :
  (0 < k)%nat →
  last_n k (l ++ [x]) =
    if bool_decide (k < S (length (last_n k l)))%nat
    then drop 1 (last_n k l ++ [x])
    else last_n k l ++ [x].
Proof.
  intros Hk. rewrite last_n_length. unfold last_n.
  rewrite length_app. simpl. case_bool_decide.
  - rewrite drop_app_le by lia.
    rewrite (drop_app_le (drop _ l) [x] 1) by (rewrite length_drop; lia).
    rewrite drop_drop. f_equal. f_equal. lia.
  - replace (length l + 1 - k)%nat with 0%nat by lia.
    replace (length l - k)%nat with 0%nat by lia. done.
Qed.

Lemma round64_0 : round64 0%Qc = Fin 0%Qc.
Proof. reflexivity. Qed.

Lemma Qc_of_nat_nonneg n : (0 ≤ Qc_of_nat n)%Qc.
Proof.
  change 0%Qc with (Q2Qc (inject_Z 0)). unfold Qc_of_nat, Qcle. simpl.
  rewrite !Qred_correct. unfold Qle. simpl. lia.
Qed.

Lemma Qc_of_nat_le n m : (n ≤ m)%nat → (Qc_of_nat n ≤ Qc_of_nat m)%Qc.
Proof.
  intros Hnm. unfold Qc_of_nat, Qcle. simpl.
  rewrite !Qred_correct. unfold Qle. simpl. lia.
Qed.

Lemma float_of_nat_nonneg n : float_le (Fin 0%Qc) (float_of_nat n).
Proof.
  unfold float_of_nat. rewrite <- round64_0.
  apply round64_mono, Qc_of_nat_nonneg.
Qed.

Lemma float_of_nat_mono n m :
  (n ≤ m)%nat → float_le (float_of_nat n) (float_of_nat m).
Proof. intros Hnm. by apply round64_mono, Qc_of_nat_le. Qed.

(** The float of a length that is not zero is not zero. *)
Lemma float_of_nat_pos n :
  (0 < n)%nat →
  float_of_nat n = Inf false ∨
  ∃ d, float_of_nat n = Fin d ∧ (0 < d)%Qc.
Proof.
  intros Hn. pose proof (float_of_nat_mono 1 n ltac:(lia)) as Hle.
  assert (float_le (Fin (Q2Qc 1)) (float_of_nat 1)) as Hone
    by (vm_compute; discriminate).
  pose proof (float_le_trans _ _ _ Hone Hle) as Hpos.
  destruct (float_of_nat n) as [|[]|d]; simpl in Hpos; try done; [by left |].
  right. exists d. split; [done |].
  eapply Qclt_le_trans; [| exact Hpos]. done.
Qed.

Lemma float_add_NaN a b : a = NaN ∨ b = NaN → float_add a b = NaN.
Proof. intros [-> | ->]; [done |]. by destruct a. Qed.

Lemma float_truediv_nat a n :
  (0 < n)%nat →
  ∃ avg, float_truediv a (float_of_nat n) = Some avg ∧ (a = NaN → avg = NaN).
Proof.
  intros Hn. unfold float_truediv.
  destruct (float_of_nat_pos n Hn) as [-> | (d & -> & Hd)].
  - eexists. split; [done |]. by intros ->.
  - rewrite bool_decide_eq_false_2.
    + eexists. split; [done |]. by intros ->.
    + intros ->. by apply Qclt_not_eq in Hd.
Qed.

Lemma sma_step_total period last rs res y :
  0 < period →
  ∃ last' rs' avg,
    sma_step period (last, rs, res) y = Some (last', rs', res ++ [avg]) ∧
    (rs = NaN ∨ y = NaN → rs' = NaN ∧ avg = NaN).
Proof.
  intros Hperiod. unfold sma_step.
  pose proof (length_app last [y]) as Hlen.
  destruct (last ++ [y]) as [|poped_y rest] eqn:Happ; [by destruct last |].
  case_bool_decide as Hpop.
  - destruct (float_truediv_nat (float_sub (float_add rs y) poped_y)
                (length rest)) as (avg & -> & Havg).
    { simpl in Hpop. lia. }
    eexists _, _, _. split; [done |]. intros Hnan.
    assert (float_sub (float_add rs y) poped_y = NaN) as HNaN.
    { unfold float_sub. by rewrite (float_add_NaN rs y Hnan). }
    split; [done | by apply Havg].
  - destruct (float_truediv_nat (float_add rs y) (length (poped_y :: rest)))
      as (avg & -> & Havg).
    { simpl. lia. }
    eexists _, _, _. split; [done |]. intros Hnan.
    pose proof (float_add_NaN rs y Hnan) as HNaN.
    split; [done | by apply Havg].
Qed.

Lemma sma_loop_total period ys :
  0 < period →
  ∀ last rs res,
  ∃ last' rs' out,
    sma_loop period (last, rs, res) ys = Some (last', rs', res ++ out) ∧
    length out = length ys ∧
    (rs = NaN → ∀ j, (j < length ys)%nat → out !! j = Some NaN) ∧
    (∀ i, ys !! i = Some NaN →
       ∀ j, (i ≤ j < length ys)%nat → out !! j = Some NaN).
Proof.
  intros Hperiod. induction ys as [|y ys IH]; intros last rs res.
  - exists last, rs, []. rewrite app_nil_r.
    split_and!; [done | done | |]; simpl; intros; lia.
  - destruct (sma_step_total period last rs res y Hperiod)
      as (last1 & rs1 & avg & Hstep & Hnan).
    destruct (IH last1 rs1 (res ++ [avg]))
      as (last' & rs' & out & Hloop & Hlen & Hpoison & Hfrom).
    exists last', rs', (avg :: out). cbn [sma_loop]. rewrite Hstep, Hloop.
    rewrite <- (assoc_L (++)). split_and!; [done | simpl; lia | |].
    + intros -> [|j] Hj; simpl in *.
      * f_equal. by apply Hnan; left.
      * apply Hpoison; [by apply Hnan; left | lia].
    + intros [|i] Hi [|j] Hj; simpl in *; try lia.
      * injection Hi as ->. f_equal. by apply Hnan; right.
      * injection Hi as ->. apply Hpoison; [by apply Hnan; right | lia].
      * apply (Hfrom i); [done | lia].
Qed.

Lemma sma_model_total period ys :
  0 < period →
  ∃ out,
    sma_model period ys = Some out ∧ length out = length ys ∧
    (∀ i, ys !! i = Some NaN →
       ∀ j, (i ≤ j < length ys)%nat → out !! j = Some NaN).
Proof.
  intros Hperiod. unfold sma_model.
  destruct (sma_loop_total period ys Hperiod [] (Fin 0%Qc) [])
    as (last' & rs' & out & -> & Hlen & _ & Hfrom).
  eauto.
Qed.

Lemma last_n_succ_snoc {A} k (l : list A) x :
  last_n (S k) (l ++ [x]) = last_n k l ++ [x].
Proof.
  unfold last_n. rewrite length_app. simpl.
  rewrite drop_app_le by lia. do 2 f_equal. lia.
Qed.

Lemma float_mean_fmap (l : list Qc) :
  float_truediv (Fin (sum_Qc l)) (float_of_nat (length (Fin <$> l))) =
    float_mean l.
Proof. unfold float_mean. by rewrite length_fmap. Qed.

Lemma float_mean_is_Some (l : list Qc) : l ≠ [] → is_Some (float_mean l).
Proof.
  intros Hl. unfold float_mean.
  destruct (float_truediv_nat (Fin (sum_Qc l)) (length l)) as (avg & -> & _).
  - destruct l; [done | simpl; lia].
  - by eexists.
Qed.

(** One iteration on exact sums. *)
Lemma sma_step_exact period p q R :
  0 < period →
  representable (sum_Qc (last_n (S (Z.to_nat period)) (p ++ [q]))) →
  representable (sum_Qc (last_n (Z.to_nat period) (p ++ [q]))) →
  ∃ avg,
    float_mean (last_n (Z.to_nat period) (p ++ [q])) = Some avg ∧
    sma_step period
      (Fin <$> last_n (Z.to_nat period) p,
       Fin (sum_Qc (last_n (Z.to_nat period) p)), R) (Fin q) =
    Some (Fin <$> last_n (Z.to_nat period) (p ++ [q]),
          Fin (sum_Qc (last_n (Z.to_nat period) (p ++ [q]))),
          R ++ [avg]).
Proof.
  intros Hperiod Hadd Hpop.
  rewrite last_n_succ_snoc in Hadd. revert Hpop.
  rewrite last_n_snoc by lia. unfold sma_step.
  set (L := last_n (Z.to_nat period) p) in *.
  change [Fin q] with (Fin <$> [q]). rewrite <- fmap_app.
  pose proof (length_app L [q]) as Hlen.
  unfold representable in Hadd. rewrite sum_Qc_app in Hadd.
  cbn [sum_Qc foldr] in Hadd. rewrite Qcplus_0_r in Hadd.
  pose proof (sum_Qc_app L [q]) as Hsum.
  cbn [sum_Qc foldr] in Hsum. rewrite Qcplus_0_r in Hsum.
  cbn [float_add]. rewrite Hadd.
  destruct (L ++ [q]) as [|y0 rest] eqn:Happ; [by destruct L |].
  cbn [fmap list_fmap length] in *. rewrite length_fmap.
  destruct (bool_decide (Z.to_nat period < S (length L))%nat) eqn:Hcase.
  - apply bool_decide_eq_true_1 in Hcase.
    rewrite bool_decide_eq_true_2 by lia.
    intros Hrest'.
    assert (round64 (sum_Qc rest) = Fin (sum_Qc rest)) as Hrest
      by exact Hrest'.
    cbn [drop float_sub float_neg float_add].
    assert (sum_Qc L + q + - y0 = sum_Qc rest)%Qc as ->.
    { rewrite <- Hsum. unfold sum_Qc. simpl. ring. }
    rewrite Hrest, float_mean_fmap, !drop_0.
    destruct (float_mean_is_Some rest) as [avg Havg].
    { destruct rest; [simpl in Hlen; lia | done]. }
    exists avg. by rewrite Havg.
  - apply bool_decide_eq_false_1 in Hcase.
    rewrite bool_decide_eq_false_2 by lia. intros _.
    rewrite <- Hsum.
    change (Fin y0 :: (Fin <$> rest)) with (Fin <$> y0 :: rest).
    rewrite float_mean_fmap.
    destruct (float_mean_is_Some (y0 :: rest)) as [avg Havg]; [done |].
    exists avg. by rewrite Havg.
Qed.

Lemma sma_loop_exact period rest :
  0 < period →
  ∀ p R,
  (∀ j, (j < length rest)%nat →
     representable
       (sum_Qc (last_n (S (Z.to_nat period)) (p ++ take (S j) rest))) ∧
     representable
       (sum_Qc (last_n (Z.to_nat period) (p ++ take (S j) rest)))) →
  ∃ out,
    sma_loop period
      (Fin <$> last_n (Z.to_nat period) p,
       Fin (sum_Qc (last_n (Z.to_nat period) p)), R) (Fin <$> rest) =
    Some (Fin <$> last_n (Z.to_nat period) (p ++ rest),
          Fin (sum_Qc (last_n (Z.to_nat period) (p ++ rest))),
          R ++ out) ∧
    length out = length rest ∧
    ∀ j, (j < length rest)%nat →
      out !! j = float_mean (last_n (Z.to_nat period) (p ++ take (S j) rest)).
Proof.
  intros Hperiod. induction rest as [|q rest IH]; intros p R Hexact.
  - exists []. rewrite !app_nil_r. split_and!; [done | done |].
    simpl. intros; lia.
  - destruct (Hexact 0%nat ltac:(simpl; lia)) as [Hadd Hpop].
    cbn [take] in Hadd, Hpop. rewrite take_0 in Hadd, Hpop.
    destruct (sma_step_exact period p q R Hperiod Hadd Hpop)
      as (avg & Havg & Hstep).
    destruct (IH (p ++ [q]) (R ++ [avg])) as (out & Hloop & Hlen & Hout).
    { intros j Hj. specialize (Hexact (S j) ltac:(simpl; lia)).
      cbn [take] in Hexact. rewrite <- !app_assoc. exact Hexact. }
    exists (avg :: out). cbn [fmap list_fmap sma_loop].
    rewrite Hstep, Hloop, <- !(assoc_L (++)). split_and!; [done | simpl; lia |].
    intros [|j] Hj.
    + cbn [take]. by rewrite take_0.
    + cbn [take lookup]. rewrite cons_middle, app_assoc. apply Hout.
      simpl in Hj. lia.
Qed.

Lemma trailing_last_n window i qs :
  (i < length qs)%nat →
  trailing window i qs = last_n (Z.to_nat window) (take (S i) qs).
Proof.
  intros Hi. unfold trailing, last_n. rewrite length_take.
  f_equal. lia.
Qed.

Lemma sma_model_exact period qs :
  0 < period → sums_exact period qs →
  ∃ out,
    sma_model period (Fin <$> qs) = Some out ∧
    ∀ i, (i < length qs)%nat →
      out !! i = float_mean (trailing period i qs).
Proof.
  intros Hperiod Hexact. unfold sma_model.
  destruct (sma_loop_exact period qs Hperiod [] []) as (out & Hloop & _ & Hout).
  { intros j Hj. destruct (Hexact j Hj) as [Hwin Hadd].
    rewrite !trailing_last_n in * by done.
    replace (Z.to_nat (period + 1)) with (S (Z.to_nat period)) in Hadd by lia.
    done. }
  change ([], Fin 0%Qc, [])
    with (Fin <$> last_n (Z.to_nat period) [],
          Fin (sum_Qc (last_n (Z.to_nat period) [])), @nil pyfloat).
  rewrite Hloop. exists out. split; [done |].
  intros i Hi. rewrite (Hout i Hi). by rewrite trailing_last_n.
Qed.

(** The smoother against the running sum. *)
Lemma running_sum_unfold window ys i :
  running_sum window ys i =
    let entered :=
      float_add (sum_before window ys i) (default NaN (ys !! i)) in
    if bool_decide (window < Z.of_nat (S i))
    then float_sub entered (default NaN (ys !! (i - Z.to_nat window)%nat))
    else entered.
Proof. by destruct i. Qed.

Lemma last_n_head {A} k (p : list A) x :
  (0 < k)%nat → (k ≤ length p)%nat →
  head (last_n k p ++ [x]) = p !! (length p - k)%nat.
Proof.
  intros Hk Hp. unfold last_n.
  destruct (drop (length p - k) p) as [|a l] eqn:Hdrop.
  - apply (f_equal length) in Hdrop. rewrite length_drop in Hdrop.
    simpl in Hdrop. lia.
  - simpl. rewrite <- (Nat.add_0_r (length p - k)), <- lookup_drop, Hdrop.
    done.
Qed.

Lemma sma_step_running period p y rest R :
  0 < period →
  sma_step period
    (last_n (Z.to_nat period) p,
     sum_before period (p ++ y :: rest) (length p), R) y =
  avg ← float_truediv (running_sum period (p ++ y :: rest) (length p))
          (float_of_nat (occupancy period (length p)));
  Some (last_n (Z.to_nat period) (p ++ [y]),
        running_sum period (p ++ y :: rest) (length p), R ++ [avg]).
Proof.
  intros Hperiod. unfold sma_step, occupancy.
  rewrite running_sum_unfold. cbv zeta.
  rewrite list_lookup_middle by done. cbn [default].
  rewrite (last_n_snoc (Z.to_nat period) p y) by lia.
  pose proof (last_n_length (Z.to_nat period) p) as Hlen.
  pose proof (last_n_head (Z.to_nat period) p y) as Hhead.
  destruct (last_n (Z.to_nat period) p ++ [y]) as [|poped_y kept] eqn:Happ.
  { by destruct (last_n (Z.to_nat period) p). }
  apply (f_equal length) in Happ as Hlen'. rewrite length_app in Hlen'.
  simpl in Hlen'.
  destruct (decide (Z.to_nat period ≤ length p)%nat) as [Hfull | Hroom].
  - rewrite bool_decide_eq_true_2 by (simpl; lia).
    rewrite bool_decide_eq_true_2 by lia.
    rewrite bool_decide_eq_true_2 by lia.
    specialize (Hhead ltac:(lia) Hfull). simpl in Hhead.
    rewrite lookup_app_l by lia. rewrite <- Hhead. cbn [default drop].
    rewrite drop_0.
    replace (length kept) with (Z.to_nat period `min` S (length p))%nat
      by lia.
    by destruct (float_truediv _ _).
  - rewrite bool_decide_eq_false_2 by (simpl; lia).
    rewrite bool_decide_eq_false_2 by lia.
    rewrite bool_decide_eq_false_2 by lia.
    replace (length (poped_y :: kept))
      with (Z.to_nat period `min` S (length p))%nat by (simpl; lia).
    by destruct (float_truediv _ _).
Qed.

Lemma sma_loop_running period rest :
  0 < period →
  ∀ p R out,
    sma_loop period
      (last_n (Z.to_nat period) p,
       sum_before period (p ++ rest) (length p), R) rest =
      Some out →
    ∃ tail,
      out.2 = R ++ tail ∧ length tail = length rest ∧
      ∀ j, (j < length rest)%nat →
        tail !! j =
          float_truediv (running_sum period (p ++ rest) (length p + j))
            (float_of_nat (occupancy period (length p + j))).
Proof.
  intros Hperiod. induction rest as [|y rest IH]; intros p R out Hloop.
  - injection Hloop as <-. exists []. simpl. rewrite app_nil_r.
    split_and!; [done | done |]. intros; lia.
  - cbn [sma_loop] in Hloop. rewrite sma_step_running in Hloop by done.
    destruct (float_truediv _ _) as [avg|] eqn:Havg; [| done].
    cbn [mbind option_bind] in Hloop.
    specialize (IH (p ++ [y]) (R ++ [avg]) out).
    rewrite <- (assoc_L (++)), length_app, Nat.add_1_r in IH.
    cbn [app sum_before] in IH.
    destruct (IH Hloop) as (tail & Hout & Hlen & Htail).
    exists (avg :: tail). rewrite Hout, <- (assoc_L (++)).
    split_and!; [done | simpl; lia |].
    intros [|j] Hj.
    + rewrite Nat.add_0_r, Havg. done.
    + change ((avg :: tail) !! S j) with (tail !! j).
      rewrite (Htail j) by (simpl in Hj; lia).
      replace (S (length p) + j)%nat with (length p + S j)%nat by lia.
      done.
Qed.

Lemma sma_model_running period ys out :
  0 < period → sma_model period ys = Some out →
  ∀ i, (i < length ys)%nat →
    out !! i =
      float_truediv (running_sum period ys i)
        (float_of_nat (occupancy period i)).
Proof.
  intros Hperiod Hmodel i Hi. unfold sma_model in Hmodel.
  destruct (sma_loop period ([], Fin 0%Qc, []) ys) as [[[last rs] res]|] eqn:Hloop;
    [| done].
  injection Hmodel as ->.
  destruct (sma_loop_running period ys Hperiod [] [] _ Hloop)
    as (tail & Hout & _ & Htail).
  simpl in Hout. subst out. by rewrite (Htail i Hi).
Qed.

(** ** The extrapolator against its model *)

Lemma empty_pair_wp σ0 σ (E : exn → store → Prop) :
  extends σ0 σ →
  wp empty_pair σ
    (λ r σ', extends σ0 σ' ∧ contents σ' r = (Some [], Some [])) E.
Proof.
  intros Hext. unfold empty_pair.
  apply wp_bind, wp_new_int_list. intros ex Hex.
  apply wp_bind, wp_new_float_list. intros ey Hey.
  apply wp_ret. split.
  - apply extends_insert_float; [by eapply extends_fresh_float |].
    apply extends_insert_int; [by eapply extends_fresh_int | done].
  - unfold contents. simpl. by rewrite !lookup_insert_eq.
Qed.

Lemma py_range_add (start len : Z) :
  py_range start (start + len) = seqZ start len.
Proof. unfold py_range. f_equal. lia. Qed.

Lemma last_is_Some {A} (l : list A) : (0 < length l)%nat → is_Some (list.last l).
Proof.
  intros Hl. destruct l as [|x l] using rev_ind; [simpl in Hl; lia |].
  rewrite last_snoc. eauto.
Qed.

Section NumpyProofs.

Context {poly : Type}.
Variable lstsq : list Z → list pyfloat → Z → poly.
Variable poly_call : poly → Z → pyfloat.

Lemma np_polyfit_wp x y deg σ (Q : poly → store → Prop) E :
  (if bool_decide (deg < 0) then E ValueError σ
   else if bool_decide (length x = 0%nat) then E TypeError σ
   else if bool_decide (length x ≠ length y) then E TypeError σ
   else Q (lstsq x y deg) σ) →
  wp (np_polyfit lstsq x y deg) σ Q E.
Proof.
  unfold np_polyfit. by repeat case_bool_decide.
Qed.

Lemma calc_regression_short_wp self lx ly xs σ :
  int_lists σ !! lx = Some xs → (length xs < 2)%nat →
  wp (_calc_regression lstsq poly_call self lx ly) σ
    (λ r σ', extends σ σ' ∧ contents σ' r = (Some [], Some []))
    (λ _ _, False).
Proof.
  intros Hx Hlen. unfold _calc_regression, is_empty_ints.
  apply wp_bind, wp_bind. eapply wp_read_ints; [done |]. apply wp_ret.
  apply wp_bind. case_bool_decide.
  - apply wp_ret. by apply empty_pair_wp.
  - apply wp_bind. eapply wp_len_ints; [done |]. apply wp_ret.
    rewrite bool_decide_eq_true_2 by done. by apply empty_pair_wp.
Qed.

Lemma calc_regression_wp self lx ly xs ys σ :
  int_lists σ !! lx = Some xs → float_lists σ !! ly = Some ys →
  wp (_calc_regression lstsq poly_call self lx ly) σ
    (λ r σ', ∃ fx fy,
       regression_model lstsq poly_call self xs ys = inr (fx, fy) ∧
       extends σ σ' ∧ contents σ' r = (Some fx, Some fy))
    (λ e σ',
       regression_model lstsq poly_call self xs ys = inl e ∧ extends σ σ').
Proof.
  intros Hx Hy. unfold regression_model.
  case_bool_decide as Hlen.
  { eapply wp_mono; [by eapply calc_regression_short_wp | | done].
    intros r σ' [??]. eauto. }
  unfold _calc_regression, is_empty_ints, regression_with.
  apply wp_bind, wp_bind. eapply wp_read_ints; [done |]. apply wp_ret.
  rewrite bool_decide_eq_false_2 by (intros ->; simpl in Hlen; lia).
  apply wp_bind, wp_bind. eapply wp_len_ints; [done |]. apply wp_ret.
  rewrite bool_decide_eq_false_2 by done.
  destruct (last_is_Some xs) as [last_x Hlast]; [lia |]. rewrite Hlast.
  apply wp_bind. unfold last_int.
  apply wp_bind. eapply wp_read_ints; [done |]. rewrite Hlast. apply wp_ret.
  apply wp_bind. eapply wp_len_ints; [done |].
  destruct (bool_decide (n_backward self (length xs) ≤ 0) &&
            bool_decide (n_forward self (length xs) ≤ 0)).
  { eapply wp_mono;
      [by eapply (empty_pair_wp _ _ (λ _ _, False)) | | done].
    intros r σ' [??]. eauto. }
  apply wp_bind. unfold slice_ints.
  apply wp_bind. eapply wp_read_ints; [done |]. apply wp_ret.
  apply wp_bind. unfold slice_floats.
  apply wp_bind. eapply wp_read_floats; [done |]. apply wp_ret.
  apply wp_bind, np_polyfit_wp.
  repeat case_bool_decide; try done.
  rewrite py_range_add.
  apply wp_bind, wp_new_int_list. intros fx Hfx.
  apply wp_bind. eapply wp_read_ints; [apply lookup_insert_eq |].
  apply wp_bind, wp_new_float_list. intros fy Hfy.
  apply wp_ret. eexists _, _. split_and!; [done | |].
  - apply extends_insert_float; [done |]. by apply extends_insert_int.
  - unfold contents. simpl. by rewrite !lookup_insert_eq.
Qed.

End NumpyProofs.

(** ** Truncation and rounding *)

Lemma Qc_inject_le (z : Z) (q : Qc) :
  (Q2Qc (inject_Z z) ≤ q)%Qc ↔ z * Zpos (Qden q) ≤ Qnum q.
Proof.
  unfold Qcle. simpl. rewrite Qred_correct. unfold Qle. simpl. lia.
Qed.

Lemma Qc_lt_inject (z : Z) (q : Qc) :
  (q < Q2Qc (inject_Z z))%Qc ↔ Qnum q < z * Zpos (Qden q).
Proof.
  unfold Qclt. simpl. rewrite Qred_correct. unfold Qlt. simpl. lia.
Qed.

Lemma Qc_inject_lt (z : Z) (q : Qc) :
  (Q2Qc (inject_Z z) < q)%Qc ↔ z * Zpos (Qden q) < Qnum q.
Proof.
  unfold Qclt. simpl. rewrite Qred_correct. unfold Qlt. simpl. lia.
Qed.

Lemma Qc_le_inject (z : Z) (q : Qc) :
  (q ≤ Q2Qc (inject_Z z))%Qc ↔ Qnum q ≤ z * Zpos (Qden q).
Proof.
  unfold Qcle. simpl. rewrite Qred_correct. unfold Qle. simpl. lia.
Qed.

Lemma py_int_truncates (q : Qc) : truncates q (py_int q).
Proof.
  unfold truncates, py_int.
  change 0%Qc with (Q2Qc (inject_Z 0)).
  rewrite !Qc_inject_le, !Qc_le_inject, Qc_lt_inject, Qc_inject_lt.
  set (n := Qnum q). set (d := Z.pos (Qden q)).
  assert (0 < d) as Hd by done.
  pose proof (Z.quot_rem' n d) as Hqr.
  split; intros Hsign.
  - pose proof (Z.rem_bound_pos_pos n d Hd) as Hrem. nia.
  - pose proof (Z.rem_bound_pos_neg n d Hd) as Hrem. nia.
Qed.

Lemma rounds_to_bounds (q : Qc) (z : Z) :
  rounds_to q z ↔
  (2 * z - 1) * Zpos (Qden q) ≤ 2 * Qnum q ≤ (2 * z + 1) * Zpos (Qden q).
Proof.
  unfold rounds_to, Qcle, Qcminus, Qcplus, Qcopp. simpl.
  rewrite !Qred_correct. unfold Qle, Qplus, Qopp. simpl. lia.
Qed.

Lemma truncates_unique q t t' : truncates q t → truncates q t' → t = t'.
Proof.
  unfold truncates. change 0%Qc with (Q2Qc (inject_Z 0)).
  rewrite !Qc_inject_le, !Qc_le_inject, !Qc_lt_inject, !Qc_inject_lt.
  set (n := Qnum q). set (d := Z.pos (Qden q)).
  assert (0 < d) as Hd by done.
  intros [Hpos Hneg] [Hpos' Hneg'].
  destruct (decide (0 ≤ n)) as [Hn|Hn].
  - specialize (Hpos ltac:(lia)). specialize (Hpos' ltac:(lia)). nia.
  - specialize (Hneg ltac:(lia)). specialize (Hneg' ltac:(lia)). nia.
Qed.

Lemma py_int_monotone (p q : Qc) :
  (0 ≤ p)%Qc → (p ≤ q)%Qc → py_int p ≤ py_int q.
Proof.
  intros Hp Hpq.
  assert (0 ≤ q)%Qc as Hq by by etrans.
  destruct (py_int_truncates p) as [Htp _].
  destruct (py_int_truncates q) as [Htq _].
  destruct (Htp Hp) as [Hlo _]. destruct (Htq Hq) as [_ Hhi].
  assert (Q2Qc (inject_Z (py_int p)) < Q2Qc (inject_Z (py_int q + 1)))%Qc
    as Hlt.
  { eapply Qcle_lt_trans; [exact Hlo |]. by eapply Qcle_lt_trans. }
  unfold Qclt in Hlt. simpl in Hlt. rewrite !Qred_correct in Hlt.
  unfold Qlt in Hlt. simpl in Hlt. lia.
Qed.

(** ** Window sizes *)

Lemma window_size_bounded (nb_values : nat) (perc : Qc) (n_min n_max : Z) :
  n_min ≤ n_max →
  n_min ≤ window_size nb_values perc n_min n_max ≤ n_max.
Proof.
  intros Hbounds. unfold window_size.
  destruct (window_product nb_values perc) as [|[]|p]; lia.
Qed.

Lemma window_size_le_max (nb_values : nat) (perc : Qc) (n_min n_max : Z) :
  window_size nb_values perc n_min n_max ≤ n_max.
Proof.
  unfold window_size.
  destruct (window_product nb_values perc) as [|[]|p]; lia.
Qed.

Lemma window_size_finite (nb_values : nat) (perc p : Qc) (n_min n_max : Z) :
  window_product nb_values perc = Fin p →
  window_size nb_values perc n_min n_max = clamp (py_int p) n_min n_max.
Proof. intros Hp. unfold window_size. by rewrite Hp. Qed.

(** The product with a percentage that is not negative does not shrink
    when the count grows, unless it stops being a number. *)
Lemma window_product_mono (nb nb' : nat) (perc : Qc) :
  (0 ≤ perc)%Qc → (nb ≤ nb')%nat →
  window_product nb' perc = NaN ∨
  float_le (Fin 0%Qc) (window_product nb perc) ∧
  float_le (window_product nb perc) (window_product nb' perc).
Proof.
  intros Hperc Hnb. unfold window_product.
  pose proof (float_of_nat_nonneg nb) as Hpos.
  pose proof (float_of_nat_mono nb nb' Hnb) as Hle.
  assert (Qc_negative perc = false) as Hsign.
  { unfold Qc_negative. apply bool_decide_eq_false_2.
    by apply Qcle_not_lt. }
  assert (∀ x, (0 ≤ x)%Qc → float_le (Fin 0%Qc) (round64 (x * perc))) as Hnn.
  { intros x Hx. rewrite <- round64_0. apply round64_mono.
    by apply Qcmult_nonneg_nonneg. }
  destruct (float_of_nat nb) as [|[]|x], (float_of_nat nb') as [|[]|x'];
    simpl in Hpos, Hle; try done; cbn [float_mul]; rewrite ?Hsign.
  - case_bool_decide; [by left | by right].
  - case_bool_decide; [by left | right]. split; [by apply Hnn |].
    pose proof (round64_not_NaN (x * perc)).
    cbn [xorb]. by destruct (round64 (x * perc)) as [|[]|].
  - right. split; [by apply Hnn |].
    by apply round64_mono, Qcmult_le_compat_r.
Qed.

Lemma window_size_mono (nb nb' : nat) (perc : Qc) (n_min n_max : Z) :
  (0 ≤ perc)%Qc → (nb ≤ nb')%nat →
  window_size nb perc n_min n_max ≤ window_size nb' perc n_min n_max.
Proof.
  intros Hperc Hnb.
  pose proof (window_size_le_max nb perc n_min n_max) as Hmax.
  destruct (window_product_mono nb nb' perc Hperc Hnb) as [Hnan | [Hpos Hle]].
  { unfold window_size at 2. by rewrite Hnan. }
  revert Hmax. unfold window_size.
  destruct (window_product nb perc) as [|[]|p],
    (window_product nb' perc) as [|[]|p']; simpl in Hpos, Hle; try done;
    try lia.
  pose proof (py_int_monotone p p' Hpos Hle). lia.
Qed.

(** ** The extrapolator *)

(** C8: whatever the number of observations and the percentage, a window
    size computed with bounds [n_min <= n_max] lies between the bounds. *)
Theorem window_size_within_bounds (nb_values : nat) (perc : Qc)
    (n_min n_max : Z) :
  n_min ≤ n_max →
  n_min ≤ window_size nb_values perc n_min n_max ≤ n_max.
Proof. apply window_size_bounded. Qed.

Lemma window_size_within_bounds_witness :
  10 ≤ window_size 58 (float_literal (2 # 10)) 10 100 ≤ 100.
Proof.
  apply (window_size_within_bounds 58 (float_literal (2 # 10)) 10 100). lia.
Defined.

Section Extrapolator.

Context {poly : Type}.
Variable lstsq : list Z → list pyfloat → Z → poly.
Variable poly_call : poly → Z → pyfloat.

Lemma calc_regression_view self lx ly xs ys σ :
  int_lists σ !! lx = Some xs → float_lists σ !! ly = Some ys →
  view (run (_calc_regression lstsq poly_call self lx ly) σ) =
    lift_view (regression_model lstsq poly_call self xs ys).
Proof.
  intros Hx Hy.
  pose proof (wp_run _ _ _ _
    (calc_regression_wp lstsq poly_call self lx ly xs ys σ Hx Hy)) as Hwp.
  destruct (run _ σ) as [r σ'|e σ']; simpl.
  - destruct Hwp as (fx & fy & -> & _ & ->). done.
  - destruct Hwp as [-> _]. done.
Qed.

Lemma calc_regression_returns self lx ly xs ys σ fxs fys :
  int_lists σ !! lx = Some xs → float_lists σ !! ly = Some ys →
  regression_model lstsq poly_call self xs ys = inr (fxs, fys) →
  ∃ fx fy σ',
    run (_calc_regression lstsq poly_call self lx ly) σ = Return (fx, fy) σ' ∧
    int_lists σ' !! fx = Some fxs ∧ float_lists σ' !! fy = Some fys ∧
    extends σ σ'.
Proof.
  intros Hx Hy Hmodel.
  pose proof (wp_run _ _ _ _
    (calc_regression_wp lstsq poly_call self lx ly xs ys σ Hx Hy)) as Hwp.
  destruct (run _ σ) as [[fx fy] σ'|e σ'].
  - destruct Hwp as (fx' & fy' & Hm & Hext & Hc).
    rewrite Hmodel in Hm. injection Hm as <- <-.
    injection Hc as Hfx Hfy. eauto 10.
  - destruct Hwp as [Hm _]. congruence.
Qed.

Lemma slice_from_nonempty {A} (n : Z) (l : list A) :
  0 ≤ n → length (slice_from (- n) l) = 0%nat → length l = 0%nat.
Proof.
  unfold slice_from. rewrite length_drop. case_bool_decide; lia.
Qed.

Lemma slice_from_0 {A} (l : list A) : slice_from (- 0) l = l.
Proof.
  unfold slice_from. rewrite bool_decide_eq_false_2 by done.
  by replace (Z.to_nat _) with 0%nat by lia.
Qed.

Lemma slice_from_length_eq {A B} (s : Z) (l : list A) (k : list B) :
  length l = length k → length (slice_from s l) = length (slice_from s k).
Proof.
  unfold slice_from. rewrite !length_drop. intros ->. done.
Qed.

Lemma regression_model_fits self xs ys last_x :
  length xs = length ys → (2 ≤ length xs)%nat →
  list.last xs = Some last_x →
  0 ≤ n_backward self (length xs) → 1 ≤ n_forward self (length xs) →
  0 ≤ poly_degree self →
  regression_model lstsq poly_call self xs ys =
    let fit := lstsq (slice_from (- n_backward self (length xs)) xs)
                 (slice_from (- n_backward self (length xs)) ys)
                 (poly_degree self) in
    let future_x := seqZ last_x (n_forward self (length xs)) in
    inr (future_x, poly_call fit <$> future_x).
Proof.
  intros Hlen Hcount Hlast Hback Hfwd Hdeg.
  unfold regression_model, regression_with.
  rewrite bool_decide_eq_false_2 by lia. rewrite Hlast.
  rewrite (bool_decide_eq_false_2 (n_forward _ _ ≤ 0)) by lia.
  rewrite andb_false_r.
  rewrite (bool_decide_eq_false_2 (poly_degree self < 0)) by lia.
  rewrite bool_decide_eq_false_2.
  2:{ intros Hz. apply slice_from_nonempty in Hz; lia. }
  rewrite bool_decide_eq_false_2; [done |].
  intros Hne. apply Hne. by apply slice_from_length_eq.
Qed.

(** C3: with fewer than two observations the extrapolator returns a pair
    of empty lists, and does not raise. *)
Theorem calc_regression_too_short self lx ly xs σ :
  int_lists σ !! lx = Some xs → (length xs < 2)%nat →
  ∃ ex ey σ',
    run (_calc_regression lstsq poly_call self lx ly) σ = Return (ex, ey) σ' ∧
    int_lists σ' !! ex = Some [] ∧ float_lists σ' !! ey = Some [] ∧
    extends σ σ'.
Proof.
  intros Hx Hlen.
  destruct (wp_returns _ _ _
    (calc_regression_short_wp lstsq poly_call self lx ly xs σ Hx Hlen))
    as ([ex ey] & σ' & Hrun & Hext & Hc).
  injection Hc as Hex Hey. eauto 10.
Qed.

(** C2: with at least two observations, a forward window of at least one
    point and a configuration in its declared domain, the segment holds
    [n_forward] consecutive indices starting at the last stored index, each
    paired with the value of the fitted polynomial there. *)
Theorem calc_regression_segment self lx ly xs ys σ :
  int_lists σ !! lx = Some xs → float_lists σ !! ly = Some ys →
  length xs = length ys → (2 ≤ length xs)%nat →
  1 ≤ n_forward self (length xs) →
  0 ≤ n_backward self (length xs) →
  0 ≤ poly_degree self →
  let fit := lstsq (slice_from (- n_backward self (length xs)) xs)
               (slice_from (- n_backward self (length xs)) ys)
               (poly_degree self) in
  ∃ last_x fx fy σ' fxs fys,
    list.last xs = Some last_x ∧
    run (_calc_regression lstsq poly_call self lx ly) σ = Return (fx, fy) σ' ∧
    int_lists σ' !! fx = Some fxs ∧ float_lists σ' !! fy = Some fys ∧
    Z.of_nat (length fxs) = n_forward self (length xs) ∧
    length fys = length fxs ∧
    fxs !! 0%nat = Some last_x ∧
    ∀ i, (i < length fxs)%nat →
      fxs !! i = Some (last_x + Z.of_nat i) ∧
      fys !! i = Some (poly_call fit (last_x + Z.of_nat i)).
Proof.
  intros Hx Hy Hlen Hcount Hfwd Hback Hdeg fit.
  destruct (last_is_Some xs) as [last_x Hlast]; [lia |].
  pose proof (regression_model_fits self xs ys last_x
    Hlen Hcount Hlast Hback Hfwd Hdeg) as Hmodel.
  destruct (calc_regression_returns self lx ly xs ys σ _ _ Hx Hy Hmodel)
    as (fx & fy & σ' & Hrun & Hfx & Hfy & _).
  eexists last_x, fx, fy, σ', _, _.
  split_and!; [done.. | | | |].
  - rewrite length_seqZ. lia.
  - by rewrite length_fmap.
  - rewrite lookup_seqZ_lt by lia. f_equal. lia.
  - intros i Hi. rewrite length_seqZ in Hi.
    rewrite list_lookup_fmap, lookup_seqZ_lt by lia. done.
Qed.

(** C10: when the clamped backward window is 0 and the forward window is
    positive, the fit is computed on the whole series, and the projection is
    returned. *)
Theorem calc_regression_zero_backward self lx ly xs ys σ :
  int_lists σ !! lx = Some xs → float_lists σ !! ly = Some ys →
  length xs = length ys → (2 ≤ length xs)%nat →
  n_backward self (length xs) = 0 →
  0 < n_forward self (length xs) →
  0 ≤ poly_degree self →
  ∃ last_x fx fy σ',
    list.last xs = Some last_x ∧
    slice_from (- n_backward self (length xs)) xs = xs ∧
    slice_from (- n_backward self (length xs)) ys = ys ∧
    run (_calc_regression lstsq poly_call self lx ly) σ = Return (fx, fy) σ' ∧
    int_lists σ' !! fx = Some (seqZ last_x (n_forward self (length xs))) ∧
    float_lists σ' !! fy =
      Some (poly_call (lstsq xs ys (poly_degree self))
              <$> seqZ last_x (n_forward self (length xs))) ∧
    seqZ last_x (n_forward self (length xs)) ≠ [].
Proof.
  intros Hx Hy Hlen Hcount Hback Hfwd Hdeg.
  destruct (last_is_Some xs) as [last_x Hlast]; [lia |].
  pose proof (regression_model_fits self xs ys last_x
    Hlen Hcount Hlast ltac:(lia) ltac:(lia) Hdeg) as Hmodel.
  rewrite Hback in Hmodel |- *.
  rewrite !slice_from_0 in Hmodel |- *.
  destruct (calc_regression_returns self lx ly xs ys σ _ _ Hx Hy Hmodel)
    as (fx & fy & σ' & Hrun & Hfx & Hfy & _).
  exists last_x, fx, fy, σ'. split_and!; [done.. |].
  rewrite seqZ_cons by done. done.
Qed.

(** C1, amended: with at least two observations, each window size is the
    float product of the count and the percentage, truncated toward zero,
    then raised to the lower bound and then lowered to the upper bound,
    with the backward and the forward bounds respectively. *)
Theorem window_sizes_truncated self lx ly xs ys σ pb pf :
  int_lists σ !! lx = Some xs → float_lists σ !! ly = Some ys →
  (2 ≤ length xs)%nat →
  window_product (length xs) (poly_backward_perc self) = Fin pb →
  window_product (length xs) (poly_forward_perc self) = Fin pf →
  ∃ tb tf,
    truncates pb tb ∧
    truncates pf tf ∧
    n_backward self (length xs) =
      clamp tb (poly_n_backward_min self) (poly_n_backward_max self) ∧
    n_forward self (length xs) =
      clamp tf (poly_n_forward_min self) (poly_n_forward_max self) ∧
    view (run (_calc_regression lstsq poly_call self lx ly) σ) =
      lift_view
        (regression_with lstsq poly_call (poly_degree self)
           (clamp tb (poly_n_backward_min self) (poly_n_backward_max self))
           (clamp tf (poly_n_forward_min self) (poly_n_forward_max self))
           xs ys).
Proof.
  intros Hx Hy Hcount Hpb Hpf.
  exists (py_int pb), (py_int pf).
  split_and!;
    [apply py_int_truncates | apply py_int_truncates
    | by apply window_size_finite | by apply window_size_finite |].
  rewrite (calc_regression_view self lx ly xs ys) by done.
  unfold regression_model. rewrite bool_decide_eq_false_2 by lia.
  unfold n_backward, n_forward.
  by rewrite (window_size_finite _ _ pb), (window_size_finite _ _ pf).
Qed.

Lemma query_wp self lx ly xs ys σ :
  int_lists σ !! lx = Some xs → float_lists σ !! ly = Some ys →
  wp (query lstsq poly_call self lx ly) σ
    (λ r σ', extends σ σ' ∧
       query_model lstsq poly_call self xs ys =
         inr (contents σ' r.1, contents σ' r.2))
    (λ e σ', extends σ σ' ∧
       query_model lstsq poly_call self xs ys = inl e).
Proof.
  intros Hx Hy. unfold query, query_model. apply wp_bind.
  eapply wp_mono; [by eapply calc_sma_wp | |].
  - intros [sx sy] σ1 (out & -> & Hsx & Hext1 & Hout). simpl in Hsx, Hout.
    subst sx. apply wp_bind.
    eapply wp_mono.
    + eapply (calc_regression_wp _ _ self lx ly xs ys).
      * by eapply extends_lookup_int.
      * by eapply extends_lookup_float.
    + intros r σ2 (fx & fy & -> & Hext2 & Hc). apply wp_ret.
      split; [by etrans |]. simpl. rewrite Hc. unfold contents. simpl.
      rewrite (extends_lookup_int σ σ2 lx xs), 
        (extends_lookup_float σ1 σ2 sy out); try done. by etrans.
    + intros e σ2 [-> Hext2]. split; [by etrans | done].
  - intros e σ1 (-> & -> & Hext1). done.
Qed.

Lemma query_view_model self lx ly xs ys σ :
  int_lists σ !! lx = Some xs → float_lists σ !! ly = Some ys →
  extends σ (final_store (run (query lstsq poly_call self lx ly) σ)) ∧
  query_view (run (query lstsq poly_call self lx ly) σ) =
    query_model lstsq poly_call self xs ys.
Proof.
  intros Hx Hy.
  pose proof (wp_run _ _ _ _ (query_wp self lx ly xs ys σ Hx Hy)) as Hwp.
  destruct (run _ σ) as [[sma regression] σ'|e σ']; simpl.
  - destruct Hwp as [Hext ->]. done.
  - destruct Hwp as [Hext ->]. done.
Qed.

(** C9: computing the derived views of a channel leaves every stored list
    as it was, and a second computation right after the first returns the
    same views. *)
Theorem query_is_pure self lx ly xs ys σ :
  int_lists σ !! lx = Some xs → float_lists σ !! ly = Some ys →
  let first := run (query lstsq poly_call self lx ly) σ in
  let second := run (query lstsq poly_call self lx ly) (final_store first) in
  extends σ (final_store first) ∧
  int_lists (final_store first) !! lx = Some xs ∧
  float_lists (final_store first) !! ly = Some ys ∧
  extends σ (final_store second) ∧
  int_lists (final_store second) !! lx = Some xs ∧
  float_lists (final_store second) !! ly = Some ys ∧
  query_view first = query_model lstsq poly_call self xs ys ∧
  query_view second = query_view first.
Proof.
  intros Hx Hy first second.
  destruct (query_view_model self lx ly xs ys σ Hx Hy) as [Hext1 Hview1].
  fold first in Hext1, Hview1.
  pose proof (extends_lookup_int _ _ _ _ Hext1 Hx) as Hx1.
  pose proof (extends_lookup_float _ _ _ _ Hext1 Hy) as Hy1.
  destruct (query_view_model self lx ly xs ys (final_store first) Hx1 Hy1)
    as [Hext2 Hview2].
  fold second in Hext2, Hview2.
  assert (extends σ (final_store second)) as Hext by by etrans.
  split_and!; [done.. | | | | ].
  - by eapply extends_lookup_int.
  - by eapply extends_lookup_float.
  - done.
  - congruence.
Qed.

End Extrapolator.

Lemma calc_regression_too_short_witness :
  (length [0] < 2)%nat ∧
  ∃ ex ey σ',
    run (_calc_regression count_lstsq count_call new_plotter 1 1)
      (fed_store [float_of_Z 7]) = Return (ex, ey) σ' ∧
    int_lists σ' !! ex = Some [] ∧ float_lists σ' !! ey = Some [] ∧
    extends (fed_store [float_of_Z 7]) σ'.
Proof.
  split; [simpl; lia |].
  apply (calc_regression_too_short count_lstsq count_call new_plotter 1 1 [0]).
  - reflexivity.
  - simpl; lia.
Defined.

Lemma calc_regression_segment_witness :
  ∃ last_x fx fy σ' fxs fys,
    list.last [0; 1; 2] = Some last_x ∧
    run (_calc_regression count_lstsq count_call new_plotter 1 1)
      (fed_store (replicate 3 (float_of_Z 7))) = Return (fx, fy) σ' ∧
    int_lists σ' !! fx = Some fxs ∧ float_lists σ' !! fy = Some fys ∧
    Z.of_nat (length fxs) = n_forward new_plotter (length [0; 1; 2]) ∧
    length fys = length fxs ∧
    fxs !! 0%nat = Some last_x ∧
    ∀ i, (i < length fxs)%nat →
      fxs !! i = Some (last_x + Z.of_nat i) ∧
      fys !! i = Some (count_call 3 (last_x + Z.of_nat i)).
Proof.
  apply (calc_regression_segment count_lstsq count_call new_plotter 1 1
           [0; 1; 2] (replicate 3 (float_of_Z 7))).
  - reflexivity.
  - reflexivity.
  - reflexivity.
  - simpl; lia.
  - evaluate.
  - evaluate.
  - evaluate.
Defined.

Lemma calc_regression_zero_backward_witness :
  poly_n_backward_min (set_poly_n_backward_min 0 new_plotter) = 0 ∧
  py_int (Qc_of_nat 3 * poly_backward_perc new_plotter)%Qc = 0 ∧
  ∃ last_x fx fy σ',
    list.last [0; 1; 2] = Some last_x ∧
    slice_from (- n_backward (set_poly_n_backward_min 0 new_plotter)
                    (length [0; 1; 2])) [0; 1; 2] = [0; 1; 2] ∧
    slice_from (- n_backward (set_poly_n_backward_min 0 new_plotter)
                    (length [0; 1; 2])) (replicate 3 (float_of_Z 7)) =
      replicate 3 (float_of_Z 7) ∧
    run (_calc_regression count_lstsq count_call
           (set_poly_n_backward_min 0 new_plotter) 1 1)
      (fed_store (replicate 3 (float_of_Z 7))) = Return (fx, fy) σ' ∧
    int_lists σ' !! fx = Some (seqZ last_x 5) ∧
    float_lists σ' !! fy = Some (count_call 3 <$> seqZ last_x 5) ∧
    seqZ last_x 5 ≠ [].
Proof.
  split; [reflexivity |]. split; [reflexivity |].
  apply (calc_regression_zero_backward count_lstsq count_call
           (set_poly_n_backward_min 0 new_plotter) 1 1
           [0; 1; 2] (replicate 3 (float_of_Z 7))).
  - reflexivity.
  - reflexivity.
  - reflexivity.
  - simpl; lia.
  - reflexivity.
  - evaluate.
  - evaluate.
Defined.

Lemma window_sizes_truncated_witness :
  ∃ tb tf,
    truncates
      (float_value (window_product 58 (poly_backward_perc new_plotter))) tb ∧
    truncates
      (float_value (window_product 58 (poly_forward_perc new_plotter))) tf ∧
    n_backward new_plotter 58 = clamp tb 10 100 ∧
    n_forward new_plotter 58 = clamp tf 5 100 ∧
    view (run (_calc_regression count_lstsq count_call new_plotter 1 1)
            (fed_store (replicate 58 (float_of_Z 7)))) =
      lift_view
        (regression_with count_lstsq count_call 1
           (clamp tb 10 100) (clamp tf 5 100)
           (seqZ 0 58) (replicate 58 (float_of_Z 7))).
Proof.
  apply (window_sizes_truncated count_lstsq count_call new_plotter 1 1
           (seqZ 0 58) (replicate 58 (float_of_Z 7))).
  - evaluate.
  - evaluate.
  - evaluate.
  - vm_compute. reflexivity.
  - vm_compute. reflexivity.
Defined.

(** C1 as stated fails: with 58 observations and the constructor's
    configuration the products are the floats next to 11.6 and 5.8; the
    extrapolator fits 11 points and projects 5, where rounding gives 12
    and 6. *)
Lemma window_sizes_not_rounded :
  ∃ pb pf,
    window_product 58 (poly_backward_perc new_plotter) = Fin pb ∧
    window_product 58 (poly_forward_perc new_plotter) = Fin pf ∧
    n_backward new_plotter 58 = 11 ∧
    n_forward new_plotter 58 = 5 ∧
    (∀ z, rounds_to pb z → clamp z 10 100 = 12) ∧
    (∀ z, rounds_to pf z → clamp z 5 100 = 6) ∧
    view (run (_calc_regression count_lstsq count_call new_plotter 1 1)
            (fed_store (replicate 58 (float_of_Z 7)))) =
      inr (Some (seqZ 57 5), Some (replicate 5 (float_of_nat 11))) ∧
    ¬ ∃ zb zf,
        rounds_to pb zb ∧
        rounds_to pf zf ∧
        view (run (_calc_regression count_lstsq count_call new_plotter 1 1)
                (fed_store (replicate 58 (float_of_Z 7)))) =
          lift_view
            (regression_with count_lstsq count_call 1
               (clamp zb 10 100) (clamp zf 5 100)
               (seqZ 0 58) (replicate 58 (float_of_Z 7))).
Proof.
  exists (float_value (window_product 58 (poly_backward_perc new_plotter))),
    (float_value (window_product 58 (poly_forward_perc new_plotter))).
  assert (∀ z,
    rounds_to
      (float_value (window_product 58 (poly_backward_perc new_plotter))) z →
    z = 12) as Hback.
  { intros z Hz. apply rounds_to_bounds in Hz.
    set (n := Qnum _) in Hz. set (d := Z.pos (Qden _)) in Hz.
    vm_compute in n, d. subst n d. lia. }
  assert (∀ z,
    rounds_to
      (float_value (window_product 58 (poly_forward_perc new_plotter))) z →
    z = 6) as Hfwd.
  { intros z Hz. apply rounds_to_bounds in Hz.
    set (n := Qnum _) in Hz. set (d := Z.pos (Qden _)) in Hz.
    vm_compute in n, d. subst n d. lia. }
  split_and!;
    [by vm_compute | by vm_compute | by vm_compute | by vm_compute | |
    | by vm_compute |].
  - by intros z ->%Hback.
  - by intros z ->%Hfwd.
  - intros (zb & zf & ->%Hback & ->%Hfwd & Hview).
    vm_compute in Hview. discriminate Hview.
Qed.

Lemma query_is_pure_witness :
  let σ := fed_store (replicate 3 (float_of_Z 7)) in
  let first := run (query count_lstsq count_call new_plotter 1 1) σ in
  let second :=
    run (query count_lstsq count_call new_plotter 1 1) (final_store first) in
  extends σ (final_store first) ∧
  int_lists (final_store first) !! 1%positive = Some [0; 1; 2] ∧
  float_lists (final_store first) !! 1%positive =
    Some (replicate 3 (float_of_Z 7)) ∧
  extends σ (final_store second) ∧
  int_lists (final_store second) !! 1%positive = Some [0; 1; 2] ∧
  float_lists (final_store second) !! 1%positive =
    Some (replicate 3 (float_of_Z 7)) ∧
  query_view first =
    query_model count_lstsq count_call new_plotter
      [0; 1; 2] (replicate 3 (float_of_Z 7)) ∧
  query_view second = query_view first.
Proof.
  apply (query_is_pure count_lstsq count_call new_plotter 1 1
           [0; 1; 2] (replicate 3 (float_of_Z 7))).
  - reflexivity.
  - reflexivity.
Defined.

(** ** The smoother *)

Lemma representable_check (q : Qc) :
  representable_b q = true → representable q.
Proof.
  unfold representable_b, representable.
  destruct (round64 q) as [|[]|r]; try done.
  intros Heq. f_equal. apply Qc_is_canon. by apply Qeq_bool_eq.
Qed.

Lemma float_of_nat_1 : float_of_nat 1 = Fin 1%Qc.
Proof.
  unfold float_of_nat. vm_compute. f_equal. apply Qc_is_canon. reflexivity.
Qed.

Lemma float_mean_singleton (q : Qc) :
  representable (q + 0)%Qc → float_mean [q] = Some (Fin q).
Proof.
  unfold representable, float_mean. cbn [sum_Qc foldr length].
  rewrite float_of_nat_1. intros Hq. unfold float_truediv.
  rewrite bool_decide_eq_false_2 by done. f_equal.
  assert ((q + 0) / 1 = q + 0)%Qc as -> by (field; done).
  rewrite Hq. f_equal. ring.
Qed.

Lemma sma_model_example :
  sma_model 3 (Fin <$> (Q2Qc <$> [1; 2; 3; 4; 5]%Q)) =
    Some (Fin ∘ Q2Qc <$> [1; 3 # 2; 2; 3; 4]%Q).
Proof.
  vm_compute. f_equal.
  repeat (apply (f_equal2 cons);
          [f_equal; apply Qc_is_canon; reflexivity |]).
  reflexivity.
Qed.


(** The running sum is exact on the values 1 to 5 with a window of 3. *)
Lemma sums_exact_example : sums_exact 3 (Q2Qc <$> [1; 2; 3; 4; 5]%Q).
Proof.
  intros i Hi. cbn [fmap list_fmap length] in Hi.
  do 5 (destruct i as [|i];
        [split; apply representable_check; vm_compute; reflexivity |]).
  lia.
Qed.



(** ** The sanitizer *)

(** C5: the sanitizer returns nothing and warns nothing on an absent value;
    returns nothing and emits one warning carrying the label and the index
    on NaN and on either infinity; returns a finite value as it is; and
    never raises. *)
Theorem ignore_nan_and_inf_cases (label : string) (x_index : Z) (σ : store) :
  run (ignore_nan_and_inf None label x_index) σ = Return None σ ∧
  run (ignore_nan_and_inf (Some NaN) label x_index) σ =
    Return None
      (Store (int_lists σ) (float_lists σ)
         (warnings σ ++
            ["Got NaN for value '" +:+ label +:+ "' at x-index "
               +:+ pretty x_index])) ∧
  (∀ negative,
     run (ignore_nan_and_inf (Some (Inf negative)) label x_index) σ =
       Return None
         (Store (int_lists σ) (float_lists σ)
            (warnings σ ++
               ["Got INF for value '" +:+ label +:+ "' at x-index "
                  +:+ pretty x_index]))) ∧
  (∀ q, run (ignore_nan_and_inf (Some (Fin q)) label x_index) σ =
          Return (Some (Fin q)) σ) ∧
  (∀ x_index', nan_message label x_index' = nan_message label x_index →
               x_index' = x_index) ∧
  (∀ x_index', inf_message label x_index' = inf_message label x_index →
               x_index' = x_index) ∧
  (∀ value, ∃ r σ', run (ignore_nan_and_inf value label x_index) σ =
                      Return r σ').
Proof.
  split_and!; try done.
  - intros x' Heq. unfold nan_message in Heq.
    by repeat apply String.app_inj in Heq; apply (inj pretty) in Heq.
  - intros x' Heq. unfold inf_message in Heq.
    by repeat apply String.app_inj in Heq; apply (inj pretty) in Heq.
  - intros [[| |]|]; eauto.
Qed.

(** ** The series store *)

Lemma ignore_nan_and_inf_wp value label x_index σ
    (Q : option pyfloat → store → Prop) E :
  (∀ σ', int_lists σ' = int_lists σ → float_lists σ' = float_lists σ →
         Q (kept value) σ') →
  wp (ignore_nan_and_inf value label x_index) σ Q E.
Proof.
  intros HQ. destruct value as [[| |]|]; by apply HQ.
Qed.

Lemma series_same_lists σ σ' self c :
  int_lists σ' = int_lists σ → float_lists σ' = float_lists σ →
  series σ' self c = series σ self c.
Proof.
  intros Hi Hf. unfold series, contents. by rewrite Hi, Hf.
Qed.

Lemma wf_plotter_same_lists σ σ' self :
  int_lists σ' = int_lists σ → float_lists σ' = float_lists σ →
  wf_plotter self σ → wf_plotter self σ'.
Proof.
  intros Hi Hf (Hx & Hy & Halloc). split_and!; [done.. |].
  intros c. by rewrite Hi, Hf.
Qed.

Lemma wf_channel_x_inj self σ c c' :
  wf_plotter self σ → channel_x self c = channel_x self c' → c = c'.
Proof.
  intros (Hx & _ & _) Heq. simpl in Hx.
  rewrite !list.NoDup_cons in Hx. destruct Hx as (? & ? & ? & _).
  repeat match goal with
         | H : _ ∉ _ :: _ |- _ => apply not_elem_of_cons in H as [? ?]
         end.
  destruct c, c'; simpl in Heq; congruence.
Qed.

Lemma wf_channel_y_inj self σ c c' :
  wf_plotter self σ → channel_y self c = channel_y self c' → c = c'.
Proof.
  intros (_ & Hy & _) Heq. simpl in Hy.
  rewrite !list.NoDup_cons in Hy. destruct Hy as (? & ? & ? & _).
  repeat match goal with
         | H : _ ∉ _ :: _ |- _ => apply not_elem_of_cons in H as [? ?]
         end.
  destruct c, c'; simpl in Heq; congruence.
Qed.

Lemma append_if_present_wp self c' x_index v σ (E : exn → store → Prop) :
  wf_plotter self σ →
  wp (append_if_present (channel_x self c') (channel_y self c') x_index v) σ
    (λ _ σ', wf_plotter self σ' ∧
       ∀ c xs ys, series σ self c = (Some xs, Some ys) →
         series σ' self c =
           if decide (c = c')
           then (Some (xs ++ appended_index x_index v),
                 Some (ys ++ option_list v))
           else (Some xs, Some ys))
    E.
Proof.
  intros Hwf. destruct v as [y|]; simpl.
  - destruct Hwf as (Hx & Hy & Halloc).
    destruct (Halloc c') as [[xs0 Hxs0] [ys0 Hys0]].
    apply wp_bind. eapply wp_append_int; [done |].
    eapply wp_append_float; [done |]. split.
    + split_and!; [done.. |]. intros c. simpl.
      rewrite !lookup_insert_is_Some. destruct (Halloc c).
      split.
      * destruct (decide (channel_x self c' = channel_x self c)); eauto.
      * destruct (decide (channel_y self c' = channel_y self c)); eauto.
    + intros c xs ys [= Hxs Hys]. unfold series, contents. simpl.
      case_decide as Hc.
      * subst c. rewrite !lookup_insert_eq. congruence.
      * rewrite !lookup_insert_ne; [congruence | |].
        -- intros Heq. apply Hc. symmetry.
           by eapply (wf_channel_y_inj self σ).
        -- intros Heq. apply Hc. symmetry.
           by eapply (wf_channel_x_inj self σ).
  - apply wp_ret. split; [done |]. intros c xs ys ->.
    case_decide; simpl; by rewrite ?app_nil_r.
Qed.

Lemma add_values_wp self x_index (sup : channel → option pyfloat) σ :
  wf_plotter self σ →
  wp (add_values self x_index (sup loss_train) (sup loss_val)
        (sup acc_train) (sup acc_val)) σ
    (λ _ σ', wf_plotter self σ' ∧
       ∀ c xs ys, series σ self c = (Some xs, Some ys) →
         series σ' self c =
           (Some (xs ++ appended_index x_index (kept (sup c))),
            Some (ys ++ option_list (kept (sup c)))))
    (λ _ _, False).
Proof.
  intros Hwf. unfold add_values.
  apply wp_bind, ignore_nan_and_inf_wp. intros σ1 Hi1 Hf1.
  apply wp_bind, ignore_nan_and_inf_wp. intros σ2 Hi2 Hf2.
  apply wp_bind, ignore_nan_and_inf_wp. intros σ3 Hi3 Hf3.
  apply wp_bind, ignore_nan_and_inf_wp. intros σ4 Hi4 Hf4.
  assert (int_lists σ4 = int_lists σ) as Hi by congruence.
  assert (float_lists σ4 = float_lists σ) as Hf by congruence.
  pose proof (wf_plotter_same_lists σ σ4 self Hi Hf Hwf) as Hwf4.
  apply wp_bind.
  eapply wp_mono;
    [by apply (append_if_present_wp self loss_train _ _ _ (λ _ _, False)) | | done].
  intros _ σ5 [Hwf5 H5]. apply wp_bind.
  eapply wp_mono;
    [by apply (append_if_present_wp self loss_val _ _ _ (λ _ _, False)) | | done].
  intros _ σ6 [Hwf6 H6]. apply wp_bind.
  eapply wp_mono;
    [by apply (append_if_present_wp self acc_train _ _ _ (λ _ _, False)) | | done].
  intros _ σ7 [Hwf7 H7].
  eapply wp_mono;
    [by apply (append_if_present_wp self acc_val _ _ _ (λ _ _, False)) | | done].
  intros _ σ8 [Hwf8 H8]. split; [done |].
  intros c xs ys Hs.
  rewrite <- (series_same_lists σ σ4 self c Hi Hf) in Hs.
  apply H5 in Hs.
  destruct c; simpl in Hs;
    apply H6 in Hs; simpl in Hs;
    apply H7 in Hs; simpl in Hs;
    apply H8 in Hs; simpl in Hs;
    by rewrite Hs.
Qed.

Lemma NoDup_four {A} (a b c d : A) :
  a ≠ b → a ≠ c → a ≠ d → b ≠ c → b ≠ d → c ≠ d → NoDup [a; b; c; d].
Proof.
  intros. rewrite !list.NoDup_cons, !not_elem_of_cons.
  split_and!; try done; try apply not_elem_of_nil. apply NoDup_nil_2.
Qed.

Lemma init_wp σ :
  wp __init__ σ
    (λ self σ', wf_plotter self σ' ∧
       ∀ c, series σ' self c = (Some [], Some []))
    (λ _ _, False).
Proof.
  unfold __init__.
  apply wp_bind, wp_new_int_list. intros ltx Hltx.
  apply wp_bind, wp_new_int_list. intros lvx Hlvx.
  apply wp_bind, wp_new_int_list. intros atx Hatx.
  apply wp_bind, wp_new_int_list. intros avx Havx.
  apply wp_bind, wp_new_float_list. intros lty Hlty.
  apply wp_bind, wp_new_float_list. intros lvy Hlvy.
  apply wp_bind, wp_new_float_list. intros aty Haty.
  apply wp_bind, wp_new_float_list. intros avy Havy.
  apply wp_ret. simpl in *.
  repeat match goal with
         | H : <[_:=_]> _ !! _ = None |- _ =>
             apply lookup_insert_None in H as [H ?]
         end.
  assert (∀ c, series
    (set_float_lists <[avy:=[]]>
       (set_float_lists <[aty:=[]]>
          (set_float_lists <[lvy:=[]]>
             (set_float_lists <[lty:=[]]>
                (set_int_lists <[avx:=[]]>
                   (set_int_lists <[atx:=[]]>
                      (set_int_lists <[lvx:=[]]>
                         (set_int_lists <[ltx:=[]]> σ))))))))
    {| averages_period := 20;
       poly_forward_perc := float_literal (1 # 10);
       poly_backward_perc := float_literal (2 # 10);
       poly_n_forward_min := 5;
       poly_n_backward_min := 10;
       poly_n_forward_max := 100;
       poly_n_backward_max := 100;
       poly_degree := 1;
       values_loss_train_x := ltx;
       values_loss_val_x := lvx;
       values_acc_train_x := atx;
       values_acc_val_x := avx;
       values_loss_train_y := lty;
       values_loss_val_y := lvy;
       values_acc_train_y := aty;
       values_acc_val_y := avy |} c = (Some [], Some [])) as Hseries.
  { intros c. unfold series, contents.
    destruct c; simpl; by simplify_map_eq. }
  split; [| done]. split_and!.
  - by apply NoDup_four.
  - by apply NoDup_four.
  - intros c. specialize (Hseries c). injection Hseries as Hx Hy.
    split; eexists; [exact Hx | exact Hy].
Qed.

Lemma ingest_returns self i σ :
  wf_plotter self σ →
  ∃ σ', run (ingest self i) σ = Return () σ' ∧
    wf_plotter self σ' ∧
    ∀ c xs ys, series σ self c = (Some xs, Some ys) →
      series σ' self c =
        (Some (xs ++ appended_index (x_index i) (kept (supplied i c))),
         Some (ys ++ option_list (kept (supplied i c)))).
Proof.
  intros Hwf.
  destruct (wp_returns _ _ _
    (add_values_wp self (x_index i) (supplied i) σ Hwf))
    as ([] & σ' & Hrun & Hwf' & Hseries).
  eauto.
Qed.

Lemma observations_snoc c calls i :
  observations c (calls ++ [i]) =
    observations c calls ++
      match kept (supplied i c) with
      | Some v => [(x_index i, v)]
      | None => []
      end.
Proof.
  unfold observations. rewrite omap_app. f_equal. simpl.
  by destruct (kept (supplied i c)).
Qed.

Lemma for_in_app {A S} (l1 l2 : list A) (acc : S) (body : S → A → M S) σ :
  for_in (l1 ++ l2) acc body σ =
    (acc' ← for_in l1 acc body; for_in l2 acc' body) σ.
Proof.
  revert acc σ. induction l1 as [|y l1 IH]; intros acc σ; [done |].
  simpl. unfold mbind, M_bind. destruct (body acc y σ) as [acc' σ'|]; [| done].
  apply IH.
Qed.

Lemma ingest_loop_returns self calls :
  ∀ before σ,
  wf_plotter self σ →
  (∀ c, series σ self c =
          (Some (observations c before).*1, Some (observations c before).*2)) →
  ∃ σ', run (for_in calls () (λ _ i, ingest self i)) σ = Return () σ' ∧
    wf_plotter self σ' ∧
    ∀ c, series σ' self c =
           (Some (observations c (before ++ calls)).*1,
            Some (observations c (before ++ calls)).*2).
Proof.
  induction calls as [|i calls IH]; intros before σ Hwf Hseries.
  - exists σ. by rewrite app_nil_r.
  - destruct (ingest_returns self i σ Hwf) as (σ1 & Hrun1 & Hwf1 & Hstep).
    destruct (IH (before ++ [i]) σ1 Hwf1) as (σ' & Hrun & Hwf' & Hfinal).
    { intros c. rewrite (Hstep c _ _ (Hseries c)), observations_snoc.
      rewrite !fmap_app. by destruct (kept (supplied i c)). }
    exists σ'. split_and!; [| done |].
    + unfold run in *. simpl. unfold mbind, M_bind. by rewrite Hrun1.
    + intros c. by rewrite Hfinal, <- (assoc_L (++)).
Qed.

Lemma session_returns calls σ0 :
  ∃ self σi σ,
    run __init__ σ0 = Return self σi ∧
    run (for_in calls () (λ _ i, ingest self i)) σi = Return () σ ∧
    run (session calls) σ0 = Return self σ ∧
    wf_plotter self σ ∧
    ∀ c, series σ self c =
           (Some (observations c calls).*1, Some (observations c calls).*2).
Proof.
  destruct (wp_returns _ _ _ (init_wp σ0)) as (self & σi & Hinit & Hwf & Hnew).
  destruct (ingest_loop_returns self calls [] σi Hwf Hnew)
    as (σ & Hloop & Hwf' & Hseries).
  exists self, σi, σ. split_and!; [done.. | | done | done].
  unfold run, session, mbind, M_bind in *. by rewrite Hinit, Hloop.
Qed.

(** C7: after the constructor and any sequence of calls, the two lists of a
    channel have the same length and hold, in call order, the observations
    that survived the sanitizer; one more call appends its surviving pair
    at the end and leaves what was stored as it is. *)
Theorem series_append_only (σ0 : store) (calls : list ingestion)
    (i : ingestion) :
  ∃ self σ σ',
    run (session calls) σ0 = Return self σ ∧
    run (ingest self i) σ = Return () σ' ∧
    run (session (calls ++ [i])) σ0 = Return self σ' ∧
    ∀ c, ∃ xs ys,
      series σ self c = (Some xs, Some ys) ∧
      length xs = length ys ∧
      zip xs ys = observations c calls ∧
      series σ' self c =
        match kept (supplied i c) with
        | Some v => (Some (xs ++ [x_index i]), Some (ys ++ [v]))
        | None => (Some xs, Some ys)
        end.
Proof.
  destruct (session_returns calls σ0)
    as (self & σi & σ & Hinit & Hloop & Hsession & Hwf & Hseries).
  destruct (ingest_returns self i σ Hwf) as (σ' & Hingest & _ & Hstep).
  exists self, σ, σ'. split_and!; [done.. | |].
  - unfold run, session, mbind, M_bind in *. rewrite Hinit, for_in_app.
    unfold mbind, M_bind. rewrite Hloop. simpl. unfold mbind, M_bind.
    by rewrite Hingest.
  - intros c. eexists _, _. split_and!; [apply Hseries | | |].
    + by rewrite !length_fmap.
    + apply zip_fst_snd.
    + rewrite (Hstep c _ _ (Hseries c)).
      destruct (kept (supplied i c)); simpl; by rewrite ?app_nil_r.
Qed.

(** C6: on a plotter whose eight lists are distinct stored objects, a call
    of [add_values] returns; each channel supplied with a finite value gets
    the index and the value appended, whatever the other channels were
    given, and a channel given NaN, an infinity or nothing is left as it
    is. *)
Theorem add_values_per_channel self (x : Z) (sup : channel → option pyfloat)
    (σ : store) :
  wf_plotter self σ →
  ∃ σ',
    run (add_values self x (sup loss_train) (sup loss_val)
           (sup acc_train) (sup acc_val)) σ = Return () σ' ∧
    ∀ c xs ys, series σ self c = (Some xs, Some ys) →
      series σ' self c =
        match sup c with
        | Some (Fin q) => (Some (xs ++ [x]), Some (ys ++ [Fin q]))
        | _ => (Some xs, Some ys)
        end.
Proof.
  intros Hwf.
  destruct (wp_returns _ _ _ (add_values_wp self x sup σ Hwf))
    as ([] & σ' & Hrun & _ & Hseries).
  exists σ'. split; [done |]. intros c xs ys Hs.
  rewrite (Hseries c xs ys Hs).
  destruct (sup c) as [[| |]|]; simpl; by rewrite ?app_nil_r.
Qed.

Lemma wf_new_plotter : wf_plotter new_plotter new_store.
Proof.
  split_and!.
  - by apply NoDup_four.
  - by apply NoDup_four.
  - intros c. destruct c; split; by eexists.
Defined.

Lemma add_values_per_channel_witness :
  wf_plotter new_plotter new_store ∧
  ∃ σ',
    run (add_values new_plotter 0 (mixed_values loss_train)
           (mixed_values loss_val) (mixed_values acc_train)
           (mixed_values acc_val)) new_store = Return () σ' ∧
    ∀ c xs ys, series new_store new_plotter c = (Some xs, Some ys) →
      series σ' new_plotter c =
        match mixed_values c with
        | Some (Fin q) => (Some (xs ++ [0]), Some (ys ++ [Fin q]))
        | _ => (Some xs, Some ys)
        end.
Proof.
  split; [exact wf_new_plotter |].
  exact (add_values_per_channel new_plotter 0 mixed_values new_store
           wf_new_plotter).
Defined.

(** * Further properties of the store *)

Lemma ignore_nan_and_inf_log_wp value label x_index σ
    (Q : option pyfloat → store → Prop) E :
  (∀ σ', int_lists σ' = int_lists σ → float_lists σ' = float_lists σ →
         warnings σ' = warnings σ ++ complaint label x_index value →
         Q (kept value) σ') →
  wp (ignore_nan_and_inf value label x_index) σ Q E.
Proof.
  intros HQ. destruct value as [[| |]|]; apply HQ; try done;
    simpl; by rewrite app_nil_r.
Qed.

Lemma append_if_present_frame lx ly x_index v σ :
  let σ' := final_store (run (append_if_present lx ly x_index v) σ) in
  warnings σ' = warnings σ ∧
  (∀ l, l ≠ lx → int_lists σ' !! l = int_lists σ !! l) ∧
  (∀ l, l ≠ ly → float_lists σ' !! l = float_lists σ !! l).
Proof.
  unfold run, append_if_present. destruct v as [y|]; [| done].
  unfold mbind, M_bind, append_int, append_float.
  destruct (int_lists σ !! lx) as [xs|] eqn:Hx; [| done]. simpl.
  destruct (float_lists σ !! ly) as [ys|] eqn:Hy; simpl.
  - split_and!; [done | |]; intros l Hl; by rewrite lookup_insert_ne.
  - split_and!; [done | | done]. intros l Hl. by rewrite lookup_insert_ne.
Qed.

Lemma wp_final {A} (m : M A) σ (P : store → Prop) :
  wp m σ (λ _, P) (λ _, P) → P (final_store (run m σ)).
Proof. unfold wp, run. by destruct (m σ). Qed.

Lemma wp_frame {A} (m : M A) σ (P : store → Prop) Q E :
  P (final_store (run m σ)) →
  (∀ a σ', P σ' → Q a σ') → (∀ e σ', P σ' → E e σ') →
  wp m σ Q E.
Proof. unfold wp, run. destruct (m σ); eauto. Qed.

Lemma add_values_frame self x_index (sup : channel → option pyfloat) σ :
  let σ' := final_store (run (add_values self x_index (sup loss_train)
                           (sup loss_val) (sup acc_train) (sup acc_val)) σ) in
  warnings σ' =
    warnings σ ++ complaint "loss train" x_index (sup loss_train)
      ++ complaint "loss val" x_index (sup loss_val)
      ++ complaint "acc train" x_index (sup acc_train)
      ++ complaint "acc val" x_index (sup acc_val) ∧
  (∀ l, (∀ c, l ≠ channel_x self c) →
        int_lists σ' !! l = int_lists σ !! l) ∧
  (∀ l, (∀ c, l ≠ channel_y self c) →
        float_lists σ' !! l = float_lists σ !! l).
Proof.
  cbv zeta.
  eapply (wp_final _ σ (λ σ',
    warnings σ' = _ ∧
    (∀ l, _ → int_lists σ' !! l = _) ∧
    (∀ l, _ → float_lists σ' !! l = _))).
  unfold add_values.
  apply wp_bind, ignore_nan_and_inf_log_wp. intros σ1 Hi1 Hf1 Hw1.
  apply wp_bind, ignore_nan_and_inf_log_wp. intros σ2 Hi2 Hf2 Hw2.
  apply wp_bind, ignore_nan_and_inf_log_wp. intros σ3 Hi3 Hf3 Hw3.
  apply wp_bind, ignore_nan_and_inf_log_wp. intros σ4 Hi4 Hf4 Hw4.
  assert (warnings σ4 =
    warnings σ ++ complaint "loss train" x_index (sup loss_train)
      ++ complaint "loss val" x_index (sup loss_val)
      ++ complaint "acc train" x_index (sup acc_train)
      ++ complaint "acc val" x_index (sup acc_val)) as Hw.
  { rewrite Hw4, Hw3, Hw2, Hw1. by rewrite <- !(assoc_L (++)). }
  assert (int_lists σ4 = int_lists σ) as Hi by congruence.
  assert (float_lists σ4 = float_lists σ) as Hf by congruence.
  clear Hi1 Hi2 Hi3 Hi4 Hf1 Hf2 Hf3 Hf4 Hw1 Hw2 Hw3 Hw4 σ1 σ2 σ3.
  set (P (σa σb : store) :=
    warnings σb = warnings σa ∧
    (∀ l, (∀ c, l ≠ channel_x self c) →
          int_lists σb !! l = int_lists σa !! l) ∧
    (∀ l, (∀ c, l ≠ channel_y self c) →
          float_lists σb !! l = float_lists σa !! l)).
  assert (∀ c v σa σb, P σ4 σa →
    σb = final_store (run (append_if_present (channel_x self c)
                             (channel_y self c) x_index v) σa) →
    P σ4 σb) as Hstep.
  { intros c v σa σb (Hwa & Hia & Hfa) ->.
    destruct (append_if_present_frame (channel_x self c) (channel_y self c)
                x_index v σa) as (Hwb & Hib & Hfb).
    split_and!.
    - congruence.
    - intros l Hl. rewrite Hib by apply Hl. by apply Hia.
    - intros l Hl. rewrite Hfb by apply Hl. by apply Hfa. }
  assert (∀ σb, P σ4 σb →
    warnings σb =
      warnings σ ++ complaint "loss train" x_index (sup loss_train)
        ++ complaint "loss val" x_index (sup loss_val)
        ++ complaint "acc train" x_index (sup acc_train)
        ++ complaint "acc val" x_index (sup acc_val) ∧
    (∀ l, (∀ c, l ≠ channel_x self c) →
          int_lists σb !! l = int_lists σ !! l) ∧
    (∀ l, (∀ c, l ≠ channel_y self c) →
          float_lists σb !! l = float_lists σ !! l)) as Hend.
  { intros σb (Hwb & Hib & Hfb). rewrite <- Hw, <- Hi, <- Hf. done. }
  assert (P σ4 σ4) as H4 by done.
  apply wp_bind.
  apply (wp_frame _ σ4 (P σ4));
    [by eapply (Hstep loss_train) | | by intros; apply Hend].
  intros _ σ5 H5. apply wp_bind.
  apply (wp_frame _ σ5 (P σ4));
    [by eapply (Hstep loss_val) | | by intros; apply Hend].
  intros _ σ6 H6. apply wp_bind.
  apply (wp_frame _ σ6 (P σ4));
    [by eapply (Hstep acc_train) | | by intros; apply Hend].
  intros _ σ7 H7.
  apply (wp_frame _ σ7 (P σ4));
    [by eapply (Hstep acc_val) | by intros; apply Hend
    | by intros; apply Hend].
Qed.

(** X1: the warnings of one call of [add_values] are those of the four
    sanitizer calls, in the order loss train, loss val, acc train, acc val,
    one per NaN or infinite value and none for a finite or absent one;
    appending to the lists adds none.  This holds for every outcome of the
    call. *)
Theorem add_values_warnings self (x : Z) (sup : channel → option pyfloat)
    (σ : store) :
  warnings (final_store (run (add_values self x (sup loss_train)
                                (sup loss_val) (sup acc_train)
                                (sup acc_val)) σ)) =
    warnings σ ++ complaint "loss train" x (sup loss_train)
      ++ complaint "loss val" x (sup loss_val)
      ++ complaint "acc train" x (sup acc_train)
      ++ complaint "acc val" x (sup acc_val).
Proof. apply add_values_frame. Qed.

(** X2: [add_values] reads and writes the eight lists of the plotter only:
    every other list of the store, such as one returned by an earlier view,
    has the same contents afterwards, whatever the outcome of the call. *)
Theorem add_values_touches_own_lists self (x : Z)
    (sup : channel → option pyfloat) (σ : store) :
  let σ' := final_store (run (add_values self x (sup loss_train)
                                (sup loss_val) (sup acc_train)
                                (sup acc_val)) σ) in
  (∀ l, (∀ c, l ≠ channel_x self c) →
        int_lists σ' !! l = int_lists σ !! l) ∧
  (∀ l, (∀ c, l ≠ channel_y self c) →
        float_lists σ' !! l = float_lists σ !! l).
Proof. apply add_values_frame. Qed.

(** X3: a call of [add_values] in which no channel gets a finite value
    (each is absent, NaN or infinite) returns and leaves every list of the
    store as it was, also on a plotter whose lists are not allocated. *)
Theorem add_values_nothing_kept self (x : Z) (sup : channel → option pyfloat)
    (σ : store) :
  (∀ c, kept (sup c) = None) →
  ∃ σ',
    run (add_values self x (sup loss_train) (sup loss_val)
           (sup acc_train) (sup acc_val)) σ = Return () σ' ∧
    int_lists σ' = int_lists σ ∧ float_lists σ' = float_lists σ.
Proof.
  intros Hnone.
  cut (∃ (u : ()) σ',
         run (add_values self x (sup loss_train) (sup loss_val)
                (sup acc_train) (sup acc_val)) σ = Return u σ' ∧
         int_lists σ' = int_lists σ ∧ float_lists σ' = float_lists σ).
  { intros ([] & σ' & ?). eauto. }
  apply wp_returns. unfold add_values.
  apply wp_bind, ignore_nan_and_inf_wp. intros σ1 Hi1 Hf1.
  apply wp_bind, ignore_nan_and_inf_wp. intros σ2 Hi2 Hf2.
  apply wp_bind, ignore_nan_and_inf_wp. intros σ3 Hi3 Hf3.
  apply wp_bind, ignore_nan_and_inf_wp. intros σ4 Hi4 Hf4.
  rewrite !Hnone. simpl. repeat (apply wp_bind, wp_ret).
  apply wp_ret. split; congruence.
Qed.

Lemma add_values_nothing_kept_witness :
  (∀ c, kept (match c with
                | loss_train => Some NaN
                | loss_val => Some (Inf true)
                | _ => None
                end) = None) ∧
  ∃ σ',
    run (add_values new_plotter 3 (Some NaN) (Some (Inf true)) None None)
      empty_store = Return () σ' ∧
    int_lists σ' = int_lists empty_store ∧
    float_lists σ' = float_lists empty_store.
Proof.
  assert (∀ c, kept (match c with
                     | loss_train => Some NaN
                     | loss_val => Some (Inf true)
                     | _ => None
                     end) = None) as Hnone by (by intros []).
  split; [exact Hnone |].
  exact (add_values_nothing_kept new_plotter 3
           (λ c, match c with
                 | loss_train => Some NaN
                 | loss_val => Some (Inf true)
                 | _ => None
                 end) empty_store Hnone).
Defined.

Lemma observations_finite c calls :
  Forall (λ v, isnan v = false ∧ isinf v = false) (observations c calls).*2.
Proof.
  unfold observations. induction calls as [|i calls IH]; [constructor |].
  simpl. destruct (supplied i c) as [[| |q]|]; simpl; try done.
  by constructor.
Qed.

(** X4: after the constructor and any sequence of calls of [add_values],
    every value stored in any channel is finite: neither NaN nor an
    infinity ever enters a series. *)
Theorem session_values_finite (σ0 : store) (calls : list ingestion) :
  ∃ self σ,
    run (session calls) σ0 = Return self σ ∧
    ∀ c, ∃ ys,
      float_lists σ !! channel_y self c = Some ys ∧
      Forall (λ v, isnan v = false ∧ isinf v = false) ys.
Proof.
  destruct (session_returns calls σ0)
    as (self & σi & σ & _ & _ & Hsession & _ & Hseries).
  exists self, σ. split; [done |]. intros c.
  specialize (Hseries c). injection Hseries as _ Hy.
  eexists. split; [exact Hy |].
  apply observations_finite.
Qed.

(** * Further properties of the smoother *)

Lemma sma_model_nonpositive period y ys :
  period ≤ 0 → sma_model period (y :: ys) = None.
Proof.
  intros Hperiod. unfold sma_model. cbn [sma_loop]. unfold sma_step.
  cbn [app length]. rewrite bool_decide_eq_true_2 by lia.
  cbn [length]. change (float_of_nat 0) with (Fin 0%Qc).
  unfold float_truediv. by rewrite bool_decide_eq_true_2.
Qed.

Lemma calc_sma_outcome self lx ly ys σ :
  float_lists σ !! ly = Some ys →
  match run (_calc_sma self lx ly) σ with
  | Return r σ' =>
      ∃ out, sma_model (averages_period self) ys = Some out ∧
        r.1 = lx ∧ extends σ σ' ∧ float_lists σ' !! r.2 = Some out
  | Raise e σ' =>
      e = ZeroDivisionError ∧
      sma_model (averages_period self) ys = None ∧ extends σ σ'
  end.
Proof. intros Hy. by apply wp_run, calc_sma_wp. Qed.

(** X5: on an empty series [_calc_sma] returns a new empty list whatever
    the window is, zero and negative windows included: the division is
    never reached. *)
Theorem calc_sma_empty self lx ly σ :
  float_lists σ !! ly = Some [] →
  ∃ lr σ',
    run (_calc_sma self lx ly) σ = Return (lx, lr) σ' ∧
    float_lists σ' !! lr = Some [] ∧ extends σ σ'.
Proof.
  intros Hy. pose proof (calc_sma_outcome self lx ly [] σ Hy) as Hout.
  destruct (run _ σ) as [[rx lr] σ'|e σ'].
  - destruct Hout as (out & [= <-] & Hrx & Hext & Hlr). simpl in *.
    subst rx. eauto.
  - by destruct Hout as (_ & ? & _).
Qed.

Lemma calc_sma_empty_witness :
  ∃ lr σ',
    run (_calc_sma (set_averages_period 0 new_plotter) 1 1) new_store =
      Return (1%positive, lr) σ' ∧
    float_lists σ' !! lr = Some [] ∧ extends new_store σ'.
Proof.
  apply (calc_sma_empty (set_averages_period 0 new_plotter) 1 1 new_store).
  reflexivity.
Defined.

(** X6: with a window of zero or less and a series that is not empty,
    [_calc_sma] raises [ZeroDivisionError] at the first value; the lists
    that were in the store keep their contents. *)
Theorem calc_sma_nonpositive_window self lx ly ys σ :
  averages_period self ≤ 0 →
  float_lists σ !! ly = Some ys → ys ≠ [] →
  ∃ σ',
    run (_calc_sma self lx ly) σ = Raise ZeroDivisionError σ' ∧
    extends σ σ'.
Proof.
  intros Hperiod Hy Hys.
  pose proof (calc_sma_outcome self lx ly ys σ Hy) as Hout.
  destruct ys as [|y ys]; [done |].
  rewrite sma_model_nonpositive in Hout by done.
  destruct (run _ σ) as [r σ'|e σ'].
  - by destruct Hout as (out & ? & _).
  - destruct Hout as (-> & _ & Hext). eauto.
Qed.

Lemma calc_sma_nonpositive_window_witness :
  ∃ σ',
    run (_calc_sma (set_averages_period 0 new_plotter) 1 1)
      (fed_store [float_of_Z 7]) = Raise ZeroDivisionError σ' ∧
    extends (fed_store [float_of_Z 7]) σ'.
Proof.
  apply (calc_sma_nonpositive_window (set_averages_period 0 new_plotter) 1 1
           [float_of_Z 7]).
  - evaluate.
  - reflexivity.
  - discriminate.
Defined.

(** X7: with a positive window [_calc_sma] returns on every list of
    floats, NaN and infinities included, with one output per input; and
    from the position of a NaN on every output is NaN, also after the NaN
    has left the window, because the running sum stays NaN. *)
Theorem calc_sma_any_floats self lx ly ys σ :
  0 < averages_period self →
  float_lists σ !! ly = Some ys →
  ∃ lr σ' out,
    run (_calc_sma self lx ly) σ = Return (lx, lr) σ' ∧
    float_lists σ' !! lr = Some out ∧
    length out = length ys ∧
    (∀ i, ys !! i = Some NaN →
       ∀ j, (i ≤ j < length ys)%nat → out !! j = Some NaN) ∧
    extends σ σ'.
Proof.
  intros Hperiod Hy.
  pose proof (calc_sma_outcome self lx ly ys σ Hy) as Hout.
  destruct (sma_model_total (averages_period self) ys Hperiod)
    as (out & Hmodel & Hlen & Hnan).
  rewrite Hmodel in Hout.
  destruct (run _ σ) as [[rx lr] σ'|e σ'].
  - destruct Hout as (out' & [= <-] & Hrx & Hext & Hlr). simpl in *.
    subst rx. eauto 10.
  - by destruct Hout as (_ & ? & _).
Qed.

Lemma calc_sma_any_floats_witness :
  ∃ lr σ' out,
    run (_calc_sma (set_averages_period 1 new_plotter) 1 1)
      (Store {[1%positive := [0; 1; 2]]}
         {[1%positive := [float_of_Z 7; NaN; float_of_Z 7]]} []) =
      Return (1%positive, lr) σ' ∧
    float_lists σ' !! lr = Some out ∧
    length out = 3%nat ∧
    (∀ i, [float_of_Z 7; NaN; float_of_Z 7] !! i = Some NaN →
       ∀ j, (i ≤ j < 3)%nat → out !! j = Some NaN) ∧
    extends (Store {[1%positive := [0; 1; 2]]}
               {[1%positive := [float_of_Z 7; NaN; float_of_Z 7]]} []) σ'.
Proof.
  apply (calc_sma_any_floats (set_averages_period 1 new_plotter) 1 1
           [float_of_Z 7; NaN; float_of_Z 7]).
  - evaluate.
  - reflexivity.
Defined.

(** * Further properties of the window sizes *)

(** X8: with a percentage that is not negative, the window size does not
    shrink when observations are added. *)
Theorem window_size_monotone (nb nb' : nat) (perc : Qc) (n_min n_max : Z) :
  (0 ≤ perc)%Qc → (nb ≤ nb')%nat →
  window_size nb perc n_min n_max ≤ window_size nb' perc n_min n_max.
Proof. apply window_size_mono. Qed.

Lemma window_size_monotone_witness :
  (0 ≤ float_literal (2 # 10))%Qc ∧ (58 ≤ 300)%nat ∧
  window_size 58 (float_literal (2 # 10)) 10 100 ≤
    window_size 300 (float_literal (2 # 10)) 10 100.
Proof.
  assert (0 ≤ float_literal (2 # 10))%Qc as Hperc by evaluate.
  assert (58 ≤ 300)%nat as Hnb by lia.
  split_and!; [exact Hperc | exact Hnb |].
  exact (window_size_monotone 58 300 (float_literal (2 # 10)) 10 100
           Hperc Hnb).
Defined.

(** The window sizes of the constructor's configuration, count by count
    up to the count at which the upper bound is reached. *)
Lemma default_backward_small :
  forallb
    (λ nb, window_size nb (float_literal (2 # 10)) 10 100 =?
             clamp (Z.of_nat nb / 5) 10 100)
    (seq 0 501) = true.
Proof. vm_compute. reflexivity. Qed.

Lemma default_forward_small :
  forallb
    (λ nb, window_size nb (float_literal (1 # 10)) 5 100 =?
             clamp (Z.of_nat nb / 10) 5 100)
    (seq 0 1001) = true.
Proof. vm_compute. reflexivity. Qed.

Lemma window_size_by_cases (perc : Qc) (n_min n_max d : Z) (limit nb : nat) :
  (0 ≤ perc)%Qc → 0 < d → n_max * d ≤ Z.of_nat limit → n_min ≤ n_max →
  forallb
    (λ nb, window_size nb perc n_min n_max =?
             clamp (Z.of_nat nb / d) n_min n_max)
    (seq 0 (S limit)) = true →
  window_size nb perc n_min n_max = clamp (Z.of_nat nb / d) n_min n_max.
Proof.
  intros Hperc Hd Hlimit Hbounds Hsmall.
  rewrite forallb_forall in Hsmall.
  destruct (Nat.le_gt_cases nb limit) as [Hle | Hgt].
  - apply Z.eqb_eq, Hsmall, in_seq. lia.
  - assert (window_size limit perc n_min n_max = n_max) as Hat.
    { rewrite (proj1 (Z.eqb_eq _ _) (Hsmall limit ltac:(apply in_seq; lia))).
      assert (n_max ≤ Z.of_nat limit / d)
        by (apply Z.div_le_lower_bound; lia).
      unfold clamp. lia. }
    pose proof (window_size_mono limit nb perc n_min n_max Hperc
                  ltac:(lia)) as Hmono.
    pose proof (window_size_le_max nb perc n_min n_max) as Hmax.
    assert (n_max ≤ Z.of_nat nb / d) by (apply Z.div_le_lower_bound; lia).
    unfold clamp. lia.
Qed.

(** X9: with the constructor's configuration the backward window is the
    integer quotient [count / 5] within [10, 100] and the forward window
    [count / 10] within [5, 100], for every count: the rounding of the
    percentages and of the products never crosses an integer. *)
Theorem window_size_integer_quotient self (nb : nat) :
  default_config self →
  n_backward self nb = clamp (Z.of_nat nb / 5) 10 100 ∧
  n_forward self nb = clamp (Z.of_nat nb / 10) 5 100.
Proof.
  intros (_ & Hfperc & Hbperc & Hfmin & Hbmin & Hfmax & Hbmax & _).
  unfold n_backward, n_forward.
  rewrite Hfperc, Hbperc, Hfmin, Hbmin, Hfmax, Hbmax. split.
  - apply (window_size_by_cases _ 10 100 5 500);
      [by vm_compute | lia | lia | lia | apply default_backward_small].
  - apply (window_size_by_cases _ 5 100 10 1000);
      [by vm_compute | lia | lia | lia | apply default_forward_small].
Qed.

Lemma window_size_integer_quotient_witness :
  n_backward new_plotter 58 = clamp (58 / 5) 10 100 ∧
  n_forward new_plotter 58 = clamp (58 / 10) 5 100.
Proof.
  apply (window_size_integer_quotient new_plotter 58).
  repeat split.
Defined.

Lemma slice_from_last_n {A} (n : Z) (l : list A) :
  0 < n → slice_from (- n) l = last_n (Z.to_nat n) l.
Proof.
  intros Hn. unfold slice_from, last_n.
  rewrite bool_decide_eq_true_2 by lia. f_equal. lia.
Qed.

Lemma last_n_all {A} (k : nat) (l : list A) :
  (length l ≤ k)%nat → last_n k l = l.
Proof.
  intros Hk. unfold last_n. by replace (length l - k)%nat with 0%nat by lia.
Qed.

Section ExtrapolatorEdges.

Context {poly : Type}.
Variable lstsq : list Z → list pyfloat → Z → poly.
Variable poly_call : poly → Z → pyfloat.

(** X10: with at least two observations and both clamped window sizes at
    most 0, [_calc_regression] returns a pair of new empty lists before the
    fit is attempted, so neither the degree nor the value list matters. *)
Theorem calc_regression_no_window self lx ly xs ys σ :
  int_lists σ !! lx = Some xs → float_lists σ !! ly = Some ys →
  (2 ≤ length xs)%nat →
  n_backward self (length xs) ≤ 0 → n_forward self (length xs) ≤ 0 →
  ∃ ex ey σ',
    run (_calc_regression lstsq poly_call self lx ly) σ = Return (ex, ey) σ' ∧
    int_lists σ' !! ex = Some [] ∧ float_lists σ' !! ey = Some [] ∧
    extends σ σ'.
Proof.
  intros Hx Hy Hcount Hback Hfwd.
  apply (calc_regression_returns lstsq poly_call self lx ly xs ys); [done.. |].
  unfold regression_model, regression_with.
  rewrite bool_decide_eq_false_2 by lia.
  destruct (last_is_Some xs) as [last_x ->]; [lia |].
  by rewrite !bool_decide_eq_true_2 by done.
Qed.

(** X11: with at least two observations, a forward window of at most 0 and
    arguments the fit accepts, [_calc_regression] returns a pair of empty
    lists: there is nothing to project. *)
Theorem calc_regression_nothing_to_project self lx ly xs ys σ :
  int_lists σ !! lx = Some xs → float_lists σ !! ly = Some ys →
  length xs = length ys → (2 ≤ length xs)%nat →
  n_forward self (length xs) ≤ 0 →
  0 ≤ poly_degree self →
  ∃ ex ey σ',
    run (_calc_regression lstsq poly_call self lx ly) σ = Return (ex, ey) σ' ∧
    int_lists σ' !! ex = Some [] ∧ float_lists σ' !! ey = Some [] ∧
    extends σ σ'.
Proof.
  intros Hx Hy Hlen Hcount Hfwd Hdeg.
  apply (calc_regression_returns lstsq poly_call self lx ly xs ys); [done.. |].
  unfold regression_model, regression_with.
  rewrite bool_decide_eq_false_2 by lia.
  destruct (last_is_Some xs) as [last_x ->]; [lia |].
  rewrite (bool_decide_eq_true_2 (n_forward _ _ ≤ 0)) by done.
  rewrite andb_true_r. case_bool_decide as Hback; [done |].
  rewrite (bool_decide_eq_false_2 (poly_degree self < 0)) by lia.
  rewrite bool_decide_eq_false_2.
  2:{ intros Hz. apply slice_from_nonempty in Hz; lia. }
  rewrite bool_decide_eq_false_2.
  2:{ intros Hne. apply Hne. by apply slice_from_length_eq. }
  by rewrite seqZ_nil by done.
Qed.

(** X12: with a positive backward window the fit is computed on the last
    [n_backward] index and value pairs, and on all of them when the series
    is not longer than the window. *)
Theorem calc_regression_fit_window self lx ly xs ys σ :
  int_lists σ !! lx = Some xs → float_lists σ !! ly = Some ys →
  length xs = length ys → (2 ≤ length xs)%nat →
  0 < n_backward self (length xs) →
  0 ≤ poly_degree self →
  let k := Z.to_nat (n_backward self (length xs)) in
  ∃ last_x fx fy σ',
    list.last xs = Some last_x ∧
    run (_calc_regression lstsq poly_call self lx ly) σ = Return (fx, fy) σ' ∧
    float_lists σ' !! fy =
      Some (poly_call (lstsq (last_n k xs) (last_n k ys) (poly_degree self))
              <$> seqZ last_x (n_forward self (length xs))) ∧
    length (last_n k xs) = Nat.min k (length xs) ∧
    ((length xs ≤ k)%nat → last_n k xs = xs ∧ last_n k ys = ys).
Proof.
  intros Hx Hy Hlen Hcount Hback Hdeg k.
  destruct (last_is_Some xs) as [last_x Hlast]; [lia |].
  assert (regression_model lstsq poly_call self xs ys =
    inr (seqZ last_x (n_forward self (length xs)),
         poly_call (lstsq (last_n k xs) (last_n k ys) (poly_degree self))
           <$> seqZ last_x (n_forward self (length xs)))) as Hmodel.
  { unfold regression_model, regression_with.
    rewrite bool_decide_eq_false_2 by lia. rewrite Hlast.
    rewrite (bool_decide_eq_false_2 (n_backward _ _ ≤ 0)) by lia.
    cbn [andb].
    rewrite (bool_decide_eq_false_2 (poly_degree self < 0)) by lia.
    rewrite bool_decide_eq_false_2.
    2:{ intros Hz. apply slice_from_nonempty in Hz; lia. }
    rewrite bool_decide_eq_false_2.
    2:{ intros Hne. apply Hne. by apply slice_from_length_eq. }
    by rewrite !slice_from_last_n by done. }
  destruct (calc_regression_returns lstsq poly_call self lx ly xs ys σ _ _
              Hx Hy Hmodel) as (fx & fy & σ' & Hrun & Hfx & Hfy & _).
  exists last_x, fx, fy, σ'. split_and!; [done.. | |].
  - apply last_n_length.
  - intros Hk. split; apply last_n_all; lia.
Qed.

End ExtrapolatorEdges.

Lemma calc_regression_no_window_witness :
  let self := set_poly_n_backward_min 0
                (Build_LossAccPlotter 20 (float_literal (1 # 10))
                   (float_literal (2 # 10))
                   0 0 100 100 (-1) 1 2 3 4 1 2 3 4) in
  ∃ ex ey σ',
    run (_calc_regression count_lstsq count_call self 1 1)
      (fed_store (replicate 3 (float_of_Z 7))) = Return (ex, ey) σ' ∧
    int_lists σ' !! ex = Some [] ∧ float_lists σ' !! ey = Some [] ∧
    extends (fed_store (replicate 3 (float_of_Z 7))) σ'.
Proof.
  apply (calc_regression_no_window count_lstsq count_call
           (set_poly_n_backward_min 0
              (Build_LossAccPlotter 20 (float_literal (1 # 10))
                   (float_literal (2 # 10))
                 0 0 100 100 (-1) 1 2 3 4 1 2 3 4))
           1 1 [0; 1; 2] (replicate 3 (float_of_Z 7))).
  - reflexivity.
  - reflexivity.
  - simpl; lia.
  - evaluate.
  - evaluate.
Defined.

Lemma calc_regression_nothing_to_project_witness :
  let self := Build_LossAccPlotter 20 (float_literal (1 # 10))
                (float_literal (2 # 10))
                0 10 100 100 1 1 2 3 4 1 2 3 4 in
  ∃ ex ey σ',
    run (_calc_regression count_lstsq count_call self 1 1)
      (fed_store (replicate 3 (float_of_Z 7))) = Return (ex, ey) σ' ∧
    int_lists σ' !! ex = Some [] ∧ float_lists σ' !! ey = Some [] ∧
    extends (fed_store (replicate 3 (float_of_Z 7))) σ'.
Proof.
  apply (calc_regression_nothing_to_project count_lstsq count_call
           (Build_LossAccPlotter 20 (float_literal (1 # 10))
                   (float_literal (2 # 10))
              0 10 100 100 1 1 2 3 4 1 2 3 4)
           1 1 [0; 1; 2] (replicate 3 (float_of_Z 7))).
  - reflexivity.
  - reflexivity.
  - reflexivity.
  - simpl; lia.
  - evaluate.
  - evaluate.
Defined.

Lemma calc_regression_fit_window_witness :
  ∃ last_x fx fy σ',
    list.last [0; 1; 2] = Some last_x ∧
    run (_calc_regression count_lstsq count_call new_plotter 1 1)
      (fed_store (replicate 3 (float_of_Z 7))) = Return (fx, fy) σ' ∧
    float_lists σ' !! fy =
      Some (count_call
              (count_lstsq (last_n 10 [0; 1; 2])
                 (last_n 10 (replicate 3 (float_of_Z 7))) 1)
              <$> seqZ last_x 5) ∧
    length (last_n 10 [0; 1; 2]) = Nat.min 10 3 ∧
    ((3 ≤ 10)%nat →
       last_n 10 [0; 1; 2] = [0; 1; 2] ∧
       last_n 10 (replicate 3 (float_of_Z 7)) = replicate 3 (float_of_Z 7)).
Proof.
  apply (calc_regression_fit_window count_lstsq count_call new_plotter 1 1
           [0; 1; 2] (replicate 3 (float_of_Z 7))).
  - reflexivity.
  - reflexivity.
  - reflexivity.
  - simpl; lia.
  - evaluate.
  - evaluate.
Defined.

(** * Views and ingestion together *)

Lemma calc_sma_fresh_wp self lx ly ys σ :
  float_lists σ !! ly = Some ys →
  wp (_calc_sma self lx ly) σ
    (λ r σ', ∃ out,
       sma_model (averages_period self) ys = Some out ∧
       r.1 = lx ∧ extends σ σ' ∧ float_lists σ' !! r.2 = Some out ∧
       float_lists σ !! r.2 = None)
    (λ e σ', e = ZeroDivisionError ∧
       sma_model (averages_period self) ys = None ∧ extends σ σ').
Proof.
  intros Hy. unfold _calc_sma, sma_model.
  apply wp_bind, wp_new_int_list. intros lrx Hlrx.
  apply wp_bind, wp_new_float_list. intros lres Hlres.
  apply wp_bind, wp_new_float_list. intros llast Hllast.
  simpl in Hlres, Hllast.
  assert (llast ≠ lres) as Hne.
  { intros ->. by rewrite lookup_insert_eq in Hllast. }
  rewrite lookup_insert_ne in Hllast by done.
  apply wp_bind. eapply wp_read_floats.
  { simpl. rewrite !lookup_insert_ne; [done | congruence..]. }
  apply wp_bind.
  eapply wp_mono.
  - eapply (sma_loop_wp _ llast lres σ); [done.. | | |].
    + apply extends_insert_float; [done |]. apply extends_insert_float; [done |].
      by apply extends_insert_int.
    + apply lookup_insert_eq.
    + simpl. rewrite lookup_insert_ne by done. apply lookup_insert_eq.
  - intros rs' σ' (last' & res' & -> & ? & ? & ?). apply wp_ret. eauto 10.
  - intros e σ' (-> & -> & ?). done.
Qed.

Lemma wf_plotter_extends self σ σ' :
  extends σ σ' → wf_plotter self σ → wf_plotter self σ'.
Proof.
  intros Hext (Hx & Hy & Halloc). split_and!; [done.. |].
  intros c. destruct (Halloc c) as [[xs Hxs] [ys Hys]]. split.
  - exists xs. by eapply extends_lookup_int.
  - exists ys. by eapply extends_lookup_float.
Qed.

(** X13: [_calc_sma] returns the stored index list itself, not a copy: after
    a later call of [add_values] with a finite value for the channel, the
    index list of the pair returned earlier has grown by that index, while
    the list of smoothed values returned with it is as it was, one element
    shorter. *)
Theorem smoothed_view_shares_index_list self (c : channel) (x : Z) (q : Qc)
    (sup : channel → option pyfloat) (xs : list Z) (qs : list Qc)
    (σ : store) :
  wf_plotter self σ →
  0 < averages_period self →
  series σ self c = (Some xs, Some (Fin <$> qs)) →
  length xs = length qs →
  sup c = Some (Fin q) →
  ∃ lr σ1 σ2 out,
    run (_calc_sma self (channel_x self c) (channel_y self c)) σ =
      Return (channel_x self c, lr) σ1 ∧
    int_lists σ1 !! channel_x self c = Some xs ∧
    float_lists σ1 !! lr = Some out ∧
    length out = length xs ∧
    run (add_values self x (sup loss_train) (sup loss_val)
           (sup acc_train) (sup acc_val)) σ1 = Return () σ2 ∧
    int_lists σ2 !! channel_x self c = Some (xs ++ [x]) ∧
    float_lists σ2 !! lr = Some out.
Proof.
  intros Hwf Hperiod [= Hxs Hys] Hlen Hsup.
  pose proof (wp_run _ _ _ _
    (calc_sma_fresh_wp self (channel_x self c) (channel_y self c) _ σ Hys))
    as Hsma.
  destruct (sma_model_total (averages_period self) (Fin <$> qs) Hperiod)
    as (out0 & Hmodel & Hlen0 & _).
  rewrite Hmodel in Hsma.
  destruct (run (_calc_sma _ _ _) σ) as [[rx lr] σ1|e σ1];
    [| by destruct Hsma as (_ & ? & _)].
  destruct Hsma as (out & [= <-] & Hrx & Hext & Hlr & Hfresh).
  simpl in Hrx, Hlr, Hfresh. subst rx.
  pose proof (wf_plotter_extends self σ σ1 Hext Hwf) as Hwf1.
  pose proof (extends_lookup_int _ _ _ _ Hext Hxs) as Hxs1.
  pose proof (extends_lookup_float _ _ _ _ Hext Hys) as Hys1.
  destruct (wp_returns _ _ _ (add_values_wp self x sup σ1 Hwf1))
    as ([] & σ2 & Hadd & _ & Hseries).
  specialize (Hseries c xs (Fin <$> qs)).
  unfold series, contents in Hseries. simpl in Hseries.
  rewrite Hxs1, Hys1, Hsup in Hseries. specialize (Hseries eq_refl).
  injection Hseries as Hxs2 _.
  destruct (add_values_frame self x sup σ1) as (_ & _ & Hframe).
  unfold run in Hadd, Hframe. rewrite Hadd in Hframe. simpl in Hframe.
  exists lr, σ1, σ2, out0.
  split_and!; [done | done | done | | done | done |].
  - by rewrite Hlen0, length_fmap.
  - rewrite Hframe; [done |]. intros c' ->.
    destruct Hwf as (_ & _ & Halloc). destruct (Halloc c') as [_ [ys' Hys']].
    congruence.
Qed.

Lemma smoothed_view_shares_index_list_witness :
  ∃ lr σ1 σ2 out,
    run (_calc_sma new_plotter 1 1) (fed_store (replicate 3 (float_of_Z 7))) =
      Return (1%positive, lr) σ1 ∧
    int_lists σ1 !! 1%positive = Some [0; 1; 2] ∧
    float_lists σ1 !! lr = Some out ∧
    length out = 3%nat ∧
    run (add_values new_plotter 3 (Some (float_of_Z 8)) None None None) σ1 =
      Return () σ2 ∧
    int_lists σ2 !! 1%positive = Some ([0; 1; 2] ++ [3]) ∧
    float_lists σ2 !! lr = Some out.
Proof.
  refine (smoothed_view_shares_index_list new_plotter loss_train 3
            (Q2Qc (inject_Z 8)) (train_loss_only (float_of_Z 8))
            [0; 1; 2] (replicate 3 (Q2Qc (inject_Z 7)))
            (fed_store (replicate 3 (float_of_Z 7))) _ _ _ _ _).
  - split_and!.
    + by apply NoDup_four.
    + by apply NoDup_four.
    + intros c. destruct c; split; by eexists.
  - evaluate.
  - reflexivity.
  - reflexivity.
  - reflexivity.
Defined.

Lemma init_config_wp σ :
  wp __init__ σ (λ self _, default_config self) (λ _ _, False).
Proof.
  unfold __init__.
  do 4 (apply wp_bind, wp_new_int_list; intros ? _).
  do 4 (apply wp_bind, wp_new_float_list; intros ? _).
  by apply wp_ret.
Qed.

Lemma default_windows self nb :
  default_config self →
  10 ≤ n_backward self nb ≤ 100 ∧ 5 ≤ n_forward self nb ≤ 100.
Proof.
  intros (_ & _ & _ & Hfmin & Hbmin & Hfmax & Hbmax & _).
  unfold n_backward, n_forward.
  rewrite Hfmin, Hbmin, Hfmax, Hbmax.
  split; by apply window_size_bounded.
Qed.

Section ViewsAfterSession.

Context {poly : Type}.
Variable lstsq : list Z → list pyfloat → Z → poly.
Variable poly_call : poly → Z → pyfloat.

Lemma query_outcome self lx ly xs ys σ :
  int_lists σ !! lx = Some xs → float_lists σ !! ly = Some ys →
  match run (query lstsq poly_call self lx ly) σ with
  | Return r σ' =>
      r.1.1 = lx ∧
      query_model lstsq poly_call self xs ys =
        inr (contents σ' r.1, contents σ' r.2)
  | Raise e σ' => query_model lstsq poly_call self xs ys = inl e
  end.
Proof.
  intros Hx Hy. apply wp_run. unfold query, query_model. apply wp_bind.
  eapply wp_mono; [by eapply calc_sma_wp | |].
  - intros [sx sy] σ1 (out & -> & Hsx & Hext1 & Hout). simpl in Hsx, Hout.
    subst sx. apply wp_bind.
    eapply wp_mono.
    + eapply (calc_regression_wp _ _ self lx ly xs ys).
      * by eapply extends_lookup_int.
      * by eapply extends_lookup_float.
    + intros r σ2 (fx & fy & -> & Hext2 & Hc). apply wp_ret.
      split; [done |]. simpl. rewrite Hc. unfold contents. simpl.
      rewrite (extends_lookup_int σ σ2 lx xs),
        (extends_lookup_float σ1 σ2 sy out); try done. by etrans.
    + intros e σ2 [-> Hext2]. done.
  - intros e σ1 (-> & -> & Hext1). done.
Qed.


End ViewsAfterSession.


(** * Rendering *)

(** ** The program logic of the world *)

Lemma wpR_ret {A} (a : A) w Q E : Q a w → wpR (mret a) w Q E.
Proof. done. Qed.

Lemma wpR_bind {A B} (m : R A) (k : A → R B) w Q E :
  wpR m w (λ a w', wpR (k a) w' Q E) E → wpR (m ≫= k) w Q E.
Proof. unfold wpR, mbind, R_bind. by destruct (m w). Qed.

Lemma wpR_mono {A} (m : R A) w (Q Q' : A → world → Prop)
    (E E' : pyexn → world → Prop) :
  wpR m w Q E →
  (∀ a w', Q a w' → Q' a w') →
  (∀ e w', E e w' → E' e w') →
  wpR m w Q' E'.
Proof. unfold wpR. destruct (m w); eauto. Qed.

Lemma wpR_returns {A} (m : R A) w Q :
  wpR m w Q (λ _ _, False) → ∃ a w', rrun m w = RReturn a w' ∧ Q a w'.
Proof. unfold wpR, rrun. destruct (m w); [eauto | done]. Qed.

Lemma wpR_lift {A} (m : M A) w Q E :
  wp m (lists w)
    (λ a σ, Q a (set_lists σ w))
    (λ e σ, E (ListError e) (set_lists σ w)) →
  wpR (lift m) w Q E.
Proof. unfold wp, wpR, lift. by destruct (m (lists w)). Qed.

Lemma wpR_getitem d key v w (Q : string → world → Prop) E :
  d !! key = Some v → Q v w → wpR (getitem d key) w Q E.
Proof. intros Hd HQ. unfold getitem. by rewrite Hd. Qed.

(** ** Worlds *)

Lemma draws_refl w : draws w w [].
Proof. split_and!; [done | done |]. by rewrite app_nil_r. Qed.

Lemma draws_trans w1 w2 w3 evs1 evs2 :
  draws w1 w2 evs1 → draws w2 w3 evs2 → draws w1 w3 (evs1 ++ evs2).
Proof.
  intros (Hl1 & (? & ? & ? & ? & ?) & Hc1) (Hl2 & (? & ? & ? & ? & ?) & Hc2).
  split_and!; [by etrans | | ].
  - split_and!; congruence.
  - by rewrite Hc2, Hc1, <- (assoc_L (++)).
Qed.

Lemma draws_read w σ :
  extends (lists w) σ → draws w (set_lists σ w) [].
Proof.
  intros Hext. split_and!; [done | done |]. simpl. by rewrite app_nil_r.
Qed.

Lemma plots_on_app a evs1 evs2 :
  plots_on a (evs1 ++ evs2) = (plots_on a evs1 + plots_on a evs2)%nat.
Proof.
  induction evs1 as [|c evs1 IH]; [done |].
  destruct c; simpl; rewrite ?IH; lia.
Qed.

Lemma legends_on_app a evs1 evs2 :
  legends_on a (evs1 ++ evs2) = legends_on a evs1 ++ legends_on a evs2.
Proof.
  induction evs1 as [|c evs1 IH]; [done |].
  destruct c; simpl; rewrite ?IH; try done. by rewrite <- (assoc_L (++)).
Qed.

Lemma subplots_in_app evs1 evs2 :
  subplots_in (evs1 ++ evs2) = (subplots_in evs1 + subplots_in evs2)%nat.
Proof.
  induction evs1 as [|c evs1 IH]; [done |].
  destruct c; simpl; rewrite ?IH; lia.
Qed.

Lemma saved_in_app evs1 evs2 :
  saved_in (evs1 ++ evs2) = saved_in evs1 ++ saved_in evs2.
Proof.
  induction evs1 as [|c evs1 IH]; [done |].
  destruct c; simpl; rewrite ?IH; done.
Qed.

Lemma draws_calls w w' evs :
  draws w w' evs → mpl_calls w' = mpl_calls w ++ evs.
Proof. by intros (_ & _ & ?). Qed.

Lemma draws_renders w w' evs : draws w w' evs → renders w w' evs.
Proof. by intros ((? & ? & _) & ? & ?). Qed.

Lemma handles_denote (before drawn : list mpl_call) :
  Forall2 (λ h c, (before ++ drawn) !! h = Some c)
    (seq (length before) (length drawn)) drawn.
Proof.
  revert before. induction drawn as [|c drawn IH]; intros before.
  - constructor.
  - simpl. constructor.
    + by rewrite list_lookup_middle.
    + specialize (IH (before ++ [c])).
      rewrite length_app, Nat.add_1_r, <- (assoc_L (++)) in IH. exact IH.
Qed.

Lemma draws_fig w w' evs v : draws w w' evs → fig w = v → fig w' = v.
Proof. intros (_ & (Hf & _) & _). congruence. Qed.

Lemma draws_ax_loss w w' evs v :
  draws w w' evs → ax_loss w = v → ax_loss w' = v.
Proof. intros (_ & (_ & Hl & _) & _). congruence. Qed.

Lemma draws_ax_acc w w' evs v :
  draws w w' evs → ax_acc w = v → ax_acc w' = v.
Proof. intros (_ & (_ & _ & Ha & _) & _). congruence. Qed.

Lemma draws_lookup_int w w' evs l xs :
  draws w w' evs → int_lists (lists w) !! l = Some xs →
  int_lists (lists w') !! l = Some xs.
Proof. intros (Hext & _). by apply extends_lookup_int. Qed.

Lemma draws_lookup_float w w' evs l ys :
  draws w w' evs → float_lists (lists w) !! l = Some ys →
  float_lists (lists w') !! l = Some ys.
Proof. intros (Hext & _). by apply extends_lookup_float. Qed.

Lemma stores_extends self σ σ' s :
  extends σ σ' → stores self σ s → stores self σ' s.
Proof.
  intros Hext Hs c. destruct (Hs c) as (Hx & Hy & Hlen).
  split_and!; [by eapply extends_lookup_int
              | by eapply extends_lookup_float | done].
Qed.

Lemma ready_draws self w w' evs s :
  draws w w' evs → ready self w s → ready self w' s.
Proof.
  intros (Hext & _) (Hs & Hst & Hcfg).
  split_and!; [by eapply stores_extends | done..].
Qed.

(** ** Drawing one line *)

Lemma plot_spec ax x y fmt label alpha xs ys w :
  int_lists (lists w) !! x = Some xs →
  float_lists (lists w) !! y = Some ys →
  length xs = length ys →
  wpR (plot ax x y fmt label alpha) w
    (λ h w', h = length (mpl_calls w) ∧
             draws w w' [Plot ax xs ys fmt label alpha])
    (λ _ _, False).
Proof.
  intros Hx Hy Hlen. unfold plot.
  apply wpR_bind, wpR_lift. eapply wp_read_ints; [done |].
  apply wpR_bind, wpR_lift. eapply wp_read_floats; [done |].
  rewrite bool_decide_eq_false_2 by (intros Hne; by apply Hne).
  split_and!; simpl; done.
Qed.

(** Carry what is known of a world over a step. *)
Ltac forward Hstep :=
  repeat match goal with
  | H : int_lists (lists ?w0) !! _ = Some _ |- _ =>
      lazymatch type of Hstep with
      | draws w0 _ _ => apply (draws_lookup_int _ _ _ _ _ Hstep) in H
      end
  | H : float_lists (lists ?w0) !! _ = Some _ |- _ =>
      lazymatch type of Hstep with
      | draws w0 _ _ => apply (draws_lookup_float _ _ _ _ _ Hstep) in H
      end
  | H : fig ?w0 = _ |- _ =>
      lazymatch type of Hstep with
      | draws w0 _ _ => apply (draws_fig _ _ _ _ Hstep) in H
      end
  | H : ax_loss ?w0 = _ |- _ =>
      lazymatch type of Hstep with
      | draws w0 _ _ => apply (draws_ax_loss _ _ _ _ Hstep) in H
      end
  | H : ax_acc ?w0 = _ |- _ =>
      lazymatch type of Hstep with
      | draws w0 _ _ => apply (draws_ax_acc _ _ _ _ Hstep) in H
      end
  | H : ready _ ?w0 _ |- _ =>
      lazymatch type of Hstep with
      | draws w0 _ _ => apply (ready_draws _ _ _ _ _ Hstep) in H
      end
  end.

Ltac step_world Hd Hstep :=
  forward Hstep;
  let H := fresh "Hd" in
  pose proof (draws_trans _ _ _ _ _ Hd Hstep) as H;
  clear Hd Hstep; rename H into Hd.

(** ** Rules for the statements of the rendering methods *)

Lemma wpR_get_fig w v (Q : option nat → world → Prop) E :
  fig w = v → Q v w → wpR get_fig w Q E.
Proof. by intros <-. Qed.

Lemma wpR_get_ax_loss w v (Q : option nat → world → Prop) E :
  ax_loss w = v → Q v w → wpR get_ax_loss w Q E.
Proof. by intros <-. Qed.

Lemma wpR_get_ax_acc w v (Q : option nat → world → Prop) E :
  ax_acc w = v → Q v w → wpR get_ax_acc w Q E.
Proof. by intros <-. Qed.

Lemma wpR_fig_number w f (Q : nat → world → Prop) E :
  fig w = Some f → Q f w → wpR fig_number w Q E.
Proof. intros Hf HQ. unfold wpR, fig_number, mbind, R_bind, get_fig.
  by rewrite Hf. Qed.

Lemma wpR_mpl c w (Q : unit → world → Prop) E :
  (∀ w', draws w w' [c] → Q () w') → wpR (mpl c) w Q E.
Proof. intros HQ. apply HQ. split_and!; done. Qed.

Lemma wpR_len_ints l xs w (Q : nat → world → Prop) E :
  int_lists (lists w) !! l = Some xs →
  (∀ w', draws w w' [] → Q (length xs) w') →
  wpR (lift (len_ints l)) w Q E.
Proof.
  intros Hl HQ. apply wpR_lift. eapply wp_len_ints; [done |].
  by apply HQ, draws_read.
Qed.

Lemma wpR_choose_style (b : bool) d key v ls w
    (Q : string → world → Prop) E :
  d !! key = Some v → Q (if b then v else ls) w →
  wpR (if b then getitem d key else mret ls) w Q E.
Proof.
  intros Hv HQ. destruct b; [by eapply wpR_getitem | by apply wpR_ret].
Qed.

Lemma wpR_plot ax x y fmt label alpha xs ys w (Q : nat → world → Prop) E :
  int_lists (lists w) !! x = Some xs →
  float_lists (lists w) !! y = Some ys →
  length xs = length ys →
  (∀ h w', h = length (mpl_calls w) →
           draws w w' [Plot ax xs ys fmt label alpha] → Q h w') →
  wpR (plot ax x y fmt label alpha) w Q E.
Proof.
  intros Hx Hy Hlen HQ.
  eapply wpR_mono; [by eapply plot_spec | | done].
  intros h w' [Hh Hd]. by apply HQ.
Qed.

Lemma wpR_calc_sma self lx ly xs ys w (Q : loc * loc → world → Prop) E :
  0 < averages_period self →
  int_lists (lists w) !! lx = Some xs →
  float_lists (lists w) !! ly = Some ys →
  length xs = length ys →
  (∀ lr w' out,
     draws w w' [] →
     sma_model (averages_period self) ys = Some out →
     float_lists (lists w') !! lr = Some out →
     length xs = length out →
     Q (lx, lr) w') →
  wpR (lift (_calc_sma self lx ly)) w Q E.
Proof.
  intros Hperiod Hx Hy Hlen HQ. apply wpR_lift.
  destruct (sma_model_total (averages_period self) ys Hperiod)
    as (out & Hmodel & Hout & _).
  eapply wp_mono; [by eapply calc_sma_wp | |].
  - intros [rx lr] σ (out' & Hm & Hrx & Hext & Hlr). simpl in *. subst rx.
    assert (out' = out) as -> by congruence.
    apply (HQ lr _ out); [by apply draws_read | done | done | lia].
  - intros e σ (_ & Hm & _). congruence.
Qed.

Lemma good_config_backward self nb :
  good_config self → 0 ≤ n_backward self nb.
Proof.
  intros (_ & Hmin & Hmax & _). unfold n_backward, window_size.
  destruct (window_product _ _) as [|[]|p]; lia.
Qed.

Section RenderingRules.

Context {poly : Type}.
Variable lstsq : list Z → list pyfloat → Z → poly.
Variable poly_call : poly → Z → pyfloat.

Lemma regression_model_total self xs ys :
  good_config self → length xs = length ys →
  ∃ fxs fys,
    regression_model lstsq poly_call self xs ys = inr (fxs, fys) ∧
    length fxs = length fys.
Proof.
  intros Hcfg Hlen. unfold regression_model, regression_with.
  case_bool_decide as Hcount; [by exists [], [] |].
  destruct (last_is_Some xs) as [last_x ->]; [lia |].
  destruct (_ && _); [by exists [], [] |].
  pose proof (good_config_backward self (length xs) Hcfg) as Hback.
  destruct Hcfg as (_ & _ & _ & Hdeg).
  rewrite (bool_decide_eq_false_2 (poly_degree self < 0)) by lia.
  rewrite bool_decide_eq_false_2.
  2:{ intros Hz. apply slice_from_nonempty in Hz; lia. }
  rewrite bool_decide_eq_false_2.
  2:{ intros Hne. apply Hne. by apply slice_from_length_eq. }
  eexists _, _. split; [done |]. by rewrite length_fmap.
Qed.

Lemma wpR_calc_regression self lx ly xs ys w
    (Q : loc * loc → world → Prop) E :
  good_config self →
  int_lists (lists w) !! lx = Some xs →
  float_lists (lists w) !! ly = Some ys →
  length xs = length ys →
  (∀ fx fy w' fxs fys,
     draws w w' [] →
     regression_model lstsq poly_call self xs ys = inr (fxs, fys) →
     int_lists (lists w') !! fx = Some fxs →
     float_lists (lists w') !! fy = Some fys →
     length fxs = length fys →
     Q (fx, fy) w') →
  wpR (lift (_calc_regression lstsq poly_call self lx ly)) w Q E.
Proof.
  intros Hcfg Hx Hy Hlen HQ. apply wpR_lift.
  destruct (regression_model_total self xs ys Hcfg Hlen)
    as (fxs & fys & Hmodel & Hlenf).
  eapply wp_mono; [by eapply calc_regression_wp | |].
  - intros [fx fy] σ (fxs' & fys' & Hm & Hext & [= Hfx Hfy]).
    assert (fxs' = fxs ∧ fys' = fys) as [-> ->] by (split; congruence).
    apply (HQ fx fy _ fxs fys); [by apply draws_read | done..].
  - intros e σ (Hm & _). congruence.
Qed.

End RenderingRules.

(** One step of a rendering method: the rule of its first statement, with
    what is known carried to the world after it. *)
Ltac r_step Hd :=
  cbv beta iota;
  first
  [ eapply wpR_getitem; [eassumption |]
  | eapply wpR_choose_style; [eassumption |]
  | eapply wpR_get_fig; [eassumption |]
  | eapply wpR_get_ax_loss; [eassumption |]
  | eapply wpR_get_ax_acc; [eassumption |]
  | eapply wpR_fig_number; [eassumption |]
  | eapply wpR_mpl;
      let w' := fresh "w" in
      let Hs := fresh "Hs" in
      intros w' Hs; step_world Hd Hs
  | eapply wpR_len_ints; [eassumption |];
      let w' := fresh "w" in
      let Hs := fresh "Hs" in
      intros w' Hs; step_world Hd Hs
  | eapply wpR_calc_sma;
      [eassumption | eassumption | eassumption | eassumption |];
      let lr := fresh "lr" in
      let w' := fresh "w" in
      let out := fresh "out" in
      let Hs := fresh "Hs" in
      let Hm := fresh "Hm" in
      let Hlr := fresh "Hlr" in
      let Hlen := fresh "Hlen" in
      intros lr w' out Hs Hm Hlr Hlen; step_world Hd Hs
  | eapply wpR_calc_regression;
      [eassumption | eassumption | eassumption | eassumption |];
      let fx := fresh "fx" in
      let fy := fresh "fy" in
      let w' := fresh "w" in
      let fxs := fresh "fxs" in
      let fys := fresh "fys" in
      let Hs := fresh "Hs" in
      let Hm := fresh "Hm" in
      let Hfx := fresh "Hfx" in
      let Hfy := fresh "Hfy" in
      let Hlen := fresh "Hlen" in
      intros fx fy w' fxs fys Hs Hm Hfx Hfy Hlen; step_world Hd Hs
  | eapply wpR_plot;
      [eassumption | eassumption | eassumption |];
      let h := fresh "h" in
      let w' := fresh "w" in
      let Hh := fresh "Hh" in
      let Hs := fresh "Hs" in
      intros h w' Hh Hs; rewrite (draws_calls _ _ _ Hd) in Hh;
      step_world Hd Hs
  | apply wpR_bind
  | apply wpR_ret ].

(** The contents of the four series, and the styles, by name. *)
Ltac open_ready H :=
  let Hs := fresh "Hstores" in
  let Hst := fresh "Hst" in
  let Hone := fresh "Hone" in
  let Hcfg := fresh "Hcfg" in
  destruct H as (Hs & [Hst Hone] & Hcfg);
  destruct (Hs loss_train) as (Hx1 & Hy1 & Hl1);
  destruct (Hs loss_val) as (Hx2 & Hy2 & Hl2);
  destruct (Hs acc_train) as (Hx3 & Hy3 & Hl3);
  destruct (Hs acc_val) as (Hx4 & Hy4 & Hl4);
  simpl in Hx1, Hy1, Hx2, Hy2, Hx3, Hy3, Hx4, Hy4;
  clear Hs.

Ltac style_of Hst key s Hs :=
  destruct (Hst key ltac:(in_list)) as [s Hs].

(** ** The three groups of lines *)

Lemma main_lines_spec self w s ax1 ax2 :
  ready self w s → ax_loss w = ax1 → ax_acc w = ax2 →
  wpR (_redraw_main_lines self) w
    (λ handles w',
       draws w w' (main_lines self ax1 ax2 s) ∧
       length handles = (2 * axes_set w)%nat)
    (λ _ _, False).
Proof.
  intros Hready Hloss Hacc. unfold _redraw_main_lines, axes_set.
  rewrite Hloss, Hacc. open_ready Hready.
  style_of Hst "loss_train" s1 Hs1. style_of Hst "loss_val" s2 Hs2.
  style_of Hst "acc_train" s3 Hs3. style_of Hst "acc_val" s4 Hs4.
  style_of Hone "loss_train" t1 Ht1. style_of Hone "loss_val" t2 Ht2.
  style_of Hone "acc_train" t3 Ht3. style_of Hone "acc_val" t4 Ht4.
  pose proof (draws_refl w) as Hd.
  destruct ax1 as [a1|], ax2 as [a2|].
  all: repeat r_step Hd.
  all: split; [| done].
  all: unfold main_lines, main_line, lines_on, style.
  all: rewrite ?Hs1, ?Hs2, ?Hs3, ?Hs4, ?Ht1, ?Ht2, ?Ht3, ?Ht4; exact Hd.
Qed.

Lemma averages_spec self w s ax1 ax2 :
  ready self w s → ax_loss w = ax1 → ax_acc w = ax2 →
  wpR (_redraw_averages self) w
    (λ handles w',
       draws w w' (average_lines self ax1 ax2 s) ∧
       length handles =
         (if show_averages self then 2 * axes_set w else 0)%nat)
    (λ _ _, False).
Proof.
  intros Hready Hloss Hacc. unfold _redraw_averages, average_lines, axes_set.
  rewrite Hloss, Hacc.
  destruct (show_averages self); simpl negb; cbv iota.
  2:{ apply wpR_ret. split; [apply draws_refl | done]. }
  open_ready Hready. destruct Hcfg as (Hperiod & _).
  style_of Hst "loss_train_sma" s1 Hs1. style_of Hst "loss_val_sma" s2 Hs2.
  style_of Hst "acc_train_sma" s3 Hs3. style_of Hst "acc_val_sma" s4 Hs4.
  pose proof (draws_refl w) as Hd.
  destruct ax1 as [a1|], ax2 as [a2|].
  all: repeat r_step Hd.
  all: split; [| done].
  all: unfold average_line, lines_on, style.
  all: rewrite ?Hs1, ?Hs2, ?Hs3, ?Hs4, ?Hm, ?Hm0, ?Hm1, ?Hm2; exact Hd.
Qed.

Section RenderingSpecs.

Context {poly : Type}.
Variable lstsq : list Z → list pyfloat → Z → poly.
Variable poly_call : poly → Z → pyfloat.
Variable get_position : nat → bbox.

Lemma regressions_spec self w s ax1 ax2 :
  ready self w s → ax_loss w = ax1 → ax_acc w = ax2 →
  wpR (_redraw_regressions lstsq poly_call self) w
    (λ handles w',
       draws w w' (regression_lines lstsq poly_call self ax1 ax2 s) ∧
       length handles =
         (if show_regressions self
          then (if ax_acc w is Some _ then 2 else 0) else 0)%nat ∧
       handles =
         seq (length (mpl_calls w) +
              length (regression_lines lstsq poly_call self ax1 None s))
           (length (regression_lines lstsq poly_call self None ax2 s)))
    (λ _ _, False).
Proof.
  intros Hready Hloss Hacc. unfold _redraw_regressions, regression_lines.
  rewrite Hacc.
  destruct (show_regressions self); simpl negb; cbv iota.
  2:{ apply wpR_ret. split; [apply draws_refl | done]. }
  open_ready Hready.
  style_of Hst "loss_train_regression" s1 Hs1.
  style_of Hst "loss_val_regression" s2 Hs2.
  style_of Hst "acc_train_regression" s3 Hs3.
  style_of Hst "acc_val_regression" s4 Hs4.
  pose proof (draws_refl w) as Hd.
  destruct ax1 as [a1|], ax2 as [a2|].
  all: repeat r_step Hd.
  all: split_and!; [| done |].
  all: try (unfold regression_line, lines_on, style;
            rewrite ?Hs1, ?Hs2, ?Hs3, ?Hs4, ?Hm, ?Hm0, ?Hm1, ?Hm2; exact Hd).
  all: subst; simpl; rewrite ?length_app; simpl; rewrite ?Nat.add_0_r;
    try done; repeat f_equal; lia.
Qed.

End RenderingSpecs.

Ltac flatten_in H :=
  rewrite <- ?(assoc_L (++)) in H; cbn [app] in H.

Section RedrawSpecs.

Context {poly : Type}.
Variable lstsq : list Z → list pyfloat → Z → poly.
Variable poly_call : poly → Z → pyfloat.
Variable get_position : nat → bbox.

Lemma initialize_spec self w :
  fig w = None →
  wpR (_initialize_plot get_position self) w
    (λ _ w', prepared get_position self w w')
    (λ _ _, False).
Proof.
  intros Hfig.
  unfold wpR, prepared, initialize_calls, _initialize_plot, shrink_for_legend,
    when_axes, shrunk.
  rewrite Hfig.
  destruct (show_loss_plot self), (show_acc_plot self),
    (show_plot_window self); simpl; split_and!;
    rewrite <- ?(assoc_L (++)); done.
Qed.

(** The three groups of lines, by their specifications. *)
Ltac sub_step Hd :=
  lazymatch goal with
  | |- wpR (_redraw_main_lines _) _ _ _ =>
      eapply wpR_mono;
        [eapply main_lines_spec; eassumption
        | cbv beta; let Hs := fresh "Hs" in
          intros ? ? [Hs _]; step_world Hd Hs
        | done]
  | |- wpR (_redraw_averages _) _ _ _ =>
      eapply wpR_mono;
        [eapply averages_spec; eassumption
        | cbv beta; let Hs := fresh "Hs" in
          intros ? ? [Hs _]; step_world Hd Hs
        | done]
  | |- wpR (_redraw_regressions _ _ _) _ _ _ =>
      eapply wpR_mono;
        [eapply regressions_spec; eassumption
        | cbv beta; let Hs := fresh "Hs" in
          intros ? ? [Hs _]; step_world Hd Hs
        | done]
  end.

Lemma redraw_spec self w s :
  ready self w s →
  wpR (redraw lstsq poly_call get_position self) w
    (λ _ w', ∃ w1 f,
       prepared get_position self w w1 ∧ fig w1 = Some f ∧
       draws w1 w'
         (redraw_calls lstsq poly_call self f (ax_loss w1) (ax_acc w1) s))
    (λ _ _, False).
Proof.
  intros Hready. unfold redraw.
  apply wpR_bind.
  apply (wpR_get_fig w (fig w)); [done |].
  apply wpR_bind.
  apply (wpR_mono _ _
    (λ _ w1, prepared get_position self w w1 ∧ ready self w1 s ∧
             is_Some (fig w1)) _ (λ _ _, False)); [| | done].
  { destruct (fig w) as [f|] eqn:Hfig.
    - rewrite bool_decide_eq_false_2 by done. apply wpR_ret.
      unfold prepared. rewrite Hfig. eauto.
    - rewrite bool_decide_eq_true_2 by done.
      eapply wpR_mono; [by apply initialize_spec | | done].
      intros ? w1 Hprep. split; [done |].
      unfold prepared in Hprep. rewrite Hfig in Hprep.
      destruct Hprep as (Hl & Hf & _). split; [| by eexists].
      destruct Hready as (Hs & ? & ?). split_and!; [| done..].
      by rewrite Hl. }
  intros ? w1 (Hprep & Hready1 & [f Hf]).
  apply (wpR_mono _ _
    (λ _ w', draws w1 w'
       (redraw_calls lstsq poly_call self f (ax_loss w1) (ax_acc w1) s))
    _ (λ _ _, False)); [| by eauto | done].
  clear Hprep Hready. unfold redraw_calls, title_calls, reset_calls, legend_calls, reset_axes, when_axes.
  pose proof (draws_refl w1) as Hd.
  destruct (legend_labels self) as [labels ncol].
  destruct (ax_loss w1) as [a1|] eqn:Hloss;
    destruct (ax_acc w1) as [a2|] eqn:Hacc;
    destruct (title self) as [t|].
  all: repeat first [sub_step Hd | r_step Hd].
  all: flatten_in Hd; rewrite <- ?(assoc_L (++)); cbn [app].
  all: rewrite ?app_nil_r; exact Hd.
Qed.

Lemma legend_labels_count self :
  Z.of_nat (length (legend_labels self).1) = 2 * (legend_labels self).2 ∧
  1 ≤ (legend_labels self).2 ≤ 3.
Proof.
  unfold legend_labels.
  destruct (show_averages self), (show_regressions self); simpl; lia.
Qed.

Lemma redraw_calls_plots self f ax1 ax2 s a :
  plots_on a (redraw_calls lstsq poly_call self f ax1 ax2 s) =
    (length (legend_labels self).1 * axes_uses ax1 ax2 a)%nat.
Proof.
  unfold redraw_calls, title_calls, reset_calls, main_lines, average_lines,
    regression_lines, legend_calls, legend_labels, lines_on, axes_uses.
  destruct ax1 as [a1|], ax2 as [a2|], (title self),
    (show_averages self), (show_regressions self); simpl;
    repeat case_bool_decide; simplify_eq; done.
Qed.

Lemma redraw_calls_legends self f ax1 ax2 s a :
  legends_on a (redraw_calls lstsq poly_call self f ax1 ax2 s) =
    (if bool_decide (ax1 = Some a)
     then [(str_replace "$CHART" "loss" <$> (legend_labels self).1,
            (legend_labels self).2)]
     else []) ++
    (if bool_decide (ax2 = Some a)
     then [(str_replace "$CHART" "acc." <$> (legend_labels self).1,
            (legend_labels self).2)]
     else []).
Proof.
  unfold redraw_calls, title_calls, reset_calls, main_lines, average_lines,
    regression_lines, legend_calls, lines_on.
  destruct ax1 as [a1|], ax2 as [a2|], (title self),
    (show_averages self), (show_regressions self); simpl;
    repeat case_bool_decide; simplify_eq; done.
Qed.

Lemma redraw_calls_no_figure self f ax1 ax2 s :
  subplots_in (redraw_calls lstsq poly_call self f ax1 ax2 s) = 0%nat ∧
  saved_in (redraw_calls lstsq poly_call self f ax1 ax2 s) = [].
Proof.
  unfold redraw_calls, title_calls, reset_calls, main_lines, average_lines,
    regression_lines, legend_calls, lines_on.
  destruct ax1 as [a1|], ax2 as [a2|], (title self),
    (show_averages self), (show_regressions self); done.
Qed.

Lemma initialize_calls_one_figure self a :
  subplots_in (initialize_calls get_position self a) = 1%nat ∧
  saved_in (initialize_calls get_position self a) = [] ∧
  (∀ b, plots_on b (initialize_calls get_position self a) = 0%nat) ∧
  (∀ b, legends_on b (initialize_calls get_position self a) = []).
Proof.
  unfold initialize_calls.
  destruct (show_loss_plot self), (show_acc_plot self),
    (show_plot_window self); done.
Qed.

End RedrawSpecs.

(** ** A call of [add_values] and a sequence of calls *)

Lemma observed_snoc calls i c :
  observed (calls ++ [i]) c = with_call (observed calls) i c.
Proof.
  unfold observed, with_call. rewrite observations_snoc. simpl.
  rewrite !fmap_app. by destruct (kept (supplied i c)).
Qed.

Lemma stores_snoc self σ calls i :
  stores self σ (with_call (observed calls) i) →
  stores self σ (observed (calls ++ [i])).
Proof. intros H c. rewrite observed_snoc. apply H. Qed.

Lemma wpR_add_values self w s x (sup : channel → option pyfloat)
    (Q : unit → world → Prop) E :
  wf_plotter self (lists w) → stores self (lists w) s →
  (∀ σ', wf_plotter self σ' →
     stores self σ' (with_call s (Ingestion x sup)) →
     Q () (set_lists σ' w)) →
  wpR (lift (add_values self x (sup loss_train) (sup loss_val)
               (sup acc_train) (sup acc_val))) w Q E.
Proof.
  intros Hwf Hs HQ. apply wpR_lift.
  eapply wp_mono; [by apply add_values_wp | | done].
  intros [] σ' [Hwf' Happ]. apply HQ; [done |].
  intros c. destruct (Hs c) as (Hx & Hy & Hlen).
  specialize (Happ c (s c).1 (s c).2).
  unfold series, contents in Happ. simpl in Happ. rewrite Hx, Hy in Happ.
  specialize (Happ eq_refl). injection Happ as Hx' Hy'.
  unfold with_call. simpl. split_and!; [done.. |].
  rewrite !length_app, Hlen. by destruct (kept (sup c)).
Qed.

Lemma saves_snoc path calls c :
  saves path (calls ++ [c]) = saves path calls ++ saves path [c].
Proof. unfold saves. by rewrite bind_app. Qed.

Section ProgramSpecs.

Context {poly : Type}.
Variable lstsq : list Z → list pyfloat → Z → poly.
Variable poly_call : poly → Z → pyfloat.
Variable get_position : nat → bbox.

Lemma call_spec self w0 calls c w :
  after self w0 calls w →
  wpR (call_add_values lstsq poly_call get_position self c) w
    (λ _ w', after self w0 (calls ++ [c]) w')
    (λ _ _, False).
Proof.
  intros (Hwf & Hready & Hfig & Hfigs & evs & Hcalls & Hsub & Hsaved).
  unfold call_add_values, LossAccPlotter_add_values.
  apply wpR_bind. destruct Hready as (Hs & Hst & Hcfg).
  eapply wpR_add_values; [done.. |]. intros σ' Hwf' Hs'.
  assert (ready self (set_lists σ' w)
            (observed (call_values <$> calls ++ [c]))) as Hready'.
  { split_and!; [| done..]. rewrite fmap_app. apply stores_snoc.
    by destruct c as [[x sup] flag]. }
  clear Hs'. unfold after. rewrite existsb_app, saves_snoc. simpl existsb.
  rewrite orb_false_r.
  destruct (call_redraw c) eqn:Hflag.
  2:{ apply wpR_ret. rewrite orb_false_r. split_and!; [done.. |].
      exists evs. split_and!; [done.. |].
      unfold saves. simpl. by rewrite Hflag, app_nil_r. }
  rewrite orb_true_r. apply wpR_bind.
  eapply wpR_mono; [by apply redraw_spec | | done].
  intros [] w2 (w1 & f & Hprep & Hf & Hd).
  assert (lists w1 = σ' ∧ f = S (mpl_figures w0) ∧
          mpl_figures w1 = S (mpl_figures w0) ∧
          ∃ evs1, mpl_calls w1 = mpl_calls w0 ++ evs1 ∧
                  subplots_in evs1 = 1%nat ∧
                  saved_in evs1 = saves (save_to_filepath self) calls)
    as (Hlists1 & -> & Hfigs1 & evs1 & Hcalls1 & Hsub1 & Hsaved1).
  { unfold prepared in Hprep. simpl fig in Hprep. rewrite Hfig in Hprep.
    destruct (existsb call_redraw calls).
    - subst w1. simpl in *. split_and!; [done | congruence | done |].
      by exists evs.
    - destruct Hprep as (Hl & Hf1 & _ & _ & Hn & _ & Hc). simpl in *.
      split_and!; [done | congruence | congruence |].
      exists (evs ++ initialize_calls get_position self (mpl_axes w)).
      destruct (initialize_calls_one_figure get_position self (mpl_axes w))
        as (Hone & Hnone & _).
      split_and!.
      + by rewrite Hc, Hcalls, <- (assoc_L (++)).
      + rewrite subplots_in_app, Hsub, Hone. done.
      + by rewrite saved_in_app, Hsaved, Hnone, app_nil_r. }
  assert (wpR
    match save_to_filepath self with
    | Some filepath =>
        if bool_decide (filepath ≠ EmptyString)
        then _save_plot self filepath
        else mret ()
    | None => mret ()
    end w2
    (λ _ w', draws w2 w' (save_calls self (S (mpl_figures w0))))
    (λ _ _, False)) as Hsave.
  { pose proof (draws_fig _ _ _ _ Hd Hf) as Hf2. unfold save_calls.
    destruct (save_to_filepath self) as [filepath|];
      [case_bool_decide |]; try (apply wpR_ret, draws_refl).
    unfold _save_plot. apply wpR_bind. eapply wpR_fig_number; [done |].
    by apply wpR_mpl. }
  eapply wpR_mono; [exact Hsave | | done]. intros [] w3 Hd3.
  pose proof (draws_trans _ _ _ _ _ Hd Hd3)
    as (Hext & (Hfig3 & _ & _ & Hfigs3 & _) & Hcalls3).
  destruct (redraw_calls_no_figure lstsq poly_call self (S (mpl_figures w0))
              (ax_loss w1) (ax_acc w1)
              (observed (call_values <$> calls ++ [c]))) as [Hsubr Hsavedr].
  split_and!.
  - eapply wf_plotter_extends; [exact Hext |]. by rewrite Hlists1.
  - eapply ready_draws; [exact (draws_trans _ _ _ _ _ Hd Hd3) |].
    destruct Hready' as (Hs' & ? & ?). split_and!; [| done..].
    by rewrite Hlists1.
  - congruence.
  - congruence.
  - eexists. split_and!.
    + by rewrite Hcalls3, Hcalls1, <- (assoc_L (++)).
    + rewrite !subplots_in_app, Hsub1, Hsubr. unfold save_calls.
      destruct (save_to_filepath self); [case_bool_decide |]; done.
    + rewrite !saved_in_app, Hsaved1, Hsavedr. unfold save_calls, saves.
      simpl. rewrite Hflag.
      destruct (save_to_filepath self); [case_bool_decide |]; done.
Qed.

Lemma calls_spec self w0 todo :
  ∀ calls w,
    after self w0 calls w →
    wpR (rfor_each todo (call_add_values lstsq poly_call get_position self))
      w
      (λ _ w', after self w0 (calls ++ todo) w')
      (λ _ _, False).
Proof.
  induction todo as [|c todo IH]; intros calls w Hafter.
  - apply wpR_ret. by rewrite app_nil_r.
  - simpl. apply wpR_bind.
    eapply wpR_mono; [by apply call_spec | | done].
    intros [] w1 Hafter1. rewrite (cons_middle c), (assoc_L (++)).
    by apply IH.
Qed.

End ProgramSpecs.

Lemma wp_and {A} (m : M A) σ (Q Q' : A → store → Prop)
    (E E' : exn → store → Prop) :
  wp m σ Q E → wp m σ Q' E' →
  wp m σ (λ a σ', Q a σ' ∧ Q' a σ') (λ e σ', E e σ' ∧ E' e σ').
Proof. unfold wp. by destruct (m σ). Qed.

Lemma default_styles_complete self :
  linestyles self = default_linestyles →
  linestyles_one_value self = default_linestyles_one_value →
  styles_complete self.
Proof.
  intros Hl Ho. unfold styles_complete. rewrite Hl, Ho.
  split; intros k Hk.
  - unfold linestyle_keys in Hk.
    repeat (apply elem_of_cons in Hk as [-> | Hk]; [by eexists |]).
    by apply elem_of_nil in Hk.
  - unfold one_value_keys in Hk.
    repeat (apply elem_of_cons in Hk as [-> | Hk]; [by eexists |]).
    by apply elem_of_nil in Hk.
Qed.

Lemma default_good_config self : default_config self → good_config self.
Proof.
  intros (Hp & _ & _ & _ & Hmin & _ & Hmax & Hdeg).
  unfold good_config. lia.
Qed.

Lemma wpR_set_fig v w (Q : unit → world → Prop) E :
  Q () (World (lists w) v (ax_loss w) (ax_acc w)
          (mpl_figures w) (mpl_axes w) (mpl_calls w)) →
  wpR (set_fig v) w Q E.
Proof. done. Qed.

Lemma wpR_set_ax_loss v w (Q : unit → world → Prop) E :
  Q () (World (lists w) (fig w) v (ax_acc w)
          (mpl_figures w) (mpl_axes w) (mpl_calls w)) →
  wpR (set_ax_loss v) w Q E.
Proof. done. Qed.

Lemma wpR_set_ax_acc v w (Q : unit → world → Prop) E :
  Q () (World (lists w) (fig w) (ax_loss w) v
          (mpl_figures w) (mpl_axes w) (mpl_calls w)) →
  wpR (set_ax_acc v) w Q E.
Proof. done. Qed.

(** What the constructor keeps of its arguments. *)
Lemma construct_spec args w :
  accepted args = true →
  wpR (construct args) w
    (λ self w0,
       after self w0 [] w0 ∧ default_config (data self) ∧
       ax_loss w0 = None ∧ ax_acc w0 = None ∧
       mpl_calls w0 = mpl_calls w ∧ mpl_figures w0 = mpl_figures w ∧
       mpl_axes w0 = mpl_axes w ∧
       title self = arg_title args ∧
       save_to_filepath self = arg_save_to_filepath args ∧
       show_regressions self = arg_show_regressions args ∧
       show_averages self = arg_show_averages args ∧
       show_loss_plot self = arg_show_loss_plot args ∧
       show_acc_plot self = arg_show_acc_plot args ∧
       show_plot_window self = arg_show_plot_window args ∧
       x_label self = arg_x_label args)
    (λ _ _, False).
Proof.
  unfold accepted. intros [Hplots Hout]%andb_true_iff.
  unfold construct, LossAccPlotter_init. rewrite Hplots, Hout.
  apply wpR_bind, wpR_ret. apply wpR_bind, wpR_ret.
  apply wpR_bind, wpR_set_fig. apply wpR_bind, wpR_set_ax_loss.
  apply wpR_bind, wpR_set_ax_acc. apply wpR_bind, wpR_lift.
  eapply wp_mono; [exact (wp_and _ _ _ _ _ _ (init_wp _) (init_config_wp _))
                   | | by intros ? ? []].
  intros core σ' [[Hwf Hempty] Hcfg]. apply wpR_ret. simpl.
  split_and!; try done.
  unfold after. simpl.
  split_and!; try done; [| exists []; by rewrite app_nil_r].
  split_and!; [| by apply default_styles_complete
               | by apply default_good_config].
  intros c. specialize (Hempty c). unfold series, contents in Hempty.
  simpl in *. injection Hempty as Hx Hy. by rewrite Hx, Hy.
Qed.

Section ProgramTheorems.

Context {poly : Type}.
Variable lstsq : list Z → list pyfloat → Z → poly.
Variable poly_call : poly → Z → pyfloat.
Variable get_position : nat → bbox.

Lemma program_spec args calls w :
  accepted args = true →
  wpR (program lstsq poly_call get_position args calls) w
    (λ self w', ∃ w0,
       after self w0 calls w' ∧
       mpl_calls w0 = mpl_calls w ∧ mpl_figures w0 = mpl_figures w ∧
       save_to_filepath self = arg_save_to_filepath args ∧
       show_plot_window self = arg_show_plot_window args)
    (λ _ _, False).
Proof.
  intros Hargs. unfold program. apply wpR_bind.
  eapply wpR_mono; [by apply construct_spec | | done].
  intros self w0 (Hafter & _ & _ & _ & Hcalls & Hfigs & _ & _ & Hpath & _ &
                  _ & _ & _ & Hwindow & _).
  apply wpR_bind.
  eapply wpR_mono; [by apply (calls_spec _ _ _ self w0 calls []) | | done].
  intros [] w' Hafter'. apply wpR_ret. by exists w0.
Qed.

End ProgramTheorems.

(** ** The rendering methods *)

(** X15: the constructor raises [AssertionError], and does nothing else,
    exactly when neither chart is to be shown or when there is neither a
    window nor a file to draw to.  Otherwise it returns a plotter without a
    figure and without axes, with the default configuration and four empty
    series, and it makes no call into matplotlib. *)
Theorem constructor_assertions args w :
  if accepted args then
    ∃ self w',
      rrun (construct args) w = RReturn self w' ∧
      fig w' = None ∧ ax_loss w' = None ∧ ax_acc w' = None ∧
      mpl_calls w' = mpl_calls w ∧
      default_config (data self) ∧
      ∀ c, series (lists w') (data self) c = (Some [], Some [])
  else rrun (construct args) w = RRaise AssertionError w.
Proof.
  destruct (accepted args) eqn:Hargs.
  - destruct (wpR_returns _ _ _ (construct_spec args w Hargs))
      as (self & w' & Hrun & Hafter & Hcfg & Hloss & Hacc & Hcalls & _).
    exists self, w'. split_and!; try done.
    + by destruct Hafter as (_ & _ & Hfig & _).
    + intros c. destruct Hafter as (_ & (Hs & _) & _).
      destruct (Hs c) as (Hx & Hy & _). unfold series, contents. simpl.
      by rewrite Hx, Hy.
  - unfold accepted in Hargs. unfold rrun, construct, LossAccPlotter_init.
    destruct (arg_show_loss_plot args || arg_show_acc_plot args);
      simpl in Hargs; [| done].
    unfold mbind at 1, R_bind at 1. unfold assert at 1. simpl.
    unfold mbind at 1, R_bind at 1. by rewrite Hargs.
Qed.

Section RenderingTheorems.

Context {poly : Type}.
Variable lstsq : list Z → list pyfloat → Z → poly.
Variable poly_call : poly → Z → pyfloat.
Variable get_position : nat → bbox.

(** X16: [_initialize_plot] never raises and leaves the lists alone.  It
    creates one figure, sets the loss axes exactly when the loss chart is to
    be shown and the accuracy axes exactly when the accuracy chart is, never
    both to the same axes, and shows the window exactly when the plotter has
    one. *)
Theorem initialize_plot_axes self w :
  ∃ w' evs,
    rrun (_initialize_plot get_position self) w = RReturn () w' ∧
    lists w' = lists w ∧
    fig w' = Some (S (mpl_figures w)) ∧
    (is_Some (ax_loss w') ↔ show_loss_plot self = true) ∧
    (is_Some (ax_acc w') ↔ show_acc_plot self = true) ∧
    (∀ a, ax_loss w' = Some a → ax_acc w' ≠ Some a) ∧
    mpl_calls w' = mpl_calls w ++ evs ∧
    subplots_in evs = 1%nat ∧
    (Show (Some false) ∈ evs ↔ show_plot_window self = true).
Proof.
  exists (final_world (rrun (_initialize_plot get_position self) w)),
    (initialize_calls get_position self (mpl_axes w)).
  unfold rrun, _initialize_plot, shrink_for_legend, when_axes,
    initialize_calls, shrunk.
  destruct (show_loss_plot self), (show_acc_plot self),
    (show_plot_window self); (split; [reflexivity |]); simpl.
  all: split_and!; rewrite <- ?(assoc_L (++)); try done.
  all: try (split; [done | by eexists]).
  all: try (split; [by intros [? [=]] | done]).
  all: try (intros a [= <-] [=]; lia).
  all: try (split; [done |]; intros _; in_list).
  all: split; [| done]; intros Hin.
  all: repeat (apply elem_of_cons in Hin as [[=] | Hin]).
  all: by apply elem_of_nil in Hin.
Qed.

(** X17: [_redraw_main_lines] draws each stored series as it is, the two
    loss series on the loss axes and then the two accuracy series on the
    accuracy axes, a series of one point with the marker style; it returns
    one handle per line and leaves the lists alone. *)
Theorem main_lines_drawn self w s :
  ready self w s →
  ∃ handles w',
    rrun (_redraw_main_lines self) w = RReturn handles w' ∧
    draws w w' (main_lines self (ax_loss w) (ax_acc w) s) ∧
    length handles = (2 * axes_set w)%nat.
Proof.
  intros Hready.
  exact (wpR_returns _ _ _ (main_lines_spec self w s _ _ Hready eq_refl eq_refl)).
Qed.

(** X18: [_redraw_averages] draws nothing when averages are off.  Otherwise
    it draws, over the stored indices of each series, the trailing means
    that [_calc_sma] computes from the stored values; the stored lists keep
    their contents. *)
Theorem averages_drawn self w s :
  ready self w s →
  ∃ handles w',
    rrun (_redraw_averages self) w = RReturn handles w' ∧
    draws w w' (average_lines self (ax_loss w) (ax_acc w) s) ∧
    length handles =
      (if show_averages self then 2 * axes_set w else 0)%nat.
Proof.
  intros Hready.
  exact (wpR_returns _ _ _ (averages_spec self w s _ _ Hready eq_refl eq_refl)).
Qed.

Lemma regression_lines_split self ax1 ax2 s :
  regression_lines lstsq poly_call self ax1 ax2 s =
    regression_lines lstsq poly_call self ax1 None s ++
    regression_lines lstsq poly_call self None ax2 s.
Proof.
  unfold regression_lines. destruct (show_regressions self); [| done].
  by rewrite app_nil_r.
Qed.


Lemma prepared_calls self w w1 :
  prepared get_position self w w1 →
  lists w1 = lists w ∧
  mpl_calls w1 =
    mpl_calls w ++
      (if fig w is Some _ then []
       else initialize_calls get_position self (mpl_axes w)) ∧
  (is_Some (fig w) → w1 = w).
Proof.
  unfold prepared. destruct (fig w) as [f|].
  - intros ->. by rewrite app_nil_r.
  - intros (Hl & _ & _ & _ & _ & _ & Hc). split_and!; [done.. |].
    by intros [? [=]].
Qed.


(** X21: after [redraw], every axes carries as many lines as its legends
    have texts, and each legend has two texts per column, in one to three
    columns. *)
Theorem redraw_lines_match_legends self w s :
  ready self w s →
  ∃ w' evs,
    rrun (redraw lstsq poly_call get_position self) w = RReturn () w' ∧
    mpl_calls w' = mpl_calls w ++ evs ∧
    ∀ a, plots_on a evs = legend_texts (legends_on a evs) ∧
         Forall (λ legend, Z.of_nat (length legend.1) = 2 * legend.2 ∧
                           1 ≤ legend.2 ≤ 3)
           (legends_on a evs).
Proof.
  intros Hready.
  destruct (wpR_returns _ _ _
              (redraw_spec lstsq poly_call get_position self w s Hready))
    as ([] & w' & Hrun & w1 & f & Hprep & Hf & _ & _ & Hcalls).
  apply prepared_calls in Hprep as (_ & Hcalls1 & _).
  eexists w', _. split_and!; [done | |].
  { by rewrite Hcalls, Hcalls1, <- (assoc_L (++)). }
  intros a. rewrite plots_on_app, legends_on_app.
  assert (plots_on a (if fig w is Some _ then []
                      else initialize_calls get_position self (mpl_axes w))
          = 0%nat ∧
          legends_on a (if fig w is Some _ then []
                        else initialize_calls get_position self (mpl_axes w))
          = []) as [-> ->].
  { destruct (fig w); [done |].
    destruct (initialize_calls_one_figure get_position self (mpl_axes w))
      as (_ & _ & Hp & Hl). by rewrite Hp, Hl. }
  rewrite redraw_calls_plots, redraw_calls_legends. simpl.
  destruct (legend_labels_count self) as [Hcount Hncol].
  unfold axes_uses, legend_texts.
  repeat case_bool_decide; simpl; rewrite ?length_fmap;
    repeat constructor; simpl; rewrite ?length_fmap; lia.
Qed.


End RenderingTheorems.

(** ** Sequences of calls *)

Section Sessions.

Context {poly : Type}.
Variable lstsq : list Z → list pyfloat → Z → poly.
Variable poly_call : poly → Z → pyfloat.
Variable get_position : nat → bbox.


(** X24: over any sequence of calls the plotter creates at most one figure:
    none while no call redraws, and one, at the first call that redraws,
    which it keeps. *)
Theorem program_one_figure args calls w :
  accepted args = true →
  ∃ self w' evs,
    rrun (program lstsq poly_call get_position args calls) w =
      RReturn self w' ∧
    mpl_calls w' = mpl_calls w ++ evs ∧
    subplots_in evs = (if existsb call_redraw calls then 1 else 0)%nat ∧
    fig w' = (if existsb call_redraw calls then Some (S (mpl_figures w))
              else None).
Proof.
  intros Hargs.
  destruct (wpR_returns _ _ _
              (program_spec lstsq poly_call get_position args calls w Hargs))
    as (self & w' & Hrun & w0 & Hafter & Hcalls0 & Hfigs0 & _).
  destruct Hafter as (_ & _ & Hfig & _ & evs & Hcalls & Hsub & _).
  exists self, w', evs. split_and!; [done | congruence | done |].
  by rewrite Hfig, Hfigs0.
Qed.


(** X26: [block] after a sequence of calls.  A plotter without a window
    does nothing.  A plotter with a window selects its figure and shows it
    when some call has redrawn, and raises [AttributeError] when none has:
    there is no figure yet. *)
Theorem block_after_program args calls w :
  accepted args = true →
  ∃ self w',
    rrun (program lstsq poly_call get_position args calls) w =
      RReturn self w' ∧
    if arg_show_plot_window args then
      if existsb call_redraw calls then
        ∃ w'', rrun (block self) w' = RReturn () w'' ∧
               draws w' w'' [SelectFigure (S (mpl_figures w)); Show None]
      else rrun (block self) w' = RRaise AttributeError w'
    else rrun (block self) w' = RReturn () w'.
Proof.
  intros Hargs.
  destruct (wpR_returns _ _ _
              (program_spec lstsq poly_call get_position args calls w Hargs))
    as (self & w' & Hrun & w0 & Hafter & _ & Hfigs0 & _ & Hwindow).
  destruct Hafter as (_ & _ & Hfig & _).
  exists self, w'. split; [done |].
  unfold rrun, block. rewrite Hwindow.
  destruct (arg_show_plot_window args); [| done].
  unfold fig_number, mbind, R_bind, get_fig. rewrite Hfig, Hfigs0.
  destruct (existsb call_redraw calls); [| done].
  eexists. split; [reflexivity |]. split_and!; simpl; try done.
  by rewrite <- (assoc_L (++)).
Qed.

End Sessions.

(** ** Witnesses on concrete worlds *)

Lemma ready_fed w :
  lists w = fed_store two_values → ready window_plotter w fed_series.
Proof.
  intros Hlists. split_and!.
  - rewrite Hlists. intros c. by destruct c.
  - by apply default_styles_complete.
  - unfold good_config. simpl. lia.
Qed.

Lemma default_config_new : default_config new_plotter.
Proof. by repeat split. Qed.

Lemma numeric_fed : numeric fed_series.
Proof.
  intros c. unfold projectable, int64, is_finite.
  destruct c; split; repeat constructor; lia.
Qed.

Lemma projectable_three_calls :
  Forall (λ c, projectable (x_index (call_values c))) three_calls.
Proof. unfold projectable, int64. repeat constructor; simpl; lia. Qed.

Lemma main_lines_drawn_witness :
  ∃ handles w',
    rrun (_redraw_main_lines window_plotter) drawn_world =
      RReturn handles w' ∧
    draws drawn_world w'
      (main_lines window_plotter (Some 0%nat) (Some 1%nat) fed_series) ∧
    length handles = 4%nat.
Proof.
  apply (main_lines_drawn window_plotter drawn_world fed_series).
  by apply ready_fed.
Defined.

Lemma averages_drawn_witness :
  ∃ handles w',
    rrun (_redraw_averages window_plotter) drawn_world =
      RReturn handles w' ∧
    draws drawn_world w'
      (average_lines window_plotter (Some 0%nat) (Some 1%nat) fed_series) ∧
    length handles = 4%nat.
Proof.
  apply (averages_drawn window_plotter drawn_world fed_series).
  by apply ready_fed.
Defined.



Lemma redraw_lines_match_legends_witness :
  ∃ w' evs,
    rrun (redraw count_lstsq count_call unit_box window_plotter) fed_world =
      RReturn () w' ∧
    mpl_calls w' = mpl_calls fed_world ++ evs ∧
    ∀ a, plots_on a evs = legend_texts (legends_on a evs) ∧
         Forall (λ legend, Z.of_nat (length legend.1) = 2 * legend.2 ∧
                           1 ≤ legend.2 ≤ 3)
           (legends_on a evs).
Proof.
  apply (redraw_lines_match_legends count_lstsq count_call unit_box
           window_plotter fed_world fed_series).
  by apply ready_fed.
Defined.



Lemma program_one_figure_witness :
  ∃ self w' evs,
    rrun (program count_lstsq count_call unit_box both_charts three_calls)
      empty_world = RReturn self w' ∧
    mpl_calls w' = mpl_calls empty_world ++ evs ∧
    subplots_in evs = 1%nat ∧
    fig w' = Some 1%nat.
Proof.
  apply (program_one_figure count_lstsq count_call unit_box both_charts
           three_calls empty_world).
  reflexivity.
Defined.


Lemma block_after_program_witness :
  ∃ self w',
    rrun (program count_lstsq count_call unit_box both_charts
            three_calls) empty_world =
      RReturn self w' ∧
    ∃ w'', rrun (block self) w' = RReturn () w'' ∧
           draws w' w'' [SelectFigure 1; Show None].
Proof.
  apply (block_after_program count_lstsq count_call unit_box both_charts
           three_calls empty_world).
  reflexivity.
Defined.
